(** * bqplot: selection bookkeeping, graph data and tick formatting

  A shallow embedding of the parts of the bqplot JavaScript views that
  carry logic of their own: the palette and the selection styles of the
  [Mark] base class, the click handlers, styles and fills of the [Bars] and
  [Graph] marks, the hovering and the node pinning of the [Graph] mark,
  the node data and the link-matrix coercion of [GraphModel] and the tick
  selection and tick formatting helpers of [TickFormatter].

  Conventions of the embedding:
  - a JavaScript array is a [list]; [null] and [undefined] are [None],
    but for the colour of a datum, where the code tells them apart;
  - bar and node indices are integers ([Z]);
  - JavaScript numbers are rationals ([Q]), with [None] for NaN where the
    code can meet it; the infinities are outside the model.  Where the
    rounding of IEEE doubles bears on a result it is written out: the
    arithmetic of the tick ramp goes through a rounding function [fl],
    [Math.log10] is a function [log10] of which the statements say what
    they need, and the negative zero that [Math.round] can return is a
    value of its own;
  - a call that throws returns [None]. *)

From Stdlib Require Import String Ascii ZArith QArith Qround Qabs Qpower List Bool Lia Lqa.
From Stdlib Require Import DecimalString.
From Stdlib Require Import Sorting.Sorted.
Import ListNotations.

Local Open Scope Z_scope.

(** ** JavaScript, underscore and d3 array helpers *)

Module JS.

(** [Array.prototype.indexOf]: position of the first occurrence, -1 when
    there is none. *)
Fixpoint indexOf_from (l : list Z) (x : Z) (k : Z) : Z :=
  match l with
  | [] => -1
  | y :: l' => if y =? x then k else indexOf_from l' x (k + 1)
  end.

Definition indexOf (l : list Z) (x : Z) : Z := indexOf_from l x 0.

(** [arr.splice(start, 1)] for [0 <= start]: the element at [start] is
    dropped; nothing happens when [start] is past the end. *)
Fixpoint splice1 (l : list Z) (start : nat) : list Z :=
  match l, start with
  | [], _ => []
  | _ :: l', O => l'
  | y :: l', S n => y :: splice1 l' n
  end.

(** [_.range(start, stop)] on integers, step 1. *)
Definition range (start stop : Z) : list Z :=
  map (fun k => start + Z.of_nat k) (seq 0 (Z.to_nat (stop - start))).

(** [d3.min] and [d3.max] of a non-empty array [a :: r] of numbers. *)
Definition d3_min (a : Z) (r : list Z) : Z := fold_left Z.min r a.
Definition d3_max (a : Z) (r : list Z) : Z := fold_left Z.max r a.

(** The fields of [d3.event] the handlers read. *)
Record event := { ctrlKey : bool; shiftKey : bool; metaKey : bool }.

(** Structural equality of two attribute values (Backbone's change test). *)
Definition attr_eqb (a b : option (list Z)) : bool :=
  match a, b with
  | None, None => true
  | Some l, Some l' => if list_eq_dec Z.eq_dec l l' then true else false
  | _, _ => false
  end.

(** A property of an object that may be [undefined] or [null]. *)
Inductive maybe (A : Type) :=
| Undefined
| Null
| Defined (a : A).

Arguments Undefined {A}.
Arguments Null {A}.
Arguments Defined {A} a.

End JS.

(** ** The Mark view (palette and selection styles)

    The base class of the marks.  A style is a JavaScript object, kept as
    the list of its own properties.  The DOM is not part of the model: a
    call that styles elements is described by the indices of the elements
    whose style it sets. *)

Module Mark.
Import JS.

Definition style := list (string * string).

(** [get_colors(index)], that is [this.colors[index % len]]: [undefined]
    for an empty palette ([index % 0] is NaN) and for a negative
    remainder. *)
Definition get_colors {C : Type} (colors : list C) (index : Z) : option C :=
  let len := Z.of_nat (length colors) in
  if len =? 0 then None
  else
    let r := Z.rem index len in
    if r <? 0 then None else nth_error colors (Z.to_nat r).

(** underscore's [_.contains(list, value)] and [_.difference(array, other)]. *)
Definition _contains (l : list Z) (value : Z) : bool := indexOf l value >=? 0.

Definition _difference (array other : list Z) : list Z :=
  filter (fun value => negb (_contains other value)) array.

(** The fields that the style functions read: the two style objects, the
    view's [selected_indices] and the length of [model.mark_data]. *)
Record view := {
  selected_style : style;
  unselected_style : style;
  selected_indices : option (list Z);
  mark_data_length : Z
}.

Section Styles.

(** [set_style_on_elements(style, indices)] is left to the specific mark:
    here the indices of the elements that it styles. *)
Variable set_style_on_elements : style -> option (list Z) -> list Z.

(** [style_updated(new_style, indices)]: the default style is restored,
    then the new style is set. *)
Definition style_updated (new_style : style) (indices : option (list Z)) : list Z :=
  set_style_on_elements new_style indices.

(** [selected_style_updated(model, style)]: the view with its new style
    and the elements that receive it. *)
Definition selected_style_updated (v : view) (new_style : style) : view * list Z :=
  ({| selected_style := new_style;
      unselected_style := unselected_style v;
      selected_indices := selected_indices v;
      mark_data_length := mark_data_length v |},
   style_updated new_style (selected_indices v)).

Definition unselected_style_updated (v : view) (new_style : style) : view * list Z :=
  let sel_indices := selected_indices v in
  let unselected_indices :=
    match sel_indices with
    | Some sel_indices =>
        filter (fun index => indexOf sel_indices index =? -1)
               (range 0 (mark_data_length v))
    | None => []
    end in
  ({| selected_style := selected_style v;
      unselected_style := new_style;
      selected_indices := selected_indices v;
      mark_data_length := mark_data_length v |},
   style_updated new_style (Some unselected_indices)).

(** [apply_styles()]: the elements styled by its two calls of
    [set_style_on_elements], first with the selected style, then with the
    unselected one.  [!this.selected_indices] holds for [null] only, not
    for an empty array. *)
Definition apply_styles (v : view) : list Z * list Z :=
  let all_indices := range 0 (mark_data_length v) in
  let styled_selected := set_style_on_elements (selected_style v) (selected_indices v) in
  let unselected_indices :=
    match selected_indices v with
    | None => []
    | Some sel => _difference all_indices sel
    end in
  (styled_selected, set_style_on_elements (unselected_style v) (Some unselected_indices)).

End Styles.

End Mark.

(** ** The Bars view (click selection) *)

Module Bars.
Import JS.

(** What the handlers read and write: the model attributes
    ["select_bars"] and ["idx_selected"], the length of
    [model.mark_data], and the view's own [selected_indices]. *)
Record view := {
  select_bars : bool;
  idx_selected : option (list Z);
  mark_data_length : Z;
  selected_indices : option (list Z)
}.

(** [jQuery.extend(true, [], a)]: a fresh deep copy, [[]] for [null]. *)
Definition jQuery_extend (a : option (list Z)) : list Z :=
  match a with Some l => l | None => [] end.

(** The tail of [bar_click_handler] that every path but the early
    [return] reaches: [model.set("idx_selected", ...)] and
    [this.selected_indices = idx_selected]. *)
Definition set_idx_selected (v : view) (l : list Z) : view :=
  {| select_bars := select_bars v;
     idx_selected := (if (Nat.eqb (length l) 0) then None else Some l);
     mark_data_length := mark_data_length v;
     selected_indices := Some l |}.

Definition bar_click_handler (v : view) (e : event) (index : Z) : view :=
  if select_bars v then
    let idx := jQuery_extend (idx_selected v) in
    let elem_index := indexOf idx index in
    if (elem_index >? -1) && ctrlKey e then
      set_idx_selected v (splice1 idx (Z.to_nat elem_index))
    else
      if shiftKey e then
        if elem_index >? -1 then v
        else
          let min_index :=
            match idx with [] => -1 | a :: r => d3_min a r end in
          let max_index :=
            match idx with [] => mark_data_length v | a :: r => d3_max a r end in
          let idx :=
            if index >? max_index then idx ++ range (max_index + 1) index
            else if index <? min_index then idx ++ range (index + 1) min_index
            else idx in
          set_idx_selected v (idx ++ [index])
      else
        let idx := if negb (ctrlKey e) then [] else idx in
        set_idx_selected v (idx ++ [index])
  else v.

Definition reset_selection (v : view) : view :=
  if select_bars v then
    {| select_bars := select_bars v;
       idx_selected := None;
       mark_data_length := mark_data_length v;
       selected_indices := None |}
  else v.

(** *** Styles and fills of the bars *)

(** [set_style_on_elements(style, indices)] on [elements] bar groups:
    nothing for no indices or a blank style, else the groups whose index
    is found in [indices]. *)
Definition set_style_on_elements (elements : Z) (style : Mark.style)
    (indices : option (list Z)) : list Z :=
  match indices with
  | None => []
  | Some indices =>
      if Nat.eqb (length indices) 0 then []
      else if Nat.eqb (length style) 0 then []
      else filter (fun index => negb (indexOf indices index =? -1)) (range 0 elements)
  end.

(** The Mark fields of a Bars view with the given two styles. *)
Definition mark_view (selected_style unselected_style : Mark.style) (v : view) : Mark.view :=
  {| Mark.selected_style := selected_style;
     Mark.unselected_style := unselected_style;
     Mark.selected_indices := selected_indices v;
     Mark.mark_data_length := mark_data_length v |}.

(** [this.apply_styles()] as [bar_click_handler] and [draw] call it. *)
Definition apply_styles (elements : Z) (selected_style unselected_style : Mark.style)
    (v : view) : list Z * list Z :=
  Mark.apply_styles (set_style_on_elements elements)
                    (mark_view selected_style unselected_style v).

(** The fill callback of [update_colors] and [draw_legend] for the datum
    [d] at index [i]: the colour scale applied to [d.color] when
    [d.color != undefined] (neither [undefined] nor [null]) and there is
    a colour scale, the palette otherwise.  A colour scale is a function
    of a colour value or [null] ([None]). *)
Definition fill {D C : Type} (color_scale : option (option D -> C)) (colors : list C)
    (d_color : maybe D) (i : Z) : option C :=
  match d_color, color_scale with
  | Defined c, Some scale => Some (scale (Some c))
  | _, _ => Mark.get_colors colors i
  end.

End Bars.

(** ** The Graph view (click selection) *)

Module Graph.
Import JS.

(** The model attribute ["selected"] and the view's [selected_indices]. *)
Record view := {
  selected : option (list Z);
  selected_indices : option (list Z)
}.

(** [model.set("selected", value)]: the attribute is written and, when
    its value changed, the ["change:selected"] listener
    [update_selected] copies it to [selected_indices]. *)
Definition model_set_selected (v : view) (value : option (list Z)) : view :=
  {| selected := value;
     selected_indices :=
       if attr_eqb (selected v) value then selected_indices v else value |}.

Definition reset_selection (v : view) : view :=
  let v := model_set_selected v None in
  {| selected := selected v; selected_indices := None |}.

Definition click_handler (v : view) (e : event) (index : Z) : view :=
  let idx := selected v in
  let sel := match idx with Some l => l | None => [] end in
  let elem_index := indexOf sel index in
  let accelKey := ctrlKey e || metaKey e in
  let sel :=
    if (elem_index >? -1) && accelKey then splice1 sel (Z.to_nat elem_index)
    else if accelKey then sel ++ [index]
    else [] ++ [index] in
  model_set_selected v (if Nat.eqb (length sel) 0 then None else Some sel).

(** *** Node positions

    [draw] and [update_position] write the pixel position of every node of
    [model.mark_data] from the x and y scale views.  A node's data
    coordinates are of a type [coord] (they may be undefined), pixel
    positions are numbers of a type [num] with its addition [plus]; a scale
    view is its [scale] function and its [offset]. *)

Section Positions.

Variable coord : Type.
Variable num : Type.
Variable plus : num -> num -> num.

Record scale_view := { scale : coord -> num; offset : num }.

(** The fields of a node object that the two functions read or write;
    [None] is a field that was never assigned. *)
Record node := {
  x : coord;
  y : coord;
  x_px : option num;
  y_px : option num;
  fixed : option bool
}.

(** [this.scales]: each of [x] and [y] is a scale view or [undefined]. *)
Record scales := { scales_x : option scale_view; scales_y : option scale_view }.

(** The callback of the first [forEach]:
    [d.x_px = x_scale.scale(d.x) + x_scale.offset; d.fixed = true]. *)
Definition place_x (x_scale : scale_view) (d : node) : node :=
  {| x := x d; y := y d;
     x_px := Some (plus (scale x_scale (x d)) (offset x_scale));
     y_px := y_px d;
     fixed := Some true |}.

(** The callback of the second [forEach]:
    [d.y_px = y_scale.scale(d.y) + y_scale.offset]. *)
Definition place_y (y_scale : scale_view) (d : node) : node :=
  {| x := x d; y := y d;
     x_px := x_px d;
     y_px := Some (plus (scale y_scale (y d)) (offset y_scale));
     fixed := fixed d |}.

(** [update_position], as a function of [this.scales] and
    [model.mark_data]; the restart of the force layout that follows reads
    the nodes and is not part of the model. *)
Definition update_position (sc : scales) (mark_data : list node) : list node :=
  let x_scale := scales_x sc in
  let y_scale := scales_y sc in
  let mark_data :=
    match x_scale with
    | Some x_scale => map (place_x x_scale) mark_data
    | None => mark_data
    end in
  let mark_data :=
    match y_scale with
    | Some y_scale => map (place_y y_scale) mark_data
    | None => mark_data
    end in
  mark_data.

(** [draw], up to the creation of the force layout: [set_ranges] touches
    the scales' ranges only, then the two loops of [update_position] are
    repeated. *)
Definition draw (sc : scales) (mark_data : list node) : list node :=
  let x_scale := scales_x sc in
  let y_scale := scales_y sc in
  let mark_data :=
    match x_scale with
    | Some x_scale => map (place_x x_scale) mark_data
    | None => mark_data
    end in
  let mark_data :=
    match y_scale with
    | Some y_scale => map (place_y y_scale) mark_data
    | None => mark_data
    end in
  mark_data.

End Positions.

Arguments scale {coord num} _ _.
Arguments offset {coord num} _.
Arguments x {coord num} _.
Arguments y {coord num} _.
Arguments x_px {coord num} _.
Arguments y_px {coord num} _.
Arguments fixed {coord num} _.
Arguments scales_x {coord num} _.
Arguments scales_y {coord num} _.
Arguments update_position {coord num} plus sc mark_data.
Arguments draw {coord num} plus sc mark_data.

(** *** Hovering and node colours *)

(** The model attribute ["hovered_point"] (a node index or [null]) and the
    view's [hovered_index]. *)
Record hover_view := {
  hovered_point : option Z;
  hovered_index : option (list Z)
}.

(** [render]: [!hovered_point ? null : [hovered_point]]; the index 0 is
    falsy as [null] is. *)
Definition render_hovered_index (hovered_point : option Z) : option (list Z) :=
  match hovered_point with
  | Some p => if p =? 0 then None else Some [p]
  | None => None
  end.

(** [update_hovered(model, value)], the ["change:hovered_point"]
    listener: [value === null ? value : [value]]. *)
Definition update_hovered (value : option Z) : option (list Z) :=
  match value with
  | Some p => Some [p]
  | None => None
  end.

Definition point_eqb (a b : option Z) : bool :=
  match a, b with
  | None, None => true
  | Some p, Some q => p =? q
  | _, _ => false
  end.

(** [model.set("hovered_point", value)]: the listener runs when the value
    changed. *)
Definition model_set_hovered_point (h : hover_view) (value : option Z) : hover_view :=
  {| hovered_point := value;
     hovered_index :=
       if point_eqb (hovered_point h) value then hovered_index h
       else update_hovered value |}.

Definition reset_hover (h : hover_view) : hover_view :=
  let h := model_set_hovered_point h None in
  {| hovered_point := hovered_point h; hovered_index := None |}.

Definition hover_handler (h : hover_view) (index : Z) : hover_view :=
  model_set_hovered_point h (Some index).

(** [set_style_on_elements(style, indices)] on [elements] nodes.  The
    style may be [undefined]: the test for a blank style lets it through
    to [nodes.style(undefined)], which sets no property of any node. *)
Definition set_style_on_elements (elements : Z) (style : option Mark.style)
    (indices : option (list Z)) : list Z :=
  match indices with
  | None => []
  | Some indices =>
      if Nat.eqb (length indices) 0 then []
      else
        match style with
        | Some st =>
            if Nat.eqb (length st) 0 then []
            else filter (fun index => negb (indexOf indices index =? -1)) (range 0 elements)
        | None => []
        end
  end.

(** The part of [apply_styles] that is the Graph's own: the nodes styled
    by the call with the hovered style and by the call with the unhovered
    style. *)
Definition apply_styles (elements : Z) (hovered_style unhovered_style : option Mark.style)
    (mark_data_length : Z) (h : hover_view) : list Z * list Z :=
  let all_indices := range 0 mark_data_length in
  let styled_hovered := set_style_on_elements elements hovered_style (hovered_index h) in
  let unhovered_indices :=
    match hovered_index h with
    | None => []
    | Some hov => Mark._difference all_indices hov
    end in
  (styled_hovered, set_style_on_elements elements unhovered_style (Some unhovered_indices)).

(** What [model.set("hovered_point", value)] restyles: when the value
    changes, the listener [update_hovered] runs [apply_styles] on the new
    state; a set to the value that the attribute has runs no listener, and
    nothing is restyled ([None]). *)
Definition set_hovered_point_styles (elements : Z)
    (hovered_style unhovered_style : option Mark.style) (mark_data_length : Z)
    (h : hover_view) (value : option Z) : option (list Z * list Z) :=
  if point_eqb (hovered_point h) value then None
  else Some (apply_styles elements hovered_style unhovered_style mark_data_length
               (model_set_hovered_point h value)).

(** The restyling that [hover_handler] on the node [index] and
    [reset_hover] bring about. *)
Definition hover_handler_styles (elements : Z)
    (hovered_style unhovered_style : option Mark.style) (mark_data_length : Z)
    (h : hover_view) (index : Z) : option (list Z * list Z) :=
  set_hovered_point_styles elements hovered_style unhovered_style mark_data_length
    h (Some index).

Definition reset_hover_styles (elements : Z)
    (hovered_style unhovered_style : option Mark.style) (mark_data_length : Z)
    (h : hover_view) : option (list Z * list Z) :=
  set_hovered_point_styles elements hovered_style unhovered_style mark_data_length
    h None.

(** [get_node_color(data, index)]: the colour scale applied to
    [data.color] when there is a colour scale and
    [data.color !== undefined], so also when it is [null]; the palette
    otherwise.  A colour scale is a function of a colour value or [null]
    ([None]). *)
Definition get_node_color {D C : Type} (color_scale : option (option D -> C))
    (colors : list C) (data_color : maybe D) (index : Z) : option C :=
  match color_scale, data_color with
  | Some scale, Null => Some (scale None)
  | Some scale, Defined c => Some (scale (Some c))
  | _, _ => Mark.get_colors colors index
  end.

End Graph.

(** ** GraphModel (link data) *)

Module GraphModel.

(** [arr.forEach(f)] for a callback that updates a state [St] and is given
    the element and its index; [i] is the index of the head of [l]. *)
Fixpoint forEach {A St : Type} (f : St -> A -> nat -> St) (l : list A) (i : nat) (s : St) : St :=
  match l with
  | [] => s
  | a :: l' => forEach f l' (S i) (f s a i)
  end.

Section Links.

(** The type of a non-null entry of the link matrix. *)
Variable V : Type.

Record link := { source : nat; target : nat; value : V }.

(** The typed field ["link_matrix"] (rows of entries, [None] for [null])
    and the model's [link_data]. *)
Record model := {
  link_matrix : list (list (option V));
  link_data : list link
}.

Definition update_link_data (m : model) : model :=
  let link_data := [] in
  let link_data :=
    forEach (fun link_data d i =>
      forEach (fun link_data e j =>
        match e with
        | Some e => link_data ++ [{| source := i; target := j; value := e |}]
        | None => link_data
        end) d 0%nat link_data) (link_matrix m) 0%nat link_data in
  {| link_matrix := link_matrix m; link_data := link_data |}.

End Links.

Arguments source {V} _.
Arguments target {V} _.
Arguments value {V} _.
Arguments link_matrix {V} _.
Arguments link_data {V} _.
Arguments update_link_data {V} m.

(** [arr.map(f)] for a callback that is given the element and its index;
    [i] is the index of the head of [l]. *)
Fixpoint map_from {A B : Type} (f : A -> nat -> B) (l : list A) (i : nat) : list B :=
  match l with
  | [] => []
  | a :: l' => f a i :: map_from f l' (S i)
  end.

Section Nodes.

(** The types of a node label, of a coordinate and of a colour value. *)
Variable L : Type.
Variable X : Type.
Variable C : Type.

(** A node object of [mark_data]; [None] is a property that is
    [undefined] or was not written. *)
Record node_data := {
  name : L;
  x : option X;
  y : option X;
  color : option C;
  node_label : option L;
  index : nat
}.

(** [update_node_data], as a function of ["node_labels"] and of the typed
    fields ["x"], ["y"] and ["color"], each an array: the new
    [mark_data].  The domain of the colour scale, which the function also
    sets, is not part of the model. *)
Definition update_node_data (node_labels : list L) (x_data y_data : list X)
    (color_data : list C) : list node_data :=
  if negb (Nat.eqb (length x_data) 0) && negb (Nat.eqb (length y_data) 0) then
    map_from (fun d i =>
      {| name := d;
         x := nth_error x_data i;
         y := nth_error y_data i;
         color := nth_error color_data i;
         node_label := nth_error node_labels i;
         index := i |}) node_labels 0%nat
  else
    map_from (fun d i =>
      {| name := d;
         x := None;
         y := None;
         color := None;
         node_label := None;
         index := i |}) node_labels 0%nat.

End Nodes.

Arguments name {L X C} _.
Arguments x {L X C} _.
Arguments y {L X C} _.
Arguments color {L X C} _.
Arguments node_label {L X C} _.
Arguments index {L X C} _.
Arguments update_node_data {L X C} node_labels x_data y_data color_data.

(** [update_data]: the node data, then the link data; the two calls that
    follow leave both alone ([update_unique_ids] is empty and
    [update_domains] writes to the scales). *)
Definition update_data {L X C V : Type} (node_labels : list L) (x_data y_data : list X)
    (color_data : list C) (m : model V) : list (node_data L X C) * model V :=
  let mark_data := update_node_data node_labels x_data y_data color_data in
  let m := update_link_data m in
  (mark_data, m).

End GraphModel.

(** ** JavaScript numbers *)

Module Num.

Local Open Scope Q_scope.

(** A JavaScript number: a rational, or [None] for NaN.  The model has
    no infinities; where JavaScript would produce one (a division of a
    non-zero number by zero, the logarithm of zero) the model gives [None]
    as well, and the statements that depend on the difference exclude
    those inputs. *)
Definition number := option Q.

Definition lift1 (f : Q -> Q) (a : number) : number :=
  match a with Some x => Some (f x) | None => None end.

Definition lift2 (f : Q -> Q -> Q) (a b : number) : number :=
  match a, b with Some x, Some y => Some (f x y) | _, _ => None end.

Definition add : number -> number -> number := lift2 Qplus.
Definition sub : number -> number -> number := lift2 Qminus.
Definition abs : number -> number := lift1 Qabs.

Definition div (a b : number) : number :=
  match a, b with
  | Some x, Some y => if Qeq_bool y 0 then None else Some (x / y)
  | _, _ => None
  end.

(** Truncation toward zero. *)
Definition trunc (x : Q) : Z := Z.quot (Qnum x) (Z.pos (Qden x)).

(** [x % s] on rationals: the remainder has the sign of [x]. *)
Definition Qrem (x s : Q) : Q := x - s * inject_Z (trunc (x / s)).

Definition rem (a b : number) : number :=
  match a, b with
  | Some x, Some s => if Qeq_bool s 0 then None else Some (Qrem x s)
  | _, _ => None
  end.

(** [a < b] and [a === b]: false as soon as one side is NaN. *)
Definition ltb (a b : number) : bool :=
  match a, b with
  | Some x, Some y => negb (Qle_bool y x)
  | _, _ => false
  end.

Definition eqb (a b : number) : bool :=
  match a, b with
  | Some x, Some y => Qeq_bool x y
  | _, _ => false
  end.

(** [Math.floor], [Math.ceil] and [Math.round] (halves go up). *)
Definition floor : number -> number := lift1 (fun x => inject_Z (Qfloor x)).
Definition ceil : number -> number := lift1 (fun x => inject_Z (Qceiling x)).
Definition round : number -> number := lift1 (fun x => inject_Z (Qfloor (x + (1 # 2)))).

(** The largest [k >= 0] with [b * 10 ^ k <= a], for [0 < b <= a]. *)
Fixpoint log10_up (fuel : nat) (a b : Z) : Z :=
  match fuel with
  | O => 0
  | S fuel' => if (b * 10 <=? a)%Z then (1 + log10_up fuel' a (b * 10))%Z else 0%Z
  end.

(** The smallest [m >= 1] with [b <= a * 10 ^ m], for [0 < a < b]. *)
Fixpoint log10_down (fuel : nat) (a b : Z) : Z :=
  match fuel with
  | O => 1
  | S fuel' => if (b <=? a * 10)%Z then 1%Z else (1 + log10_down fuel' (a * 10) b)%Z
  end.

(** The exact floor of the decimal logarithm of a rational [x > 0]: the
    [k] with [10 ^ k <= x < 10 ^ (k + 1)]. *)
Definition floor_log10 (x : Q) : Z :=
  let a := Qnum x in
  let b := Z.pos (Qden x) in
  if (b <=? a)%Z then log10_up (S (Z.to_nat (Z.log2 a))) a b
  else (- log10_down (S (Z.to_nat (Z.log2 b))) a b)%Z.

(** A stand-in for [Math.log10] that returns the exact floor of the
    logarithm.  It serves to run the digit counts on numbers away from the
    powers of ten, where the floor of [Math.log10] is the exact one. *)
Definition integer_log10 (x : Q) : Q := inject_Z (floor_log10 x).

(** A number as [d3.format] receives it: a rational, or the negative
    zero, which [Math.round] returns for [-0.5 <= x < 0] and which prints
    with its sign. *)
Inductive signed :=
| Finite (q : Q)
| MinusZero.

End Num.

(** ** TickFormatter *)

Module TickFormatter.
Import Num.

Local Open Scope Q_scope.

(** The values found in tick lists and scale domains: a number, a [Date]
    (its time in milliseconds), a label of an ordinal scale (a string that
    does not read as a number) or [undefined]. *)
Inductive value :=
| VNum (q : Q)
| VDate (ms : Z)
| VLabel (s : string)
| VUndefined.

(** The numeric coercion that [-], [/] and [Math.log10] apply. *)
Definition to_number (v : value) : number :=
  match v with
  | VNum q => Some q
  | VDate ms => Some (inject_Z ms)
  | VLabel _ => None
  | VUndefined => None
  end.

(** [arr[i]]: [undefined] outside the array. *)
Definition index (arr : list value) (i : Z) : value :=
  if (i <? 0)%Z then VUndefined else nth (Z.to_nat i) arr VUndefined.

(** [new Date(t)]: the time value is truncated to an integer. *)
Definition new_Date (t : Q) : value := VDate (trunc t).

(** The arithmetic of doubles: every operation returns the exact result
    rounded to the nearest double, [fl] being that rounding.  With the
    identity for [fl] the arithmetic is exact, as that of doubles is on
    integers below 2^53. *)
Definition exact_arithmetic (x : Q) : Q := x.

(** The loop of [_.range]: [n] values starting at [start], each obtained
    from the one before by [start += step]. *)
Fixpoint range_loop (fl : Q -> Q) (n : nat) (start step : Q) : list Q :=
  match n with
  | O => []
  | S n' => start :: range_loop fl n' (fl (start + step)) step
  end.

(** underscore's [_.range(start, stop, step)]:
    [step = step || 1],
    [length = Math.max(Math.ceil((stop - start) / step), 0)]. *)
Definition range (fl : Q -> Q) (start stop step : Q) : list Q :=
  let step := if Qeq_bool step 0 then 1 else step in
  let length := Z.max (Qceiling (fl (fl (stop - start) / step))) 0 in
  range_loop fl (Z.to_nat length) start step.

(** [this.axis_scale]: the scale model's [type], and the d3 scale's
    [domain()] and [ticks()]. *)
Record axis_scale := {
  model_type : string;
  domain : list value;
  ticks : list value
}.

Definition is_date_type (sc : axis_scale) : bool :=
  String.eqb (model_type sc) "date" || String.eqb (model_type sc) "date_color_linear".

(** [get_ticks(data_array)] with [this.num_ticks] an integer, for the
    rounding [fl] of doubles.  The indices into a data array are integers,
    on which the arithmetic of [_.range] is exact; the ramp over a domain
    is computed with rounding at every operation.  The result is [None]
    when the call throws (a domain entry that is not a [Date] on a date
    scale, a step that is NaN) and also when the domain of a numeric scale
    holds something else than numbers, where JavaScript goes on with
    string concatenation. *)
Definition get_ticks (fl : Q -> Q) (sc : axis_scale) (num_ticks : Z)
    (data_array : option (list value)) : option (list value) :=
  let data_array :=
    if String.eqb (model_type sc) "ordinal" then Some (domain sc) else data_array in
  if (num_ticks <? 2)%Z then Some []
  else
    match data_array with
    | Some data_array =>
        let len := Z.of_nat (length data_array) in
        if (len <=? num_ticks)%Z then Some data_array
        else
          let step := Qfloor (inject_Z len / inject_Z (num_ticks - 1)) in
          let indices := range exact_arithmetic 0 (inject_Z len) (inject_Z step) in
          Some (map (fun i => index data_array (Qfloor i)) indices)
    | None =>
        let scale_range := domain sc in
        let max_index := (Z.of_nat (length (domain sc)) - 1)%Z in
        let step :=
          Num.lift1 fl
            (Num.div (Num.lift1 fl (Num.sub (to_number (index scale_range max_index))
                                            (to_number (index scale_range 0))))
                     (Some (inject_Z (num_ticks - 1)))) in
        if is_date_type sc then
          (* scale_range[0] is overwritten by its time first: with a
             single entry the second getTime() is called on a number *)
          if (max_index =? 0)%Z then None
          else
            match index scale_range 0, index scale_range max_index, step with
            | VDate first, VDate last, Some step =>
                let max := fl (inject_Z last + fl (step * (1 # 2))) in
                Some (map new_Date (range fl (inject_Z first) max step))
            | _, _, _ => None
            end
        else
          match index scale_range 0, index scale_range max_index, step with
          | VNum first, VNum last, Some step =>
              let max := fl (last + fl (step * (1 # 2))) in
              Some (map VNum (range fl first max step))
          | _, _, _ => None
          end
    end.

(** *** Tick values of an axis *)

Section TickValues.

(** [Math.log10] on the positive rationals, and the rounding of doubles. *)
Variable log10 : Q -> Q.
Variable fl : Q -> Q.

(** [Math.log10] on numbers: NaN below zero.  At zero JavaScript gives
    [-Infinity], which the model merges with NaN: the remainders that the
    loops below take of it are NaN either way. *)
Definition Math_log10 (a : number) : number :=
  match a with
  | Some x => if Qle_bool x 0 then None else Some (log10 x)
  | None => None
  end.

(** What [set_tick_values] reads: the typed field ["tick_values"],
    [this.num_ticks] and the axis scale. *)
Record axis := {
  tick_values : option (list value);
  num_ticks : option Z;
  scale : axis_scale
}.

(** The ticks kept on a log scale spanning between 2 and 7 orders of
    magnitude (the first loop). *)
Definition keep_125 (t : value) : bool :=
  let r := Num.abs (Num.rem (Math_log10 (to_number t)) (Some 1)) in
  Num.ltb (Num.abs r) (Some (1 # 1000))
  || Num.ltb (Num.abs (Num.sub r (Some 1))) (Some (1 # 1000))
  || Num.ltb (Num.abs (Num.sub r (Some (30103 # 100000)))) (Some (1 # 1000))
  || Num.ltb (Num.abs (Num.sub r (Some (69897 # 100000)))) (Some (1 # 1000)).

(** The ticks kept on a wider log scale (the second loop). *)
Definition keep_every (s : number) (t : value) : bool :=
  let r := Num.abs (Num.rem (Math_log10 (to_number t)) s) in
  Num.ltb (Num.abs r) (Some (1 # 1000))
  || Num.ltb (Num.abs (Num.sub r s)) (Some (1 # 1000)).

(** The argument that [set_tick_values] passes to [this.axis.tickValues];
    [None] when [get_ticks] throws. *)
Definition set_tick_values (a : axis) : option (list value) :=
  match tick_values a with
  | Some (t :: ts) => Some (t :: ts)
  | _ =>
    match num_ticks a with
    | Some n => get_ticks fl (scale a) n None
    | None =>
      if String.eqb (model_type (scale a)) "ordinal" then Some (domain (scale a))
      else if String.eqb (model_type (scale a)) "log" then
        let allticks := ticks (scale a) in
        let oom :=
          Num.abs (Math_log10 (Num.div (to_number (index (domain (scale a)) 1))
                                       (to_number (index (domain (scale a)) 0)))) in
        if Num.ltb oom (Some 2) then Some allticks
        else if Num.ltb oom (Some 7) then Some (filter keep_125 allticks)
        else
          let s := Num.round (Num.div oom (Some 10)) in
          Some (filter (keep_every s) allticks)
      else Some (ticks (scale a))
    end
  end.

End TickValues.

(** *** Precision of linear ticks *)

(** [_get_digits(number)]; [None] is NaN.  The logarithm is the value
    that the code computes: [log10 x] stands for [Math.log10] of the
    double nearest to [x], so that it may lie above the logarithm of [x]
    by a rounding error.  Where [_get_digits] is given a difference of two
    ticks, that rounding is the one of the subtraction. *)
Definition _get_digits (log10 : Q -> Q) (number : number) : option Z :=
  match number with
  | Some x =>
      if Qeq_bool x 0 then Some 1%Z
      else option_map (fun l => (Qfloor l + 1)%Z) (Math_log10 log10 (Some (Qabs x)))
  | None => None
  end.

(** [Math.max(a, b)]: NaN as soon as one argument is. *)
Definition Math_max (a b : number) : number :=
  match a, b with
  | Some x, Some y => Some (if Qle_bool x y then y else x)
  | _, _ => None
  end.

(** A precision as [get_format_func] receives it: a number, NaN or
    [undefined]. *)
Inductive prec :=
| PNum (p : Z)
| PNaN
| PUndefined.

Definition prec_of (d : option Z) : prec :=
  match d with Some p => PNum p | None => PNaN end.

(** Comparisons and arithmetic of digit counts that may be NaN. *)
Definition zcmp (f : Z -> Z -> bool) (a : option Z) (b : Z) : bool :=
  match a with Some x => f x b | None => false end.

Definition zlift2 (f : Z -> Z -> Z) (a b : option Z) : option Z :=
  match a, b with Some x, Some y => Some (f x y) | _, _ => None end.

Definition _linear_scale_precision (log10 : Q -> Q) (sc : axis_scale)
    (tks : option (list value)) : prec :=
  let tks := match tks with Some t => t | None => ticks sc end in
  let diff := Num.abs (Num.sub (to_number (index tks 1)) (to_number (index tks 0))) in
  let max :=
    Math_max (Num.abs (to_number (index tks 0)))
             (Num.abs (to_number (index tks (Z.of_nat (length tks) - 1)))) in
  let max_digits := _get_digits log10 max in
  let diff_digits := _get_digits log10 diff in
  let precision := option_map Z.abs (zlift2 Z.sub max_digits diff_digits) in
  if zcmp Z.geb max_digits 0 && zcmp Z.gtb diff_digits 0 then
    if zcmp Z.leb max_digits 6 then PNum 0
    else prec_of (zlift2 Z.add (zlift2 Z.min precision (Some 6%Z)) (Some 1%Z))
  else if zcmp Z.leb diff_digits 0 then
    prec_of (zlift2 Z.add
               (zlift2 Z.min (zlift2 Z.add (option_map Z.abs diff_digits) max_digits)
                       (Some 6%Z))
               (Some 1%Z))
  else PUndefined.

(** *** Number formats *)

Definition is_digit (c : ascii) : bool :=
  (48 <=? nat_of_ascii c)%nat && (nat_of_ascii c <=? 57)%nat.

(** The tail [0+$] of the first pattern: one or more zeros up to the end. *)
Fixpoint zeros_to_end (s : string) : bool :=
  match s with
  | EmptyString => false
  | String c r =>
      Ascii.eqb c "0" && match r with EmptyString => true | _ => zeros_to_end r end
  end.

(** What follows a dot in a match of [/(\.[0-9]*?)0+$/]: the digits
    captured by the lazy group, the fewest that leave only zeros. *)
Fixpoint lazy_digits (s : string) : option string :=
  if zeros_to_end s then Some EmptyString
  else
    match s with
    | EmptyString => None
    | String c r =>
        if is_digit c then option_map (String c) (lazy_digits r) else None
    end.

(** [s.replace(/(\.[0-9]*?)0+$/gi, "$1")]: the leftmost match is replaced
    by its group; it reaches the end of [s], so there is no second one. *)
Fixpoint replace_zeros (s : string) : string :=
  match s with
  | EmptyString => EmptyString
  | String c r =>
      if Ascii.eqb c "." then
        match lazy_digits r with
        | Some g => String "." g
        | None => String c (replace_zeros r)
        end
      else String c (replace_zeros r)
  end.

(** [s.replace(/\.$/, "")]. *)
Fixpoint replace_final_dot (s : string) : string :=
  match s with
  | EmptyString => EmptyString
  | String c r =>
      match r with
      | EmptyString => if Ascii.eqb c "." then EmptyString else s
      | _ => String c (replace_final_dot r)
      end
  end.

(** [str.search("e")] with the two [substring]s taken at it: the text
    before the first [e] and the text from it on; [None] for no [e]. *)
Fixpoint split_e (s : string) : option (string * string) :=
  match s with
  | EmptyString => None
  | String c r =>
      if Ascii.eqb c "e" then Some (EmptyString, s)
      else
        match split_e r with
        | Some (before, from_e) => Some (String c before, from_e)
        | None => None
        end
  end.

Definition _replace_trailing_zeros (str : string) : string :=
  match split_e str with
  | Some (before, from_e) =>
      (replace_final_dot (replace_zeros before) ++ from_e)%string
  | None => replace_final_dot (replace_zeros str)
  end.

(** [str.replace(/-|\.|e/gi, "")]. *)
Fixpoint strip_sign_dot_e (s : string) : string :=
  match s with
  | EmptyString => EmptyString
  | String c r =>
      if Ascii.eqb c "-" || Ascii.eqb c "." || Ascii.eqb c "e" || Ascii.eqb c "E"
      then strip_sign_dot_e r
      else String c (strip_sign_dot_e r)
  end.

(** [Math.round(number)] of a finite number: the nearest integer, the
    upper one of two, and the negative zero for [-0.5 <= number < 0]. *)
Definition Math_round (x : Q) : signed :=
  if Qle_bool (- (1 # 2)) x && negb (Qle_bool 0 x) then MinusZero
  else Finite (inject_Z (Qfloor (x + (1 # 2)))).

(** ["" + prec]. *)
Definition prec_to_string (p : prec) : string :=
  match p with
  | PNum z => NilZero.string_of_int (Z.to_int z)
  | PNaN => "NaN"
  | PUndefined => "undefined"
  end.

Definition prec_is (p : prec) (z : Z) : bool :=
  match p with PNum q => (q =? z)%Z | _ => false end.

Section Formats.

(** [Math.log10], and [d3.format(specifier)(number)]. *)
Variable log10 : Q -> Q.
Variable d3_format : string -> signed -> string.

Definition get_format_func (p : prec) : Q -> string :=
  if prec_is p 0 then
    fun number => d3_format "d" (Math_round number)
  else
    let fmt_string := if prec_is p (-1) then EmptyString else ("." ++ prec_to_string p)%string in
    fun number =>
      let str := d3_format (fmt_string ++ "g")%string (Finite number) in
      let reg_str := strip_sign_dot_e str in
      if (String.length reg_str <? 6)%nat then _replace_trailing_zeros str
      else
        if String.eqb fmt_string EmptyString then
          let new_str := d3_format (fmt_string ++ "e")%string (Finite number) in
          let new_str :=
            if (7 <=? String.length new_str)%nat then d3_format ".6e" (Finite number)
            else new_str in
          _replace_trailing_zeros new_str
        else
          _replace_trailing_zeros (d3_format (fmt_string ++ "e")%string (Finite number)).

Definition linear_sc_format (sc : axis_scale) (tks : option (list value)) : Q -> string :=
  get_format_func (_linear_scale_precision log10 sc tks).

End Formats.

(** *** Date formats *)

(** The tests paired with the format strings of a multi-format. *)
Inductive date_test :=
| getMilliseconds
| getSeconds
| getMinutes
| getHours
| getDate_is_not_1
| getMonth
| always_true.

Definition multi_format := list (string * date_test).

(** [Math.floor(diff / div) === 0] or [== 0]. *)
Definition floor_div_is_0 (diff : number) (div : Q) : bool :=
  Num.eqb (Num.floor (Num.div diff (Some div))) (Some 0).

Definition date_sc_format (sc : axis_scale) (tks : option (list value)) : multi_format :=
  let tks := match tks with Some t => t | None => ticks sc end in
  let diff := Num.abs (Num.sub (to_number (index tks 1)) (to_number (index tks 0))) in
  let div := 1000 in
  if floor_div_is_0 diff div then
    [(".%L", getMilliseconds); (":%S", getSeconds); ("%I:%M", always_true)]%string
  else
    let div := div * 60 in
    if floor_div_is_0 diff div then
      [(":%S", getSeconds); ("%I:%M", always_true)]%string
    else
      let div := div * 60 in
      if floor_div_is_0 diff div then
        [("%I:%M", getMinutes); ("%I %p", always_true)]%string
      else
        let div := div * 24 in
        if floor_div_is_0 diff div then
          [("%I %p", getHours); ("%b %d", always_true)]%string
        else
          let div := div * 27 in
          if floor_div_is_0 diff div then
            [("%b %d", getDate_is_not_1); ("%b %Y", always_true)]%string
          else
            let div := div * 12 in
            if floor_div_is_0 diff div then
              [("%b %d", getDate_is_not_1); ("%b %Y", always_true)]%string
            else
              [("%b %d", getDate_is_not_1); ("%b %Y", getMonth); ("%Y", always_true)]%string.

(** *** Precision of log ticks *)

Section LogFormats.

Variable log10 : Q -> Q.
Variable d3_format : string -> signed -> string.

(** [Math.abs(Math.log10(t1 / t0)) >= 0.3010], with the infinite
    quotients and logarithms written out: [a / 0] is NaN for [a = 0] and
    an infinity of the sign of [a] otherwise (the zero of the model is
    [+0]), the logarithm of [Infinity] is [Infinity], that of [-Infinity]
    and of a negative number is NaN and that of zero is [-Infinity]. *)
Definition log_ratio_ge_03010 (t1 t0 : number) : bool :=
  match t1, t0 with
  | Some a, Some b =>
      if Qeq_bool b 0 then negb (Qle_bool a 0)
      else if Qeq_bool a 0 then true
      else if Qle_bool (a / b) 0 then false
      else Qle_bool (3010 # 10000) (Qabs (log10 (a / b)))
  | _, _ => false
  end.

Definition _log_sc_precision (sc : axis_scale) (tks : option (list value)) : prec :=
  let tks := match tks with Some t => t | None => ticks sc end in
  if log_ratio_ge_03010 (to_number (index tks 1)) (to_number (index tks 0))
  then PNum (-1)
  else PNum 3.

Definition log_sc_format (sc : axis_scale) (tks : option (list value)) : Q -> string :=
  get_format_func d3_format (_log_sc_precision sc tks).

End LogFormats.

End TickFormatter.

(** ** The integer format of d3 *)

Module D3.

Local Open Scope Q_scope.

(** [d3.format("d")(x)] in d3 3.x: the empty string when [x] is not an
    integer, and else [x + ""], the decimal digits of [x] after a minus
    sign when it is negative (for magnitudes below 1e21); the negative
    zero is printed with its sign. *)
Definition format_d (x : Num.signed) : string :=
  match x with
  | Num.Finite x =>
      if Qeq_bool x (inject_Z (Qfloor x)) then NilZero.string_of_int (Z.to_int (Qfloor x))
      else EmptyString
  | Num.MinusZero => "-0"
  end.

(** A stand-in for [d3.format] that knows the type ["d"] only: every
    other specifier gives the empty string.  It serves to run the integer
    formatter of [get_format_func]. *)
Definition integer_format (specifier : string) (x : Num.signed) : string :=
  if String.eqb specifier "d" then format_d x else EmptyString.

End D3.

(** ** Clicks as events

    The handlers as they are wired: a click on a bar runs
    [bar_click_handler], a click on the background rectangle of the bars
    runs the Bars [reset_selection]; with the ["select"] interaction a
    click on a node runs [click_handler] and a click on the figure
    background runs the Graph [reset_selection]. *)

Module Events.

Inductive ui_event :=
| BarClick (e : JS.event) (i : Z)
| BarsBackgroundClick
| NodeClick (e : JS.event) (i : Z)
| GraphBackgroundClick.

Record page := { bars : Bars.view; graph : Graph.view }.

Definition handle (p : page) (ev : ui_event) : page :=
  match ev with
  | BarClick e i => {| bars := Bars.bar_click_handler (bars p) e i; graph := graph p |}
  | BarsBackgroundClick => {| bars := Bars.reset_selection (bars p); graph := graph p |}
  | NodeClick e i => {| bars := bars p; graph := Graph.click_handler (graph p) e i |}
  | GraphBackgroundClick => {| bars := bars p; graph := Graph.reset_selection (graph p) |}
  end.

Definition run (p : page) (evs : list ui_event) : page := fold_left handle evs p.

End Events.

(** ** Notions used to state the properties *)

Module Spec.

Local Open Scope Z_scope.

(** [m] is the largest, respectively the smallest, index of [l]. *)
Definition is_max (l : list Z) (m : Z) : Prop :=
  In m l /\ forall y, In y l -> y <= m.

Definition is_min (l : list Z) (m : Z) : Prop :=
  In m l /\ forall y, In y l -> m <= y.

(** The attribute value that stands for a selection [l]: [null] for the
    empty one. *)
Definition null_if_empty (l : list Z) : option (list Z) :=
  match l with [] => None | _ :: _ => Some l end.

(** The entry of a matrix at row [i], column [j]: [None] for [null] and
    outside the matrix. *)
Definition entry {V : Type} (m : list (list (option V))) (i j : nat) : option V :=
  match nth_error m i with
  | Some row => match nth_error row j with Some e => e | None => None end
  | None => None
  end.

(** The records for the non-null entries of one row [i], from column [j]
    on, and of the rows of a matrix from row [i] on, in reading order. *)
Fixpoint row_links {V : Type} (i j : nat) (row : list (option V)) : list (GraphModel.link V) :=
  match row with
  | [] => []
  | Some e :: row' =>
      {| GraphModel.source := i; GraphModel.target := j; GraphModel.value := e |}
        :: row_links i (S j) row'
  | None :: row' => row_links i (S j) row'
  end.

Fixpoint matrix_links {V : Type} (i : nat) (m : list (list (option V))) : list (GraphModel.link V) :=
  match m with
  | [] => []
  | row :: m' => row_links i 0 row ++ matrix_links (S i) m'
  end.

(** The position of a record in the matrix. *)
Definition position {V : Type} (l : GraphModel.link V) : nat * nat :=
  (GraphModel.source l, GraphModel.target l).

(** Row-major order of positions. *)
Definition row_major_lt (p q : nat * nat) : Prop :=
  (fst p < fst q)%nat \/ (fst p = fst q /\ (snd p < snd q)%nat).

(** What the two loops of [draw] and [update_position] do to one node
    [d], giving [d']. *)
Definition placed {coord num : Type} (plus : num -> num -> num)
    (sc : Graph.scales coord num) (d d' : Graph.node coord num) : Prop :=
  Graph.x d' = Graph.x d /\ Graph.y d' = Graph.y d /\
  match Graph.scales_x sc with
  | Some x_scale =>
      Graph.x_px d' = Some (plus (Graph.scale x_scale (Graph.x d)) (Graph.offset x_scale)) /\
      Graph.fixed d' = Some true
  | None => Graph.x_px d' = Graph.x_px d /\ Graph.fixed d' = Graph.fixed d
  end /\
  match Graph.scales_y sc with
  | Some y_scale =>
      Graph.y_px d' = Some (plus (Graph.scale y_scale (Graph.y d)) (Graph.offset y_scale))
  | None => Graph.y_px d' = Graph.y_px d
  end.

(** The fractional part of [x], and [x mod s] for a positive [s]. *)
Definition frac (x : Q) : Q := x - inject_Z (Qfloor x).

Definition Qmod (x s : Q) : Q := x - s * inject_Z (Qfloor (x / s)).

(** [x] is within 0.001 of [c]. *)
Definition within (x c : Q) : bool := negb (Qle_bool (1 # 1000) (Qabs (x - c))).

(** A logarithm [lg] (NaN when [None]) whose magnitude has a fractional
    part within 0.001 of 0, 1, 0.30103 or 0.69897: a power of 10 or the
    double or the fivefold of one. *)
Definition near_1_2_5 (lg : option Q) : bool :=
  match lg with
  | Some x =>
      let f := frac (Qabs x) in
      within f 0 || within f 1 || within f (30103 # 100000) || within f (69897 # 100000)
  | None => false
  end.

(** A logarithm whose magnitude, modulo [s], is within 0.001 of 0 or of
    [s]. *)
Definition near_multiple (s : Q) (lg : option Q) : bool :=
  match lg with
  | Some x => let r := Qmod (Qabs x) s in within r 0 || within r s
  | None => false
  end.

(** Characters other than the dot and the [e] of an exponent. *)
Definition not_dot (c : ascii) : bool := negb (Ascii.eqb c ".").
Definition not_e (c : ascii) : bool := negb (Ascii.eqb c "e").
Definition not_dot_e (c : ascii) : bool := not_dot c && not_e c.

(** Every character of [s] satisfies [p]. *)
Fixpoint string_forall (p : ascii -> bool) (s : string) : bool :=
  match s with
  | EmptyString => true
  | String c r => p c && string_forall p r
  end.

(** [s] without its trailing zeros. *)
Fixpoint strip_zeros (s : string) : string :=
  match s with
  | EmptyString => EmptyString
  | String c r =>
      match strip_zeros r with
      | EmptyString => if Ascii.eqb c "0" then EmptyString else String c EmptyString
      | r' => String c r'
      end
  end.

(** A numeral [ip.fp] followed by [ex] (nothing, or an exponent that
    starts with [e]), with the trailing zeros of [fp] taken away, and the
    dot too when no digit is left after it. *)
Definition numeral (ip fp ex : string) : string :=
  (ip ++ "." ++ fp ++ ex)%string.

Definition stripped_numeral (ip fp ex : string) : string :=
  match strip_zeros fp with
  | EmptyString => (ip ++ ex)%string
  | fp' => (ip ++ "." ++ fp' ++ ex)%string
  end.


(** An attribute value is [null] or a non-empty list. *)
Definition null_or_nonempty (a : option (list Z)) : Prop :=
  a = None \/ exists i l, a = Some (i :: l).

(** The selection that an attribute value stands for: empty for [null]. *)
Definition selection (a : option (list Z)) : list Z :=
  match a with Some l => l | None => [] end.

(** The view's copy of the selection and the model attribute stand for
    the same selection. *)
Definition bars_in_sync (v : Bars.view) : Prop :=
  selection (Bars.selected_indices v) = selection (Bars.idx_selected v).

Definition graph_in_sync (v : Graph.view) : Prop :=
  Graph.selected_indices v = Graph.selected v.

(** The number of entries of a matrix that are not [null]. *)
Definition non_null {V : Type} (row : list (option V)) : nat :=
  length (filter (fun e => match e with Some _ => true | None => false end) row).

Definition non_null_entries {V : Type} (m : list (list (option V))) : nat :=
  fold_right (fun row n => (non_null row + n)%nat) 0%nat m.

(** A style that sets something: an object with a property at least. *)
Definition sets_style (style : option Mark.style) : Prop :=
  exists st, style = Some st /\ st <> [].

(** What the statements on digit counts ask of [log10], the logarithm as
    the code computes it: it is monotone, and its floor is the exact order
    of magnitude [k] of every number from [10 ^ k] up to 1% below
    [10 ^ (k + 1)].  Nearer to the next power of ten the rounded
    logarithm may reach [k + 1], as [Math.log10(999999.9999999999)],
    which is 6.  Beyond the range of the doubles, where [Math.log10] has
    no finite value, [log10] is any function that goes on in this way. *)
Definition log10_floors (log10 : Q -> Q) : Prop :=
  (forall x y : Q, (0 < x)%Q -> (x <= y)%Q -> (log10 x <= log10 y)%Q) /\
  (forall (k : Z) (x : Q),
     (10 ^ k <= x)%Q -> (x <= (99 # 100) * 10 ^ (k + 1))%Q -> Qfloor (log10 x) = k).

(** A rounding gives equal results on equal rationals. *)
Definition respects_Qeq (fl : Q -> Q) : Prop :=
  forall x y : Q, (x == y)%Q -> (fl x == fl y)%Q.

(** [r] is a ramp from [start] by [step] in the arithmetic of doubles: it
    begins with [start], and each further value is the one before it plus
    [step], rounded. *)
Inductive ramp (fl : Q -> Q) (step : Q) : Q -> list Q -> Prop :=
| ramp_nil (start : Q) : ramp fl step start []
| ramp_cons (start : Q) (r : list Q) :
    ramp fl step (fl (start + step)%Q) r -> ramp fl step start (start :: r).

(** No operation rounds on the way from [d0] to [dl] in [n] ticks: the
    step [(dl - d0) / (n - 1)], the stop [dl + step / 2], the number of
    steps up to the stop and the values [d0 + k * step] are all computed
    exactly. *)
Definition exact_ramp (fl : Q -> Q) (d0 dl : Q) (n : Z) : Prop :=
  let step := ((dl - d0) / inject_Z (n - 1))%Q in
  let stop := (dl + step * (1 # 2))%Q in
  (fl (dl - d0) == dl - d0)%Q /\
  (fl step == step)%Q /\
  (fl (step * (1 # 2)) == step * (1 # 2))%Q /\
  (fl stop == stop)%Q /\
  (fl (stop - d0) == stop - d0)%Q /\
  (fl ((stop - d0) / step) == (stop - d0) / step)%Q /\
  forall k : nat,
    (Z.of_nat k < n)%Z ->
    (fl (d0 + inject_Z (Z.of_nat k) * step) == d0 + inject_Z (Z.of_nat k) * step)%Q.

End Spec.

(** * Properties *)

(** ** Array helpers *)

Section ArrayFacts.
Import JS.

Local Open Scope Z_scope.

Lemma indexOf_from_found (l : list Z) (x k : Z) :
  0 <= k -> ((indexOf_from l x k >? -1) = true <-> In x l).
Proof.
  revert k; induction l as [|y l IH]; intros k Hk; simpl.
  - split; [discriminate | tauto].
  - destruct (Z.eqb_spec y x) as [->|Hne].
    + split; [now left | intros _; apply Z.gtb_lt; lia].
    + rewrite IH by lia. split; [now right | intros [H|H]; [contradiction | exact H]].
Qed.

Lemma indexOf_found (l : list Z) (x : Z) :
  (indexOf l x >? -1) = true <-> In x l.
Proof. apply indexOf_from_found; lia. Qed.

Lemma indexOf_not_found (l : list Z) (x : Z) :
  (indexOf l x >? -1) = false <-> ~ In x l.
Proof.
  rewrite <- indexOf_found. destruct (indexOf l x >? -1); split; intros H; congruence.
Qed.

(** Splicing at the position [indexOf] gives takes out the first
    occurrence. *)
Lemma splice1_indexOf_from (l : list Z) (x k : Z) :
  In x l ->
  exists l1 l2,
    l = l1 ++ x :: l2 /\ ~ In x l1 /\
    indexOf_from l x k = k + Z.of_nat (length l1) /\
    splice1 l (length l1) = l1 ++ l2.
Proof.
  revert k; induction l as [|y l IH]; intros k Hin; [destruct Hin|].
  simpl. destruct (Z.eqb_spec y x) as [->|Hne].
  - exists [], l. simpl. repeat split; auto. lia.
  - destruct Hin as [H|Hin]; [contradiction|].
    destruct (IH (k + 1) Hin) as (l1 & l2 & -> & Hn & Hi & Hs).
    exists (y :: l1), l2. simpl. repeat split.
    + intros [H|H]; [now apply Hne | now apply Hn].
    + rewrite Hi. lia.
    + now rewrite Hs.
Qed.

Lemma splice1_indexOf (l : list Z) (x : Z) :
  In x l ->
  exists l1 l2,
    l = l1 ++ x :: l2 /\ ~ In x l1 /\
    splice1 l (Z.to_nat (indexOf l x)) = l1 ++ l2.
Proof.
  intros Hin. destruct (splice1_indexOf_from l x 0 Hin) as (l1 & l2 & Hl & Hn & Hi & Hs).
  exists l1, l2. repeat split; auto.
  unfold indexOf. rewrite Hi. simpl. now rewrite Nat2Z.id.
Qed.

Lemma range_In (a b k : Z) : In k (range a b) <-> a <= k < b.
Proof.
  unfold range. rewrite in_map_iff. split.
  - intros (n & <- & Hn). apply in_seq in Hn. lia.
  - intros H. exists (Z.to_nat (k - a)). split; [lia|]. apply in_seq. lia.
Qed.

Lemma range_seq_sorted (a : Z) (n s : nat) :
  StronglySorted Z.lt (map (fun k => a + Z.of_nat k) (seq s n)).
Proof.
  revert s; induction n as [|n IH]; intros s; simpl; constructor.
  - apply IH.
  - apply Forall_forall. intros y Hy. apply in_map_iff in Hy.
    destruct Hy as (m & <- & Hm). apply in_seq in Hm. lia.
Qed.

Lemma range_sorted (a b : Z) : StronglySorted Z.lt (range a b).
Proof. apply range_seq_sorted. Qed.

Lemma fold_max_spec (r : list Z) (a : Z) :
  In (fold_left Z.max r a) (a :: r) /\
  forall y, In y (a :: r) -> y <= fold_left Z.max r a.
Proof.
  revert a; induction r as [|b r IH]; intros a; simpl.
  - split; [now left | intros y [<-|[]]; lia].
  - destruct (IH (Z.max a b)) as [Hin Hle]. split.
    + destruct Hin as [H|H]; [|now right; right].
      rewrite <- H. destruct (Z.max_spec a b) as [[_ ->]|[_ ->]]; [right; now left | now left].
    + intros y Hy.
      assert (Z.max a b <= fold_left Z.max r (Z.max a b)) by (apply Hle; now left).
      destruct Hy as [<-|[<-|Hy]]; [lia | lia | apply Hle; now right].
Qed.

Lemma fold_min_spec (r : list Z) (a : Z) :
  In (fold_left Z.min r a) (a :: r) /\
  forall y, In y (a :: r) -> fold_left Z.min r a <= y.
Proof.
  revert a; induction r as [|b r IH]; intros a; simpl.
  - split; [now left | intros y [<-|[]]; lia].
  - destruct (IH (Z.min a b)) as [Hin Hle]. split.
    + destruct Hin as [H|H]; [|now right; right].
      rewrite <- H. destruct (Z.min_spec a b) as [[_ ->]|[_ ->]]; [now left | right; now left].
    + intros y Hy.
      assert (fold_left Z.min r (Z.min a b) <= Z.min a b) by (apply Hle; now left).
      destruct Hy as [<-|[<-|Hy]]; [lia | lia | apply Hle; now right].
Qed.

End ArrayFacts.

(** ** Click selection of the Bars mark *)

Section BarsFacts.
Import JS Spec.

Local Open Scope Z_scope.

Lemma is_max_unique (l : list Z) (m m' : Z) : is_max l m -> is_max l m' -> m = m'.
Proof. intros [H1 H2] [H3 H4]. apply H2 in H3. apply H4 in H1. lia. Qed.

Lemma is_min_unique (l : list Z) (m m' : Z) : is_min l m -> is_min l m' -> m = m'.
Proof. intros [H1 H2] [H3 H4]. apply H2 in H3. apply H4 in H1. lia. Qed.

Lemma d3_max_is_max (a : Z) (r : list Z) : is_max (a :: r) (d3_max a r).
Proof. apply fold_max_spec. Qed.

Lemma d3_min_is_min (a : Z) (r : list Z) : is_min (a :: r) (d3_min a r).
Proof. apply fold_min_spec. Qed.

Lemma set_idx_selected_attr (v : Bars.view) (l : list Z) :
  Bars.selected_indices (Bars.set_idx_selected v l) = Some l /\
  (Bars.idx_selected (Bars.set_idx_selected v l) = None <-> l = []) /\
  (l <> [] -> Bars.idx_selected (Bars.set_idx_selected v l) = Some l).
Proof.
  destruct l as [|a l]; simpl; repeat split; try congruence; discriminate.
Qed.

(** What a shift-click on an unselected bar appends before the bar
    itself. *)
Lemma shift_extension (sel : list Z) (n i : Z) :
  0 <= i < n -> ~ In i sel ->
  let min_index := match sel with [] => -1 | a :: r => d3_min a r end in
  let max_index := match sel with [] => n | a :: r => d3_max a r end in
  exists between,
    (if i >? max_index then sel ++ range (max_index + 1) i
     else if i <? min_index then sel ++ range (i + 1) min_index
     else sel) = sel ++ between /\
    StronglySorted Z.lt between /\
    forall k, In k between <->
      ((exists m, is_max sel m /\ m < k < i) \/ (exists m, is_min sel m /\ i < k < m)).
Proof.
  intros Hi Hnot min_index max_index.
  destruct sel as [|a r].
  - subst min_index max_index.
    replace (i >? n) with false by (rewrite Z.gtb_ltb; symmetry; apply Z.ltb_ge; lia).
    replace (i <? -1) with false by (symmetry; apply Z.ltb_ge; lia).
    exists []. split; [now rewrite app_nil_r|]. split; [constructor|].
    intros k; split; [intros []|].
    intros [(m & [[] _] & _)|(m & [[] _] & _)].
  - pose proof (d3_max_is_max a r) as Hmax. pose proof (d3_min_is_min a r) as Hmin.
    fold max_index in Hmax. fold min_index in Hmin.
    assert (min_index <= max_index) by (destruct Hmax as [Hm _]; now apply Hmin).
    destruct (i >? max_index) eqn:Hgt.
    + apply Z.gtb_lt in Hgt.
      exists (range (max_index + 1) i). split; [reflexivity|]. split; [apply range_sorted|].
      intros k. rewrite range_In. split.
      * intros Hk. left. exists max_index. split; [assumption | lia].
      * intros [(m & Hm & Hk)|(m & Hm & Hk)].
        -- rewrite (is_max_unique _ _ _ Hmax Hm). lia.
        -- rewrite (is_min_unique _ _ _ Hm Hmin) in Hk. lia.
    + assert (i <= max_index) by (rewrite Z.gtb_ltb in Hgt; apply Z.ltb_ge in Hgt; lia).
      destruct (i <? min_index) eqn:Hlt.
      * apply Z.ltb_lt in Hlt.
        exists (range (i + 1) min_index). split; [reflexivity|]. split; [apply range_sorted|].
        intros k. rewrite range_In. split.
        -- intros Hk. right. exists min_index. split; [assumption | lia].
        -- intros [(m & Hm & Hk)|(m & Hm & Hk)].
           ++ rewrite (is_max_unique _ _ _ Hm Hmax) in Hk. lia.
           ++ rewrite (is_min_unique _ _ _ Hm Hmin) in Hk. lia.
      * apply Z.ltb_ge in Hlt.
        exists []. split; [now rewrite app_nil_r|]. split; [constructor|].
        intros k; split; [intros []|].
        intros [(m & Hm & Hk)|(m & Hm & Hk)].
        -- rewrite (is_max_unique _ _ _ Hm Hmax) in Hk. lia.
        -- rewrite (is_min_unique _ _ _ Hm Hmin) in Hk. lia.
Qed.

Ltac split_cases := split; [|split; [|split; [|split]]].

(** C2.  A click on bar [i] (an index of [mark_data]) while ["select_bars"]
    is on, with [sel] the selection before it and [v'] the view after it:
    - ctrl on a selected bar takes [i] (its first occurrence) out of [sel];
    - shift without ctrl on a selected bar changes nothing;
    - shift on an unselected bar appends the indices strictly between the
      largest index of [sel] and [i] when [i] is above it, strictly between
      [i] and the smallest index when [i] is below it, in increasing
      order, and then [i];
    - a click with neither key makes the selection [[i]];
    - whenever the handler sets the attribute at all, ["idx_selected"] is
      [null] exactly when the resulting list is empty, and is that list
      otherwise. *)
Theorem bar_click_handler_bookkeeping (v : Bars.view) (e : event) (i : Z) :
  Bars.select_bars v = true ->
  0 <= i < Bars.mark_data_length v ->
  let sel := Bars.jQuery_extend (Bars.idx_selected v) in
  let v' := Bars.bar_click_handler v e i in
  (In i sel -> ctrlKey e = true ->
     exists l1 l2, sel = l1 ++ i :: l2 /\ ~ In i l1 /\
                   Bars.selected_indices v' = Some (l1 ++ l2)) /\
  (In i sel -> ctrlKey e = false -> shiftKey e = true -> v' = v) /\
  (~ In i sel -> shiftKey e = true ->
     exists between,
       Bars.selected_indices v' = Some (sel ++ between ++ [i]) /\
       StronglySorted Z.lt between /\
       forall k, In k between <->
         ((exists m, is_max sel m /\ m < k < i) \/
          (exists m, is_min sel m /\ i < k < m))) /\
  (ctrlKey e = false -> shiftKey e = false ->
     Bars.selected_indices v' = Some [i] /\ Bars.idx_selected v' = Some [i]) /\
  ((In i sel /\ ctrlKey e = false /\ shiftKey e = true /\ v' = v) \/
   exists l, Bars.selected_indices v' = Some l /\
             (Bars.idx_selected v' = None <-> l = []) /\
             (l <> [] -> Bars.idx_selected v' = Some l)).
Proof.
  intros Hsel Hi sel v'. subst v'. unfold Bars.bar_click_handler.
  rewrite Hsel. fold sel.
  destruct (indexOf sel i >? -1) eqn:Hidx.
  - (* i is selected *)
    pose proof (proj1 (indexOf_found sel i) Hidx) as Hin.
    destruct (ctrlKey e) eqn:Hc; simpl.
    + destruct (splice1_indexOf sel i Hin) as (l1 & l2 & Hl & Hn & Hs).
      split_cases; try (intros; congruence); try tauto.
      * intros _ _. exists l1, l2. rewrite Hs. auto.
      * right. eexists. apply (set_idx_selected_attr v).
    + destruct (shiftKey e) eqn:Hs.
      * split_cases; try (intros; congruence); try tauto.
      * split_cases; try (intros; congruence); try tauto.
        right. exists [i]. simpl. repeat split; congruence.
  - (* i is not selected *)
    pose proof (proj1 (indexOf_not_found sel i) Hidx) as Hnin.
    rewrite andb_false_l.
    destruct (shiftKey e) eqn:Hs.
    + destruct (shift_extension sel (Bars.mark_data_length v) i Hi Hnin)
        as (between & Hb & Hsorted & Hmem).
      cbv zeta in Hb. rewrite Hb.
      split_cases; try (intros; congruence); try tauto.
      * intros _ _. exists between. rewrite <- app_assoc. simpl. auto.
      * right. eexists. apply (set_idx_selected_attr v).
    + destruct (ctrlKey e) eqn:Hc; simpl.
      * split_cases; try (intros; congruence); try tauto.
        right. eexists. apply (set_idx_selected_attr v).
      * split_cases; try (intros; congruence); try tauto.
        right. exists [i]. simpl. repeat split; congruence.
Qed.

(** A shift-click on bar 6 while bars 1 and 3 are selected. *)
Lemma bar_click_handler_bookkeeping_witness :
  exists between,
    Bars.selected_indices
      (Bars.bar_click_handler
         {| Bars.select_bars := true; Bars.idx_selected := Some [1; 3];
            Bars.mark_data_length := 8; Bars.selected_indices := Some [1; 3] |}
         {| ctrlKey := false; shiftKey := true; metaKey := false |} 6)
    = Some ([1; 3] ++ between ++ [6]) /\
    StronglySorted Z.lt between.
Proof.
  destruct (bar_click_handler_bookkeeping
              {| Bars.select_bars := true; Bars.idx_selected := Some [1; 3];
                 Bars.mark_data_length := 8; Bars.selected_indices := Some [1; 3] |}
              {| ctrlKey := false; shiftKey := true; metaKey := false |} 6)
    as (_ & _ & H & _); [reflexivity | simpl; lia |].
  destruct H as (between & Hb & Hs & _).
  - simpl. intros [H|[H|[]]]; discriminate.
  - reflexivity.
  - exists between. split; assumption.
Defined.

End BarsFacts.

(** ** Click selection of the Graph mark *)

Section GraphFacts.
Import JS Spec.

Local Open Scope Z_scope.

Lemma null_if_empty_spec (l : list Z) :
  (null_if_empty l = None <-> l = []) /\ (l <> [] -> null_if_empty l = Some l).
Proof. destruct l; simpl; repeat split; congruence. Qed.

Lemma null_if_empty_length (l : list Z) :
  (if Nat.eqb (length l) 0 then None else Some l) = null_if_empty l.
Proof. now destruct l. Qed.

Lemma null_if_empty_ok (l : list Z) : null_or_nonempty (null_if_empty l).
Proof. destruct l as [|i l]; [now left | right; now exists i, l]. Qed.

Lemma NoDup_split_notin (l1 l2 : list Z) (i : Z) :
  NoDup (l1 ++ i :: l2) -> ~ In i (l1 ++ l2).
Proof. intros H. now apply NoDup_remove_2 in H. Qed.

(** C6.  A click on node [i], with [sel] the selection before it ([[]]
    for [null]) and [v'] the view after it.  With the accel key (ctrl or
    meta) the click toggles [i]: when [i] is in [sel] its first occurrence
    is taken out, so that [i] is no longer selected when [sel] has no
    repetition, and when it is not, it is appended.  Without the accel key
    the selection becomes [[i]].  The attribute ["selected"] is the
    resulting list, and [null] exactly when that list is empty; a
    background click sets it to [null]. *)
Theorem click_handler_selection (v : Graph.view) (e : event) (i : Z) :
  let sel := match Graph.selected v with Some l => l | None => [] end in
  let accelKey := ctrlKey e || metaKey e in
  let v' := Graph.click_handler v e i in
  (accelKey = true -> In i sel ->
     exists l1 l2, sel = l1 ++ i :: l2 /\ ~ In i l1 /\
                   Graph.selected v' = null_if_empty (l1 ++ l2) /\
                   (NoDup sel -> ~ In i (l1 ++ l2))) /\
  (accelKey = true -> ~ In i sel -> Graph.selected v' = Some (sel ++ [i])) /\
  (accelKey = false -> Graph.selected v' = Some [i]) /\
  (exists l, Graph.selected v' = null_if_empty l /\
             (Graph.selected v' = None <-> l = []) /\
             (l <> [] -> Graph.selected v' = Some l)) /\
  Graph.selected (Graph.reset_selection v) = None.
Proof.
  intros sel accelKey v'. subst v'. unfold Graph.click_handler.
  fold sel. fold accelKey. simpl Graph.selected.
  rewrite null_if_empty_length.
  assert (Hres : forall l, exists l', null_if_empty l = null_if_empty l' /\
                   (null_if_empty l = None <-> l' = []) /\
                   (l' <> [] -> null_if_empty l = Some l')).
  { intros l. exists l. split; [reflexivity | apply null_if_empty_spec]. }
  destruct (indexOf sel i >? -1) eqn:Hidx.
  - pose proof (proj1 (indexOf_found sel i) Hidx) as Hin.
    destruct accelKey; simpl andb; cbv iota.
    + destruct (splice1_indexOf sel i Hin) as (l1 & l2 & Hl & Hn & Hs).
      rewrite Hs.
      split; [|split; [|split; [|split]]];
        try solve [intros; congruence | tauto | reflexivity | apply Hres].
      intros _ _. exists l1, l2. repeat split; auto.
      intros Hnd. apply NoDup_split_notin. now rewrite <- Hl.
    + split; [|split; [|split; [|split]]];
        try solve [intros; congruence | tauto | reflexivity | apply Hres].
  - pose proof (proj1 (indexOf_not_found sel i) Hidx) as Hnin.
    rewrite andb_false_l.
    destruct accelKey.
    + split; [|split; [|split; [|split]]];
        try solve [intros; congruence | tauto | reflexivity | apply Hres].
      intros _ _. destruct sel; reflexivity.
    + split; [|split; [|split; [|split]]];
        try solve [intros; congruence | tauto | reflexivity | apply Hres].
Qed.

(** A ctrl-click on the selected node 4 of the selection [[4; 7]]. *)
Lemma click_handler_selection_witness :
  exists l1 l2,
    [4; 7] = l1 ++ 4 :: l2 /\
    Graph.selected
      (Graph.click_handler {| Graph.selected := Some [4; 7]; Graph.selected_indices := None |}
         {| ctrlKey := true; shiftKey := false; metaKey := false |} 4)
    = null_if_empty (l1 ++ l2) /\
    ~ In 4 (l1 ++ l2).
Proof.
  destruct (click_handler_selection
              {| Graph.selected := Some [4; 7]; Graph.selected_indices := None |}
              {| ctrlKey := true; shiftKey := false; metaKey := false |} 4)
    as (H & _).
  destruct H as (l1 & l2 & Hl & _ & Hsel & Hnd).
  - reflexivity.
  - simpl. auto.
  - exists l1, l2. split; [exact Hl|]. split; [exact Hsel|]. apply Hnd.
    simpl. repeat constructor; simpl; intuition discriminate.
Defined.

End GraphFacts.

(** ** The selection attributes are never an empty list *)

Section SelectionInvariant.
Import JS Spec Events.

Local Open Scope Z_scope.

Lemma set_idx_selected_ok (v : Bars.view) (l : list Z) :
  null_or_nonempty (Bars.idx_selected (Bars.set_idx_selected v l)).
Proof. simpl. rewrite null_if_empty_length. apply null_if_empty_ok. Qed.

(** A bar click leaves ["idx_selected"] as it is or sets it to [null] or
    to a non-empty list. *)
Lemma bar_click_handler_attr (v : Bars.view) (e : event) (i : Z) :
  Bars.idx_selected (Bars.bar_click_handler v e i) = Bars.idx_selected v \/
  null_or_nonempty (Bars.idx_selected (Bars.bar_click_handler v e i)).
Proof.
  unfold Bars.bar_click_handler.
  destruct (Bars.select_bars v); [|now left].
  destruct ((indexOf (Bars.jQuery_extend (Bars.idx_selected v)) i >? -1) && ctrlKey e).
  - right. apply set_idx_selected_ok.
  - destruct (shiftKey e).
    + destruct (indexOf (Bars.jQuery_extend (Bars.idx_selected v)) i >? -1).
      * now left.
      * right. apply set_idx_selected_ok.
    + right. apply set_idx_selected_ok.
Qed.

(** With ["select_bars"] on, the attribute is [null] or non-empty after
    the click, whatever it was before: the early [return] is taken only
    when the clicked bar is in it. *)
Lemma bar_click_handler_selecting (v : Bars.view) (e : event) (i : Z) :
  Bars.select_bars v = true ->
  null_or_nonempty (Bars.idx_selected (Bars.bar_click_handler v e i)).
Proof.
  intros Hsel. unfold Bars.bar_click_handler. rewrite Hsel.
  destruct (indexOf (Bars.jQuery_extend (Bars.idx_selected v)) i >? -1) eqn:Hidx.
  - apply indexOf_found in Hidx.
    cbn [andb]. destruct (ctrlKey e); [apply set_idx_selected_ok|].
    destruct (shiftKey e); [|apply set_idx_selected_ok].
    destruct (Bars.idx_selected v) as [[|x l]|]; simpl in Hidx; try contradiction.
    right. now exists x, l.
  - rewrite andb_false_l. destruct (shiftKey e); apply set_idx_selected_ok.
Qed.

Lemma bars_reset_selection_attr (v : Bars.view) :
  Bars.idx_selected (Bars.reset_selection v) = Bars.idx_selected v \/
  Bars.idx_selected (Bars.reset_selection v) = None.
Proof. unfold Bars.reset_selection. destruct (Bars.select_bars v); auto. Qed.

Lemma click_handler_attr (v : Graph.view) (e : event) (i : Z) :
  null_or_nonempty (Graph.selected (Graph.click_handler v e i)).
Proof.
  unfold Graph.click_handler. simpl. rewrite null_if_empty_length.
  apply null_if_empty_ok.
Qed.

Lemma handle_attrs (q : page) (ev : ui_event) :
  (Bars.idx_selected (bars (handle q ev)) = Bars.idx_selected (bars q) \/
   null_or_nonempty (Bars.idx_selected (bars (handle q ev)))) /\
  (Graph.selected (graph (handle q ev)) = Graph.selected (graph q) \/
   null_or_nonempty (Graph.selected (graph (handle q ev)))).
Proof.
  destruct ev as [e i| |e i|]; simpl; split; auto.
  - apply bar_click_handler_attr.
  - destruct (bars_reset_selection_attr (bars q)) as [H|H]; [now left|].
    right. now left.
  - right. apply click_handler_attr.
  - right. now left.
Qed.

(** C10.  From a page whose two selection attributes are [null] or
    non-empty lists, every sequence of bar clicks, node clicks and
    background clicks leads to a page where they are so again; and whatever
    the page, each single click leaves an attribute untouched or sets it to
    [null] or to a non-empty list: a bar click while ["select_bars"] is on
    always leaves ["idx_selected"] so, a node click always sets ["selected"]
    so, and a click on the graph's background sets it to [null]. *)
Theorem selection_attributes_never_empty (p : page) (evs : list ui_event) :
  null_or_nonempty (Bars.idx_selected (bars p)) ->
  null_or_nonempty (Graph.selected (graph p)) ->
  (null_or_nonempty (Bars.idx_selected (bars (run p evs))) /\
   null_or_nonempty (Graph.selected (graph (run p evs)))) /\
  (forall q ev,
     (Bars.idx_selected (bars (handle q ev)) = Bars.idx_selected (bars q) \/
      null_or_nonempty (Bars.idx_selected (bars (handle q ev)))) /\
     (Graph.selected (graph (handle q ev)) = Graph.selected (graph q) \/
      null_or_nonempty (Graph.selected (graph (handle q ev))))) /\
  (forall v e i, Bars.select_bars v = true ->
     null_or_nonempty (Bars.idx_selected (Bars.bar_click_handler v e i))) /\
  (forall v e i, null_or_nonempty (Graph.selected (Graph.click_handler v e i))) /\
  (forall v, Graph.selected (Graph.reset_selection v) = None).
Proof.
  intros Hb Hg.
  split; [|split; [apply handle_attrs
                  | split; [apply bar_click_handler_selecting
                           | split; [apply click_handler_attr | reflexivity]]]].
  unfold run. revert p Hb Hg.
  induction evs as [|ev evs IH]; intros p Hb Hg; simpl; [now split|].
  apply IH.
  - destruct (handle_attrs p ev) as [[H|H] _]; [now rewrite H | exact H].
  - destruct (handle_attrs p ev) as [_ [H|H]]; [now rewrite H | exact H].
Qed.

(** The invariant at work: three clicks from an empty page. *)
Lemma selection_attributes_never_empty_witness :
  null_or_nonempty
    (Bars.idx_selected
       (bars (run {| bars := {| Bars.select_bars := true; Bars.idx_selected := None;
                                Bars.mark_data_length := 5; Bars.selected_indices := None |};
                     graph := {| Graph.selected := None; Graph.selected_indices := None |} |}
                  [BarClick {| ctrlKey := false; shiftKey := false; metaKey := false |} 2;
                   BarClick {| ctrlKey := true; shiftKey := false; metaKey := false |} 2;
                   NodeClick {| ctrlKey := false; shiftKey := false; metaKey := true |} 1]))).
Proof.
  destruct (selection_attributes_never_empty
           {| bars := {| Bars.select_bars := true; Bars.idx_selected := None;
                         Bars.mark_data_length := 5; Bars.selected_indices := None |};
              graph := {| Graph.selected := None; Graph.selected_indices := None |} |}
           [BarClick {| ctrlKey := false; shiftKey := false; metaKey := false |} 2;
            BarClick {| ctrlKey := true; shiftKey := false; metaKey := false |} 2;
            NodeClick {| ctrlKey := false; shiftKey := false; metaKey := true |} 1])
    as [[H _] _]; [left; reflexivity | left; reflexivity | exact H].
Defined.

End SelectionInvariant.

(** ** Node positions of the Graph mark *)

Section PinningFacts.
Import Spec.

Variable coord : Type.
Variable num : Type.
Variable plus : num -> num -> num.

Lemma update_position_placed (sc : Graph.scales coord num) (mark_data : list (Graph.node coord num)) :
  Forall2 (placed plus sc) mark_data (Graph.update_position plus sc mark_data).
Proof.
  unfold Graph.update_position, placed.
  induction mark_data as [|d l IH]; simpl.
  - destruct (Graph.scales_x sc), (Graph.scales_y sc); constructor.
  - destruct (Graph.scales_x sc) as [xs|], (Graph.scales_y sc) as [ys|];
      simpl in *; constructor; auto; simpl; auto.
Qed.

Lemma draw_is_update_position (sc : Graph.scales coord num) (mark_data : list (Graph.node coord num)) :
  Graph.draw plus sc mark_data = Graph.update_position plus sc mark_data.
Proof. reflexivity. Qed.

(** C7.  [draw] and [update_position] treat the nodes alike, one by one
    and in place: with an x scale view, every node gets
    [x_px = x_scale.scale(d.x) + x_scale.offset] and [fixed = true]; with a
    y scale view, every node gets [y_px = y_scale.scale(d.y) + y_scale.offset];
    without an x scale view, whether there is a y scale view or not,
    [x_px] and [fixed] are left as they were on every node. *)
Theorem node_pinning (sc : Graph.scales coord num) (mark_data : list (Graph.node coord num)) :
  Forall2 (placed plus sc) mark_data (Graph.update_position plus sc mark_data) /\
  Forall2 (placed plus sc) mark_data (Graph.draw plus sc mark_data) /\
  (forall x_scale, Graph.scales_x sc = Some x_scale ->
     map Graph.fixed (Graph.draw plus sc mark_data)
     = map (fun _ => Some true) mark_data /\
     map Graph.x_px (Graph.update_position plus sc mark_data)
     = map (fun d => Some (plus (Graph.scale x_scale (Graph.x d)) (Graph.offset x_scale)))
           mark_data) /\
  (forall y_scale, Graph.scales_y sc = Some y_scale ->
     map Graph.y_px (Graph.update_position plus sc mark_data)
     = map (fun d => Some (plus (Graph.scale y_scale (Graph.y d)) (Graph.offset y_scale)))
           mark_data) /\
  (Graph.scales_x sc = None ->
     map Graph.fixed (Graph.update_position plus sc mark_data)
     = map Graph.fixed mark_data).
Proof.
  change (Graph.draw plus sc mark_data) with (Graph.update_position plus sc mark_data).
  split; [apply update_position_placed|].
  split; [apply update_position_placed|].
  unfold Graph.update_position.
  split; [|split].
  - intros xs ->. destruct (Graph.scales_y sc); rewrite ?map_map; simpl; split; reflexivity.
  - intros ys ->. destruct (Graph.scales_x sc); rewrite ?map_map; reflexivity.
  - intros ->. destruct (Graph.scales_y sc); rewrite ?map_map; reflexivity.
Qed.

End PinningFacts.

(** Two nodes under an x scale that doubles and shifts by 10, with no y
    scale. *)
Lemma node_pinning_witness :
  map Graph.fixed
    (Graph.draw Z.add
       {| Graph.scales_x := Some {| Graph.scale := fun c => (2 * c)%Z; Graph.offset := 10%Z |};
          Graph.scales_y := None |}
       [{| Graph.x := 1%Z; Graph.y := 5%Z; Graph.x_px := None; Graph.y_px := None;
           Graph.fixed := None |};
        {| Graph.x := 3%Z; Graph.y := 6%Z; Graph.x_px := None; Graph.y_px := None;
           Graph.fixed := Some false |}])
  = [Some true; Some true].
Proof.
  destruct (node_pinning Z Z Z.add
              {| Graph.scales_x :=
                   Some {| Graph.scale := fun c => (2 * c)%Z; Graph.offset := 10%Z |};
                 Graph.scales_y := None |}
              [{| Graph.x := 1%Z; Graph.y := 5%Z; Graph.x_px := None; Graph.y_px := None;
                  Graph.fixed := None |};
               {| Graph.x := 3%Z; Graph.y := 6%Z; Graph.x_px := None; Graph.y_px := None;
                  Graph.fixed := Some false |}])
    as (_ & _ & H & _).
  destruct (H _ eq_refl) as [Hfixed _]. exact Hfixed.
Defined.

(** ** Link data of GraphModel *)

Section LinkFacts.
Import Spec GraphModel.

Variable V : Type.

Lemma StronglySorted_app {A : Type} (R : A -> A -> Prop) (l1 l2 : list A) :
  StronglySorted R l1 -> StronglySorted R l2 ->
  (forall a b, In a l1 -> In b l2 -> R a b) ->
  StronglySorted R (l1 ++ l2).
Proof.
  induction l1 as [|a l1 IH]; intros H1 H2 H12; simpl; [exact H2|].
  inversion H1 as [|? ? Hs Hall]; subst. constructor.
  - apply IH; auto. intros; apply H12; simpl; auto.
  - apply Forall_app. split; [exact Hall|].
    apply Forall_forall. intros b Hb. apply H12; simpl; auto.
Qed.

Lemma StronglySorted_NoDup {A : Type} (R : A -> A -> Prop) (l : list A) :
  (forall a, ~ R a a) -> StronglySorted R l -> NoDup l.
Proof.
  intros Hirr. induction 1 as [|a l Hs IH Hall]; constructor; auto.
  intros Hin. rewrite Forall_forall in Hall. exact (Hirr a (Hall a Hin)).
Qed.

(** The inner and the outer loop append the records in reading order. *)
Lemma forEach_row (i : nat) (row : list (option V)) (j : nat) (acc : list (link V)) :
  forEach (fun link_data e j =>
             match e with
             | Some e => link_data ++ [{| source := i; target := j; value := e |}]
             | None => link_data
             end) row j acc
  = acc ++ row_links i j row.
Proof.
  revert j acc; induction row as [|[e|] row IH]; intros j acc; simpl.
  - now rewrite app_nil_r.
  - rewrite IH, <- app_assoc. reflexivity.
  - apply IH.
Qed.

Lemma forEach_matrix (m : list (list (option V))) (i : nat) (acc : list (link V)) :
  forEach (fun link_data d i =>
             forEach (fun link_data e j =>
                        match e with
                        | Some e => link_data ++ [{| source := i; target := j; value := e |}]
                        | None => link_data
                        end) d 0%nat link_data) m i acc
  = acc ++ matrix_links i m.
Proof.
  revert i acc; induction m as [|row m IH]; intros i acc; simpl.
  - now rewrite app_nil_r.
  - rewrite forEach_row, IH, <- app_assoc. reflexivity.
Qed.

Lemma update_link_data_links (m : model V) :
  link_data (update_link_data m) = matrix_links 0 (link_matrix m).
Proof. unfold update_link_data. simpl. now rewrite forEach_matrix. Qed.

Lemma row_links_In (i j : nat) (row : list (option V)) (l : link V) :
  In l (row_links i j row) <->
  source l = i /\ exists k, target l = (j + k)%nat /\ nth_error row k = Some (Some (value l)).
Proof.
  revert j; induction row as [|[e|] row IH]; intros j; simpl.
  - split; [intros [] | intros (_ & [|k] & _ & H); discriminate].
  - rewrite IH. split.
    + intros [<-|(Hs & k & Ht & Hn)]; simpl.
      * split; [reflexivity|]. exists 0%nat. split; [lia | reflexivity].
      * split; [exact Hs|]. exists (S k). split; [lia | exact Hn].
    + intros (Hs & [|k] & Ht & Hn); simpl in Hn.
      * left. destruct l as [s t v]; simpl in *. inversion Hn; subst. f_equal. lia.
      * right. split; [exact Hs|]. exists k. split; [lia | exact Hn].
  - rewrite IH. split.
    + intros (Hs & k & Ht & Hn). split; [exact Hs|]. exists (S k). split; [lia | exact Hn].
    + intros (Hs & [|k] & Ht & Hn); simpl in Hn; [discriminate|].
      split; [exact Hs|]. exists k. split; [lia | exact Hn].
Qed.

Lemma matrix_links_In (i : nat) (m : list (list (option V))) (l : link V) :
  In l (matrix_links i m) <->
  exists k, source l = (i + k)%nat /\ entry m k (target l) = Some (value l).
Proof.
  revert i; induction m as [|row m IH]; intros i; simpl.
  - split; [intros [] | intros ([|k] & _ & H); discriminate].
  - rewrite in_app_iff, row_links_In, IH. unfold entry. split.
    + intros [(Hs & k & Ht & Hn)|(k & Hs & He)].
      * exists 0%nat. simpl. split; [lia|]. simpl in Ht. rewrite Ht, Hn. reflexivity.
      * exists (S k). split; [lia | exact He].
    + intros ([|k] & Hs & He); simpl in He.
      * left. split; [lia|]. exists (target l). split; [reflexivity|].
        destruct (nth_error row (target l)) as [[e|]|]; congruence.
      * right. exists k. split; [lia | exact He].
Qed.

Lemma row_links_sorted (i j : nat) (row : list (option V)) :
  StronglySorted row_major_lt (map position (row_links i j row)).
Proof.
  revert j; induction row as [|[e|] row IH]; intros j; simpl; try constructor; auto.
  apply Forall_forall. intros p Hp. apply in_map_iff in Hp.
  destruct Hp as (l & <- & Hl). apply row_links_In in Hl.
  destruct Hl as (Hs & k & Ht & _). right. unfold position; simpl. lia.
Qed.

Lemma matrix_links_sorted (i : nat) (m : list (list (option V))) :
  StronglySorted row_major_lt (map position (matrix_links i m)).
Proof.
  revert i; induction m as [|row m IH]; intros i; simpl; [constructor|].
  rewrite map_app. apply StronglySorted_app; [apply row_links_sorted | apply IH |].
  intros p q Hp Hq. apply in_map_iff in Hp, Hq.
  destruct Hp as (l & <- & Hl), Hq as (l' & <- & Hl').
  apply row_links_In in Hl. apply matrix_links_In in Hl'.
  destruct Hl as (Hs & _), Hl' as (k & Hs' & _).
  left. unfold position; simpl. lia.
Qed.

Lemma row_major_lt_irrefl (p : nat * nat) : ~ row_major_lt p p.
Proof. unfold row_major_lt. lia. Qed.

(** C8.  [update_link_data] keeps the matrix and replaces [link_data],
    whatever it held, by the records of the non-null entries: a record
    [{source: i, target: j, value: e}] is in the new [link_data] exactly
    when the entry at row [i], column [j] is the non-null [e]; the records
    come in row-major order of their positions, hence one record at most
    for a position. *)
Theorem update_link_data_coercion (m : model V) :
  link_matrix (update_link_data m) = link_matrix m /\
  (forall i j e,
     In {| source := i; target := j; value := e |} (link_data (update_link_data m))
     <-> entry (link_matrix m) i j = Some e) /\
  StronglySorted row_major_lt (map position (link_data (update_link_data m))) /\
  NoDup (map position (link_data (update_link_data m))) /\
  (forall old, link_data (update_link_data {| link_matrix := link_matrix m; link_data := old |})
               = link_data (update_link_data m)).
Proof.
  rewrite update_link_data_links.
  split; [reflexivity|]. split; [|split; [|split]].
  - intros i j e. rewrite matrix_links_In. simpl. split.
    + intros (k & -> & He). exact He.
    + intros He. exists i. split; [reflexivity | exact He].
  - apply matrix_links_sorted.
  - apply (StronglySorted_NoDup row_major_lt); [apply row_major_lt_irrefl | apply matrix_links_sorted].
  - intros old. now rewrite update_link_data_links.
Qed.

End LinkFacts.

(** ** Numbers *)

Section NumFacts.
Import Num.

Local Open Scope Q_scope.




Lemma inject_Z_nonzero (z : Z) : z <> 0%Z -> ~ inject_Z z == 0.
Proof. unfold Qeq; simpl. lia. Qed.

Lemma Qceiling_iff (x : Q) (z : Z) : Qceiling x = z <-> inject_Z z - 1 < x <= inject_Z z.
Proof.
  pose proof (Qle_ceiling x) as Hle. pose proof (Qceiling_lt x) as Hlt.
  unfold Z.sub in Hlt. rewrite inject_Z_plus in Hlt.
  change (inject_Z (- (1))) with (-1 # 1) in Hlt.
  split.
  - intros <-. split; [lra | assumption].
  - intros [H0 H1].
    assert (Hlo : inject_Z (Qceiling x) < inject_Z (z + 1)).
    { rewrite inject_Z_plus. change (inject_Z 1) with 1. lra. }
    assert (Hhi : inject_Z z < inject_Z (Qceiling x + 1)).
    { rewrite inject_Z_plus. change (inject_Z 1) with 1. lra. }
    rewrite <- Zlt_Qlt in Hlo, Hhi. lia.
Qed.

(** Truncation is the floor of a non-negative number and the ceiling of a
    non-positive one. *)
Lemma trunc_nonneg (x : Q) : 0 <= x -> trunc x = Qfloor x.
Proof.
  destruct x as [n d]. unfold Qle, trunc, Qfloor. simpl. intros H.
  apply Z.quot_div_nonneg; lia.
Qed.

Lemma trunc_nonpos (x : Q) : x <= 0 -> trunc x = Qceiling x.
Proof.
  destruct x as [n d]. unfold Qle, trunc, Qceiling, Qfloor. simpl. intros H.
  replace n with (- - n)%Z at 1 by lia.
  rewrite Z.quot_opp_l by lia. f_equal. apply Z.quot_div_nonneg; lia.
Qed.

Lemma trunc_comp (x y : Q) : x == y -> trunc x = trunc y.
Proof.
  intros H. destruct (Qlt_le_dec x 0) as [Hneg|Hpos].
  - rewrite (trunc_nonpos x), (trunc_nonpos y) by lra. now apply Qceiling_comp.
  - rewrite (trunc_nonneg x), (trunc_nonneg y) by lra. now apply Qfloor_comp.
Qed.

(** *** The exact logarithm *)

Lemma log10_up_spec (fuel : nat) (a b : Z) :
  (0 < b)%Z -> (b <= a)%Z -> (a < b * 10 ^ Z.of_nat fuel)%Z ->
  let k := log10_up fuel a b in
  (0 <= k)%Z /\ (b * 10 ^ k <= a)%Z /\ (a < b * 10 ^ (k + 1))%Z.
Proof.
  revert b; induction fuel as [|fuel IH]; intros b Hb Hba Hfuel; cbn [log10_up].
  - simpl in Hfuel. lia.
  - destruct (Z.leb_spec (b * 10) a) as [Hle|Hgt].
    + assert (Hf : (a < b * 10 * 10 ^ Z.of_nat fuel)%Z).
      { rewrite Nat2Z.inj_succ, Z.pow_succ_r in Hfuel by lia. lia. }
      destruct (IH (b * 10)%Z ltac:(lia) Hle Hf) as (Hk & Hlo & Hhi).
      set (k := log10_up fuel a (b * 10)) in *.
      split; [lia|].
      replace (1 + k + 1)%Z with (Z.succ (k + 1)) by lia.
      replace (1 + k)%Z with (Z.succ k) by lia.
      rewrite !Z.pow_succ_r by lia.
      rewrite Z.pow_add_r in Hhi by lia. rewrite Z.pow_add_r by lia. lia.
    + split; [lia|]. split; lia.
Qed.

Lemma log10_down_spec (fuel : nat) (a b : Z) :
  (0 < a)%Z -> (a < b)%Z -> (b <= a * 10 ^ Z.of_nat fuel)%Z ->
  let m := log10_down fuel a b in
  (1 <= m)%Z /\ (a * 10 ^ (m - 1) < b)%Z /\ (b <= a * 10 ^ m)%Z.
Proof.
  revert a; induction fuel as [|fuel IH]; intros a Ha Hab Hfuel; cbn [log10_down].
  - simpl in Hfuel. lia.
  - destruct (Z.leb_spec b (a * 10)) as [Hle|Hgt].
    + split; [lia|]. split; simpl; lia.
    + assert (Hf : (b <= a * 10 * 10 ^ Z.of_nat fuel)%Z).
      { rewrite Nat2Z.inj_succ, Z.pow_succ_r in Hfuel by lia. lia. }
      destruct (IH (a * 10)%Z ltac:(lia) Hgt Hf) as (Hm & Hlo & Hhi).
      set (m := log10_down fuel (a * 10) b) in *.
      split; [lia|].
      replace (1 + m - 1)%Z with (Z.succ (m - 1)) by lia.
      replace (1 + m)%Z with (Z.succ m) by lia.
      rewrite !Z.pow_succ_r by lia. lia.
Qed.

Lemma fuel_enough (a : Z) : (0 < a)%Z -> (a < 10 ^ Z.of_nat (S (Z.to_nat (Z.log2 a))))%Z.
Proof.
  intros Ha. pose proof (Z.log2_spec a Ha) as [_ Hlt].
  pose proof (Z.log2_nonneg a) as Hnn.
  rewrite Nat2Z.inj_succ, Z2Nat.id by lia.
  eapply Z.lt_le_trans; [exact Hlt|].
  apply Z.pow_le_mono_l. lia.
Qed.

Lemma floor_log10_spec (x : Q) :
  0 < x -> 10 ^ floor_log10 x <= x /\ x < 10 ^ (floor_log10 x + 1).
Proof.
  destruct x as [a b]. intros Hx.
  assert (Ha : (0 < a)%Z) by (unfold Qlt in Hx; simpl in Hx; lia).
  assert (Hb : 0 < inject_Z (Z.pos b)) by (unfold Qlt; simpl; lia).
  assert (Hpow : forall n, (0 <= n)%Z -> 10 ^ n == inject_Z (10 ^ n)).
  { intros n Hn. symmetry. apply (Zpower_Qpower 10 n Hn). }
  unfold floor_log10. cbn [Qnum Qden].
  rewrite (Qmake_Qdiv a b).
  destruct (Z.leb_spec (Z.pos b) a) as [Hle|Hgt].
  - pose proof (fuel_enough a Ha) as Hf.
    destruct (log10_up_spec (S (Z.to_nat (Z.log2 a))) a (Z.pos b) ltac:(lia) Hle ltac:(nia))
      as (Hk & Hlo & Hhi).
    set (k := log10_up _ a (Z.pos b)) in *. clearbody k.
    rewrite !Hpow by lia. split.
    + apply Qle_shift_div_l; [exact Hb|]. rewrite <- inject_Z_mult, <- Zle_Qle. lia.
    + apply Qlt_shift_div_r; [exact Hb|]. rewrite <- inject_Z_mult, <- Zlt_Qlt. lia.
  - pose proof (fuel_enough (Z.pos b) ltac:(lia)) as Hf.
    destruct (log10_down_spec (S (Z.to_nat (Z.log2 (Z.pos b)))) a (Z.pos b) Ha Hgt ltac:(nia))
      as (Hm & Hlo & Hhi).
    set (m := log10_down _ a (Z.pos b)) in *. clearbody m.
    replace (- m + 1)%Z with (- (m - 1))%Z by lia.
    rewrite !Qpower_opp, !Hpow by lia.
    assert (Hp : 0 < inject_Z (10 ^ m)).
    { change 0 with (inject_Z 0). rewrite <- Zlt_Qlt. apply Z.pow_pos_nonneg; lia. }
    assert (Hp' : 0 < inject_Z (10 ^ (m - 1))).
    { change 0 with (inject_Z 0). rewrite <- Zlt_Qlt. apply Z.pow_pos_nonneg; lia. }
    split.
    + apply Qle_shift_div_l; [exact Hb|].
      setoid_replace (/ inject_Z (10 ^ m) * inject_Z (Z.pos b))
        with (inject_Z (Z.pos b) / inject_Z (10 ^ m)) by (field; lra).
      apply Qle_shift_div_r; [exact Hp|]. rewrite <- inject_Z_mult, <- Zle_Qle. lia.
    + apply Qlt_shift_div_r; [exact Hb|].
      setoid_replace (/ inject_Z (10 ^ (m - 1)) * inject_Z (Z.pos b))
        with (inject_Z (Z.pos b) / inject_Z (10 ^ (m - 1))) by (field; lra).
      apply Qlt_shift_div_l; [exact Hp'|]. rewrite <- inject_Z_mult, <- Zlt_Qlt. lia.
Qed.

Lemma floor_log10_lt (x : Q) (n : Z) : 0 < x -> x < 10 ^ n -> (floor_log10 x < n)%Z.
Proof.
  intros Hx Hn. destruct (floor_log10_spec x Hx) as [Hlo _].
  apply (Qpower_lt_compat_l_inv 10); [|reflexivity].
  eapply Qle_lt_trans; eassumption.
Qed.

Lemma floor_log10_ge (x : Q) (n : Z) : 0 < x -> 10 ^ n <= x -> (n <= floor_log10 x)%Z.
Proof.
  intros Hx Hn. destruct (floor_log10_spec x Hx) as [_ Hhi].
  assert (H : (n < floor_log10 x + 1)%Z); [|lia].
  apply (Qpower_lt_compat_l_inv 10); [|reflexivity].
  eapply Qle_lt_trans; eassumption.
Qed.

(** Doubling a number adds one to its logarithm at most. *)
Lemma floor_log10_double (d m : Q) :
  0 < d -> d <= 2 * m -> (floor_log10 d <= floor_log10 m + 1)%Z.
Proof.
  intros Hd Hdm. assert (Hm : 0 < m) by lra.
  destruct (floor_log10_spec d Hd) as [Hlo _].
  destruct (floor_log10_spec m Hm) as [_ Hhi].
  assert (H : (floor_log10 d < floor_log10 m + 1 + 1)%Z); [|lia].
  apply (Qpower_lt_compat_l_inv 10); [|reflexivity].
  rewrite (Qpower_plus 10 (floor_log10 m + 1) 1) by discriminate.
  change (10 ^ 1) with 10.
  assert (0 < 10 ^ (floor_log10 m + 1)) by (apply Qpower_0_lt; reflexivity).
  lra.
Qed.

(** The logarithm that is floored exactly has what the statements on
    digit counts ask of [log10]. *)
Lemma integer_log10_floors : Spec.log10_floors integer_log10.
Proof.
  unfold Spec.log10_floors, integer_log10. split.
  - intros x y Hx Hxy. rewrite <- Zle_Qle.
    apply floor_log10_ge; [lra|].
    destruct (floor_log10_spec x Hx) as [Hlo _]. lra.
  - intros k x Hlo Hhi. rewrite Qfloor_Z.
    assert (Hp : 0 < 10 ^ k) by (apply Qpower_0_lt; reflexivity).
    assert (Hx : 0 < x) by lra.
    pose proof (floor_log10_ge x k Hx Hlo).
    assert (Hlt : x < 10 ^ (k + 1)).
    { assert (0 < 10 ^ (k + 1)) by (apply Qpower_0_lt; reflexivity). lra. }
    pose proof (floor_log10_lt x (k + 1) Hx Hlt). lia.
Qed.

End NumFacts.

(** ** Date formats *)

Section DateFacts.
Import Num TickFormatter.

Local Open Scope Q_scope.






End DateFacts.

(** ** Tick subsampling *)

Section TicksFacts.
Import Num TickFormatter Spec.

Local Open Scope Q_scope.

Lemma range_loop_length (fl : Q -> Q) (n : nat) (start step : Q) :
  length (range_loop fl n start step) = n.
Proof. revert start; induction n; intros start; simpl; auto. Qed.

Lemma inject_Z_succ (k : nat) : inject_Z (Z.of_nat (S k)) == inject_Z (Z.of_nat k) + 1.
Proof.
  rewrite Nat2Z.inj_succ. unfold Z.succ. rewrite inject_Z_plus. reflexivity.
Qed.

(** The values of the loop of [_.range] in exact arithmetic, seen through
    a function that does not tell equal rationals apart. *)
Lemma range_loop_map {B : Type} (f : Q -> B) (n : nat) (start step : Q) :
  (forall x y, x == y -> f x = f y) ->
  map f (range_loop exact_arithmetic n start step)
  = map (fun k => f (start + inject_Z (Z.of_nat k) * step)) (seq 0 n).
Proof.
  intros Hf. revert start; induction n as [|n IH]; intros start; [reflexivity|].
  cbn [range_loop map seq].
  rewrite IH, <- seq_shift, map_map. f_equal.
  - apply Hf. simpl. ring.
  - apply map_ext. intros k. apply Hf. unfold exact_arithmetic.
    rewrite inject_Z_succ. ring.
Qed.

(** Whatever the rounding, the loop of [_.range] gives a ramp. *)
Lemma range_loop_is_ramp (fl : Q -> Q) (n : nat) (start step : Q) :
  ramp fl step start (range_loop fl n start step).
Proof.
  revert start; induction n as [|n IH]; intros start; cbn [range_loop]; constructor.
  apply IH.
Qed.

(** When no addition rounds, the ramp is the arithmetic one. *)
Lemma range_loop_exact (fl : Q -> Q) (d0 step step' : Q) (n0 : Z) :
  respects_Qeq fl -> step' == step ->
  (forall k : nat, (Z.of_nat k < n0)%Z ->
     fl (d0 + inject_Z (Z.of_nat k) * step) == d0 + inject_Z (Z.of_nat k) * step) ->
  forall (n j : nat) (start : Q),
    (Z.of_nat (j + n) <= n0)%Z ->
    start == d0 + inject_Z (Z.of_nat j) * step ->
    Forall2 Qeq (range_loop fl n start step')
            (map (fun k => d0 + inject_Z (Z.of_nat k) * step) (seq j n)).
Proof.
  intros Hresp Hstep Hexact n. induction n as [|n IH]; intros j start Hj Hstart;
    cbn [range_loop seq map]; constructor; [exact Hstart|].
  destruct n as [|n]; [constructor|].
  apply IH; [lia|].
  apply Qeq_trans with (fl (d0 + inject_Z (Z.of_nat (S j)) * step)).
  - apply Hresp. rewrite Hstart, Hstep, inject_Z_succ. ring.
  - apply Hexact. lia.
Qed.

Lemma Forall2_Qeq_map {B : Type} (f : Q -> B) (r r' : list Q) :
  (forall x y, x == y -> f x = f y) -> Forall2 Qeq r r' -> map f r = map f r'.
Proof.
  intros Hf H. induction H as [|x y r r' Hxy _ IH]; simpl; [reflexivity|].
  now rewrite (Hf x y Hxy), IH.
Qed.

(** The number of values of [_.range(0, len, step)] on integers. *)
Lemma ceiling_div_spec (len step : Z) :
  (0 < step)%Z ->
  let c := Qceiling (inject_Z len / inject_Z step) in
  ((c - 1) * step < len <= c * step)%Z.
Proof.
  intros Hstep c. subst c. unfold Qceiling.
  assert (H : - (inject_Z len / inject_Z step) == inject_Z (- len) / inject_Z step).
  { rewrite inject_Z_opp. field. apply inject_Z_nonzero. lia. }
  rewrite (Qfloor_comp _ _ H), <- Zdiv_Qdiv.
  assert (Hnz : step <> 0%Z) by lia.
  pose proof (Z.div_mod (- len) step Hnz) as Hdm.
  pose proof (Z.mod_pos_bound (- len) step Hstep) as Hmod.
  nia.
Qed.

(** The ramp between the two ends of a domain when no operation rounds:
    empty when the ends are equal, [num_ticks] values otherwise. *)
Lemma range_ramp (fl : Q -> Q) (d0 dl : Q) (num_ticks : Z) :
  (2 <= num_ticks)%Z ->
  respects_Qeq fl -> exact_ramp fl d0 dl num_ticks ->
  let step := (dl - d0) / inject_Z (num_ticks - 1) in
  let step0 := fl (fl (dl - d0) / inject_Z (num_ticks - 1)) in
  let stop := fl (dl + fl (step0 * (1 # 2))) in
  step0 == step /\
  (d0 == dl -> range fl d0 stop step0 = []) /\
  (~ d0 == dl ->
     range fl d0 stop step0 = range_loop fl (Z.to_nat num_ticks) d0 step0 /\
     d0 + inject_Z (num_ticks - 1) * step == dl).
Proof.
  intros HN Hresp (H1 & H2 & H3 & H4 & H5 & H6 & _) step step0 stop.
  fold step in H2, H3, H4, H5, H6.
  assert (Hn1 : ~ inject_Z (num_ticks - 1) == 0) by (apply inject_Z_nonzero; lia).
  assert (Hstep : step * inject_Z (num_ticks - 1) == dl - d0) by (unfold step; field; exact Hn1).
  assert (E0 : step0 == step).
  { unfold step0. apply Qeq_trans with (fl step); [|exact H2].
    apply Hresp. unfold step. now rewrite H1. }
  assert (Ehalf : fl (step0 * (1 # 2)) == step * (1 # 2)).
  { apply Qeq_trans with (fl (step * (1 # 2))); [|exact H3].
    apply Hresp. now rewrite E0. }
  assert (Estop : stop == dl + step * (1 # 2)).
  { unfold stop. apply Qeq_trans with (fl (dl + step * (1 # 2))); [|exact H4].
    apply Hresp. now rewrite Ehalf. }
  assert (Ediff : fl (stop - d0) == dl + step * (1 # 2) - d0).
  { apply Qeq_trans with (fl (dl + step * (1 # 2) - d0)); [|exact H5].
    apply Hresp. now rewrite Estop. }
  clearbody step step0 stop.
  split; [exact E0|]. unfold range. split.
  - intros Heq.
    assert (Hs0 : step == 0).
    { rewrite Heq in Hstep. setoid_replace (dl - dl) with 0 in Hstep by ring.
      apply Qmult_integral in Hstep. tauto. }
    assert (Hs0' : step0 == 0) by (now rewrite E0).
    rewrite (Qeq_eq_bool _ _ Hs0').
    assert (Hfl0 : fl 0 == 0).
    { apply Qeq_trans with (fl step); [apply Hresp; now rewrite Hs0 | now rewrite H2]. }
    assert (Hx : fl (fl (stop - d0) / 1) == inject_Z 0).
    { apply Qeq_trans with (fl 0); [|exact Hfl0].
      apply Hresp. rewrite Ediff, Hs0, Heq. field. }
    rewrite (Qceiling_comp _ _ Hx), Qceiling_Z. reflexivity.
  - intros Hne.
    assert (Hs0 : ~ step == 0).
    { intros H0. apply Hne. rewrite H0 in Hstep. lra. }
    assert (Hs0' : ~ step0 == 0) by (now rewrite E0).
    destruct (Qeq_bool step0 0) eqn:Eb; [apply Qeq_bool_eq in Eb; contradiction|].
    assert (Hx : (dl + step * (1 # 2) - d0) / step == inject_Z (num_ticks - 1) + (1 # 2)).
    { setoid_replace (dl + step * (1 # 2) - d0)
        with (step * (inject_Z (num_ticks - 1) + (1 # 2)))
        by (rewrite Qmult_plus_distr_r; lra).
      field. exact Hs0. }
    assert (Hy : fl (fl (stop - d0) / step0) == inject_Z (num_ticks - 1) + (1 # 2)).
    { apply Qeq_trans with (fl ((dl + step * (1 # 2) - d0) / step)).
      - apply Hresp. now rewrite Ediff, E0.
      - now rewrite H6. }
    assert (Hi : inject_Z (num_ticks - 1) == inject_Z num_ticks - 1).
    { unfold Z.sub. rewrite inject_Z_plus. reflexivity. }
    assert (Hc : Qceiling (fl (fl (stop - d0) / step0)) = num_ticks).
    { apply Qceiling_iff. rewrite Hy. lra. }
    rewrite Hc. replace (Z.max num_ticks 0) with num_ticks by lia.
    split; [reflexivity|]. rewrite Qmult_comm, Hstep. ring.
Qed.

Lemma index_nat (arr : list value) (k : nat) :
  index arr (Z.of_nat k) = nth k arr VUndefined.
Proof.
  unfold index. replace (Z.of_nat k <? 0)%Z with false by (symmetry; apply Z.ltb_ge; lia).
  now rewrite Nat2Z.id.
Qed.

(** The subsampling of an array longer than [num_ticks]. *)
Lemma range_indices (arr : list value) (num_ticks : Z) :
  (2 <= num_ticks)%Z ->
  let len := Z.of_nat (length arr) in
  (num_ticks < len)%Z ->
  let step := (len / (num_ticks - 1))%Z in
  (1 <= step)%Z /\
  exists n,
    map (fun i => index arr (Qfloor i))
        (range exact_arithmetic 0 (inject_Z len)
               (inject_Z (Qfloor (inject_Z len / inject_Z (num_ticks - 1)))))
    = map (fun k => nth (k * Z.to_nat step) arr VUndefined) (seq 0 n) /\
    forall k, (k < n)%nat <-> (k * Z.to_nat step < length arr)%nat.
Proof.
  intros HN len Hlen step.
  assert (Hstep : (1 <= step)%Z).
  { unfold step. apply Z.div_le_lower_bound; lia. }
  split; [exact Hstep|].
  rewrite <- Zdiv_Qdiv. fold step. unfold range. unfold exact_arithmetic at 2 3.
  destruct (Qeq_bool (inject_Z step) 0) eqn:Eb.
  { apply Qeq_bool_eq in Eb. exfalso. revert Eb. apply inject_Z_nonzero. lia. }
  assert (Hx : (inject_Z len - 0) / inject_Z step == inject_Z len / inject_Z step).
  { field. apply inject_Z_nonzero. lia. }
  rewrite (Qceiling_comp _ _ Hx).
  pose proof (ceiling_div_spec len step ltac:(lia)) as Hc. cbv zeta in Hc.
  set (c := Qceiling (inject_Z len / inject_Z step)) in *.
  assert (Hcpos : (0 <= c)%Z) by nia.
  replace (Z.max c 0) with c by lia.
  exists (Z.to_nat c). split.
  - rewrite range_loop_map by (intros x y Hxy; now rewrite (Qfloor_comp _ _ Hxy)).
    apply map_ext. intros k.
    assert (Hk : 0 + inject_Z (Z.of_nat k) * inject_Z step
                 == inject_Z (Z.of_nat (k * Z.to_nat step))).
    { rewrite Nat2Z.inj_mul, Z2Nat.id, inject_Z_mult by lia. ring. }
    rewrite (Qfloor_comp _ _ Hk), Qfloor_Z. apply index_nat.
  - intros k. unfold len in Hc. split; intros Hk.
    + assert (Z.of_nat k * step < Z.of_nat (length arr))%Z by nia.
      apply Nat2Z.inj_lt. rewrite Nat2Z.inj_mul, Z2Nat.id by lia. assumption.
    + apply Nat2Z.inj_lt in Hk. rewrite Nat2Z.inj_mul, Z2Nat.id in Hk by lia.
      assert (Z.of_nat k < c)%Z by nia. lia.
Qed.

Variable fl : Q -> Q.

(** C4.  [get_ticks] with [num_ticks] ticks asked for, [fl] being the
    rounding of doubles:
    - fewer than 2: the empty list;
    - otherwise, with a data array, or on an ordinal scale its domain, no
      longer than [num_ticks]: that array;
    - with a longer one: its elements at the indices [0], [step],
      [2 * step], ... below its length, for
      [step = floor(length / (num_ticks - 1))];
    - on a scale that is neither ordinal nor a date scale, without a data
      array, and a domain from the number [d0] to the number [dl]: a ramp
      from [d0] by the step [(dl - d0) / (num_ticks - 1)] as the code
      computes it (1 for a step of 0), each value being the one before
      plus the step, rounded, with as many values as [_.range] counts
      steps below the stop [dl + step / 2]; when no operation rounds, the
      values are [d0 + k * step], [num_ticks] of them, ending at [dl] (no
      value at all when [d0 = dl]);
    - on a date scale with a domain of two dates or more, from [t0] to
      [tl]: the dates of such a ramp of times, each time truncated to an
      integer, and so the dates of the times [t0 + k * step] when no
      operation rounds. *)
Theorem get_ticks_subsampling (sc : axis_scale) (num_ticks : Z)
    (data_array : option (list value)) :
  ((num_ticks < 2)%Z -> get_ticks fl sc num_ticks data_array = Some []) /\
  (forall arr,
     (2 <= num_ticks)%Z ->
     (if String.eqb (model_type sc) "ordinal" then Some (domain sc) else data_array)
     = Some arr ->
     ((Z.of_nat (length arr) <= num_ticks)%Z ->
        get_ticks fl sc num_ticks data_array = Some arr) /\
     ((num_ticks < Z.of_nat (length arr))%Z ->
        let step := (Z.of_nat (length arr) / (num_ticks - 1))%Z in
        (1 <= step)%Z /\
        exists n,
          get_ticks fl sc num_ticks data_array
          = Some (map (fun k => nth (k * Z.to_nat step) arr VUndefined) (seq 0 n)) /\
          forall k, (k < n)%nat <-> (k * Z.to_nat step < length arr)%nat)) /\
  (forall d0 dl,
     (2 <= num_ticks)%Z ->
     String.eqb (model_type sc) "ordinal" = false ->
     is_date_type sc = false ->
     index (domain sc) 0 = VNum d0 ->
     index (domain sc) (Z.of_nat (length (domain sc)) - 1) = VNum dl ->
     let step0 := fl (fl (dl - d0) / inject_Z (num_ticks - 1)) in
     let step := if Qeq_bool step0 0 then 1 else step0 in
     let stop := fl (dl + fl (step0 * (1 # 2))) in
     exists r,
       get_ticks fl sc num_ticks None = Some (map VNum r) /\
       ramp fl step d0 r /\
       length r = Z.to_nat (Z.max (Qceiling (fl (fl (stop - d0) / step))) 0) /\
       (respects_Qeq fl -> exact_ramp fl d0 dl num_ticks ->
        let exact_step := (dl - d0) / inject_Z (num_ticks - 1) in
        Forall2 Qeq r
          (map (fun k => d0 + inject_Z (Z.of_nat k) * exact_step) (seq 0 (length r))) /\
        (d0 == dl -> r = []) /\
        (~ d0 == dl ->
           length r = Z.to_nat num_ticks /\
           d0 + inject_Z (num_ticks - 1) * exact_step == dl))) /\
  (forall t0 tl,
     (2 <= num_ticks)%Z ->
     is_date_type sc = true ->
     (2 <= length (domain sc))%nat ->
     index (domain sc) 0 = VDate t0 ->
     index (domain sc) (Z.of_nat (length (domain sc)) - 1) = VDate tl ->
     let step0 := fl (fl (inject_Z tl - inject_Z t0) / inject_Z (num_ticks - 1)) in
     let step := if Qeq_bool step0 0 then 1 else step0 in
     let stop := fl (inject_Z tl + fl (step0 * (1 # 2))) in
     exists r,
       get_ticks fl sc num_ticks None = Some (map (fun t => VDate (trunc t)) r) /\
       ramp fl step (inject_Z t0) r /\
       length r = Z.to_nat (Z.max (Qceiling (fl (fl (stop - inject_Z t0) / step))) 0) /\
       (respects_Qeq fl -> exact_ramp fl (inject_Z t0) (inject_Z tl) num_ticks ->
        let exact_step := (inject_Z tl - inject_Z t0) / inject_Z (num_ticks - 1) in
        get_ticks fl sc num_ticks None
        = Some (map (fun k => VDate (trunc (inject_Z t0 + inject_Z (Z.of_nat k) * exact_step)))
                    (seq 0 (if (t0 =? tl)%Z then 0 else Z.to_nat num_ticks))))).
Proof.
  split; [|split; [|split]].
  - intros HN. unfold get_ticks. apply Z.ltb_lt in HN. now rewrite HN.
  - intros arr HN Harr. unfold get_ticks. rewrite Harr.
    replace (num_ticks <? 2)%Z with false by (symmetry; apply Z.ltb_ge; lia).
    split.
    + intros Hlen. apply Z.leb_le in Hlen. now rewrite Hlen.
    + intros Hlen.
      replace (Z.of_nat (length arr) <=? num_ticks)%Z with false
        by (symmetry; apply Z.leb_gt; lia).
      destruct (range_indices arr num_ticks HN Hlen) as (Hstep & n & Hmap & Hn).
      split; [exact Hstep|]. exists n. split; [|exact Hn].
      f_equal. exact Hmap.
  - intros d0 dl HN Hord Hdate H0 Hl step0 step stop. unfold get_ticks.
    rewrite Hord, Hdate, H0, Hl.
    replace (num_ticks <? 2)%Z with false by (symmetry; apply Z.ltb_ge; lia).
    cbn [to_number Num.sub lift1 lift2 Num.div].
    destruct (Qeq_bool (inject_Z (num_ticks - 1)) 0) eqn:Eb.
    { apply Qeq_bool_eq in Eb. exfalso. revert Eb. apply inject_Z_nonzero. lia. }
    fold step0. fold stop.
    exists (range fl d0 stop step0). split; [reflexivity|].
    split; [unfold range; fold step; apply range_loop_is_ramp|].
    split; [unfold range; fold step; apply range_loop_length|].
    intros Hresp Hexact. set (exact_step := (dl - d0) / inject_Z (num_ticks - 1)).
    destruct (range_ramp fl d0 dl num_ticks HN Hresp Hexact) as (E0 & Heq & Hne).
    fold exact_step step0 stop in E0, Heq, Hne.
    split; [|split].
    + destruct (Qeq_dec d0 dl) as [E|E].
      * rewrite (Heq E). constructor.
      * destruct (Hne E) as [-> _]. rewrite range_loop_length.
        apply (range_loop_exact fl d0 exact_step step0 num_ticks Hresp E0);
          [apply Hexact | lia | simpl; ring].
    + exact Heq.
    + intros E. destruct (Hne E) as [-> Hlast]. rewrite range_loop_length. now split.
  - intros t0 tl HN Hdate Hlen H0 Hl step0 step stop.
    assert (Hget : get_ticks fl sc num_ticks None
                   = Some (map new_Date (range fl (inject_Z t0) stop step0))).
    { unfold get_ticks.
      assert (Hord : String.eqb (model_type sc) "ordinal" = false).
      { unfold is_date_type in Hdate.
        destruct (String.eqb_spec (model_type sc) "ordinal") as [E|E];
          [rewrite E in Hdate; discriminate | reflexivity]. }
      rewrite Hord, Hdate, H0, Hl.
      replace (num_ticks <? 2)%Z with false by (symmetry; apply Z.ltb_ge; lia).
      replace (Z.of_nat (length (domain sc)) - 1 =? 0)%Z with false
        by (symmetry; apply Z.eqb_neq; lia).
      cbn [to_number Num.sub lift1 lift2 Num.div].
      destruct (Qeq_bool (inject_Z (num_ticks - 1)) 0) eqn:Eb.
      { apply Qeq_bool_eq in Eb. exfalso. revert Eb. apply inject_Z_nonzero. lia. }
      reflexivity. }
    exists (range fl (inject_Z t0) stop step0). split; [exact Hget|].
    split; [unfold range; fold step; apply range_loop_is_ramp|].
    split; [unfold range; fold step; apply range_loop_length|].
    intros Hresp Hexact.
    set (exact_step := (inject_Z tl - inject_Z t0) / inject_Z (num_ticks - 1)).
    rewrite Hget. apply f_equal.
    destruct (range_ramp fl (inject_Z t0) (inject_Z tl) num_ticks HN Hresp Hexact)
      as (E0 & Heq & Hne).
    fold exact_step step0 stop in E0, Heq, Hne.
    destruct (Z.eqb_spec t0 tl) as [E|E].
    + rewrite Heq by (now rewrite E). reflexivity.
    + assert (E' : ~ inject_Z t0 == inject_Z tl).
      { intros H. apply E. unfold Qeq in H. simpl in H. lia. }
      destruct (Hne E') as [-> _]. unfold new_Date.
      rewrite <- (map_map (fun k => inject_Z t0 + inject_Z (Z.of_nat k) * exact_step)
                          (fun t => VDate (trunc t))).
      apply Forall2_Qeq_map; [intros x y Hxy; now rewrite (trunc_comp _ _ Hxy)|].
      apply (range_loop_exact fl (inject_Z t0) exact_step step0 num_ticks Hresp E0);
        [apply Hexact | lia | simpl; ring].
Qed.

End TicksFacts.

(** Five ticks on a linear scale from 0 to 10, and seven dates from 0 to
    6000 ms, in arithmetic that does not round. *)
Lemma get_ticks_subsampling_witness :
  (exists r,
     TickFormatter.get_ticks TickFormatter.exact_arithmetic
       {| TickFormatter.model_type := "linear";
          TickFormatter.domain := [TickFormatter.VNum 0; TickFormatter.VNum 10];
          TickFormatter.ticks := [] |} 5 None
     = Some (map TickFormatter.VNum r) /\
     length r = 5%nat) /\
  TickFormatter.get_ticks TickFormatter.exact_arithmetic
    {| TickFormatter.model_type := "date";
       TickFormatter.domain := [TickFormatter.VDate 0; TickFormatter.VDate 6000];
       TickFormatter.ticks := [] |} 7 None
  = Some (map TickFormatter.VDate [0; 1000; 2000; 3000; 4000; 5000; 6000]%Z).
Proof.
  split.
  - destruct (get_ticks_subsampling TickFormatter.exact_arithmetic
                {| TickFormatter.model_type := "linear";
                   TickFormatter.domain := [TickFormatter.VNum 0; TickFormatter.VNum 10];
                   TickFormatter.ticks := [] |} 5 None)
      as (_ & _ & H & _).
    destruct (H 0%Q 10%Q) as (r & Hr & _ & _ & Hex); try reflexivity.
    + discriminate.
    + exists r. split; [exact Hr|].
      destruct Hex as (_ & _ & Hlen).
      * intros x y Hxy. exact Hxy.
      * unfold Spec.exact_ramp, TickFormatter.exact_arithmetic.
        repeat split; try (intros; reflexivity).
      * apply Hlen. discriminate.
  - destruct (get_ticks_subsampling TickFormatter.exact_arithmetic
                {| TickFormatter.model_type := "date";
                   TickFormatter.domain := [TickFormatter.VDate 0; TickFormatter.VDate 6000];
                   TickFormatter.ticks := [] |} 7 None)
      as (_ & _ & _ & H).
    destruct (H 0%Z 6000%Z) as (r & _ & _ & _ & Hex);
      [discriminate | reflexivity | simpl; lia | reflexivity | reflexivity |].
    rewrite Hex.
    + reflexivity.
    + intros x y Hxy. exact Hxy.
    + unfold Spec.exact_ramp, TickFormatter.exact_arithmetic.
      repeat split; try (intros; reflexivity).
Defined.

(** ** Precision of linear ticks *)

Section PrecisionFacts.
Import Num TickFormatter Spec.

Local Open Scope Q_scope.

Variable log10 : Q -> Q.

Lemma index_last (tks : list value) :
  tks <> [] -> index tks (Z.of_nat (length tks) - 1) = last tks VUndefined.
Proof.
  intros Hne. destruct tks as [|v tks]; [contradiction|].
  replace (Z.of_nat (length (v :: tks)) - 1)%Z with (Z.of_nat (length tks))
    by (simpl length; lia).
  rewrite index_nat. clear Hne. revert v.
  induction tks as [|w tks IH]; intros v; [reflexivity|].
  change (nth (length tks) (w :: tks) VUndefined = last (w :: tks) VUndefined).
  apply IH.
Qed.

Lemma Qabs_bounds (x : Q) : x <= Qabs x /\ - x <= Qabs x /\ 0 <= Qabs x.
Proof.
  repeat split; [apply Qle_Qabs | rewrite <- Qabs_opp; apply Qle_Qabs | apply Qabs_nonneg].
Qed.

(** The digit count of a number other than zero. *)
Lemma get_digits_nonzero (x : Q) :
  ~ x == 0 -> _get_digits log10 (Some x) = Some (Qfloor (log10 (Qabs x)) + 1)%Z.
Proof.
  intros Hx. unfold _get_digits, Math_log10.
  destruct (Qeq_bool x 0) eqn:E; [apply Qeq_bool_eq in E; contradiction|].
  destruct (Qle_bool (Qabs x) 0) eqn:E'; [|reflexivity].
  apply Qle_bool_iff in E'. exfalso. apply Hx.
  destruct (Qabs_bounds x) as (H1 & H2 & H3). lra.
Qed.

Lemma get_digits_pos (x : Q) :
  0 < x -> _get_digits log10 (Some x) = Some (Qfloor (log10 (Qabs x)) + 1)%Z.
Proof. intros Hx. apply get_digits_nonzero. lra. Qed.

(** The two digit counts decide the precision of a numeric tick list;
    [m] is the larger of the magnitudes of its two ends. *)
Lemma precision_of_digits (sc : axis_scale) (t0 t1 tl : Q) (rest : list value) :
  last (VNum t0 :: VNum t1 :: rest) VUndefined = VNum tl ->
  exists m,
    Qabs t0 <= m /\ Qabs tl <= m /\ (m = Qabs t0 \/ m = Qabs tl) /\
    forall md dd,
      _get_digits log10 (Some m) = Some md ->
      _get_digits log10 (Some (Qabs (t1 - t0))) = Some dd ->
      _linear_scale_precision log10 sc (Some (VNum t0 :: VNum t1 :: rest))
      = if (md >=? 0)%Z && (dd >? 0)%Z then
          if (md <=? 6)%Z then PNum 0 else PNum (Z.min (Z.abs (md - dd)) 6 + 1)
        else if (dd <=? 0)%Z then PNum (Z.min (Z.abs dd + md) 6 + 1)
        else PUndefined.
Proof.
  intros Hlast.
  exists (if Qle_bool (Qabs t0) (Qabs tl) then Qabs tl else Qabs t0).
  destruct (Qle_bool (Qabs t0) (Qabs tl)) eqn:E.
  - apply Qle_bool_iff in E. repeat split; [exact E | apply Qle_refl | now right |].
    intros md dd Hmd Hdd. unfold _linear_scale_precision.
    rewrite index_last by discriminate. rewrite Hlast.
    change (index (VNum t0 :: VNum t1 :: rest) 1) with (VNum t1).
    change (index (VNum t0 :: VNum t1 :: rest) 0) with (VNum t0).
    cbn [to_number Num.sub Num.abs lift1 lift2 Math_max].
    apply Qle_bool_iff in E. rewrite E, Hmd, Hdd. cbn.
    destruct ((md >=? 0)%Z && (dd >? 0)%Z); [destruct (md <=? 6)%Z|destruct (dd <=? 0)%Z];
      reflexivity.
  - assert (E' : Qabs tl <= Qabs t0).
    { destruct (Qlt_le_dec (Qabs tl) (Qabs t0)) as [H|H]; [lra|].
      apply Qle_bool_iff in H. congruence. }
    repeat split; [apply Qle_refl | exact E' | now left |].
    intros md dd Hmd Hdd. unfold _linear_scale_precision.
    rewrite index_last by discriminate. rewrite Hlast.
    change (index (VNum t0 :: VNum t1 :: rest) 1) with (VNum t1).
    change (index (VNum t0 :: VNum t1 :: rest) 0) with (VNum t0).
    cbn [to_number Num.sub Num.abs lift1 lift2 Math_max].
    rewrite E, Hmd, Hdd. cbn.
    destruct ((md >=? 0)%Z && (dd >? 0)%Z); [destruct (md <=? 6)%Z|destruct (dd <=? 0)%Z];
      reflexivity.
Qed.

Lemma sorted_first_le_last (a : Q) (l : list Q) :
  StronglySorted Qle (a :: l) -> a <= last (a :: l) 0.
Proof.
  intros Hs. inversion Hs as [|? ? _ Hall]; subst.
  destruct l as [|b l]; [apply Qle_refl|].
  rewrite Forall_forall in Hall. apply Hall.
  change (last (a :: b :: l) 0) with (last (b :: l) 0).
  clear. revert b; induction l as [|c l IH]; intros b; [now left|].
  right. apply IH.
Qed.

Lemma last_map_VNum (a : Q) (l : list Q) :
  last (map VNum (a :: l)) VUndefined = VNum (last (a :: l) 0).
Proof.
  revert a; induction l as [|b l IH]; intros a; [reflexivity|].
  change (last (map VNum (b :: l)) VUndefined = VNum (last (b :: l) 0)). apply IH.
Qed.

Hypothesis log10_ok : log10_floors log10.

Lemma power_succ (k : Z) : 10 ^ (k + 1) == 10 * 10 ^ k.
Proof.
  rewrite (Qpower_plus 10 k 1) by discriminate. change (10 ^ 1) with 10. ring.
Qed.

(** The floor of the logarithm of [x] is at least the order of magnitude
    of [x], and at most that of [x / 0.99]. *)
Lemma log10_floor_ge (x : Q) (k : Z) : 10 ^ k <= x -> (k <= Qfloor (log10 x))%Z.
Proof.
  intros Hx. destruct log10_ok as [Hmono Hfloor].
  assert (Hp : 0 < 10 ^ k) by (apply Qpower_0_lt; reflexivity).
  assert (Hk : Qfloor (log10 (10 ^ k)) = k).
  { apply Hfloor; [apply Qle_refl|]. rewrite power_succ. lra. }
  rewrite <- Hk at 1. apply Qfloor_resp_le. apply Hmono; [exact Hp | exact Hx].
Qed.

Lemma log10_floor_le (x : Q) (k : Z) :
  0 < x -> x <= (99 # 100) * 10 ^ (k + 1) -> (Qfloor (log10 x) <= k)%Z.
Proof.
  intros Hpos Hx. destruct log10_ok as [Hmono Hfloor].
  assert (Hp : 0 < 10 ^ k) by (apply Qpower_0_lt; reflexivity).
  assert (Hk : Qfloor (log10 ((99 # 100) * 10 ^ (k + 1))) = k).
  { apply Hfloor; [|apply Qle_refl]. rewrite power_succ. lra. }
  rewrite <- Hk. apply Qfloor_resp_le. apply Hmono; [exact Hpos | exact Hx].
Qed.

Lemma log10_floor_spec (x : Q) :
  0 < x ->
  (99 # 100) * 10 ^ Qfloor (log10 x) < x /\ x < 10 ^ (Qfloor (log10 x) + 1).
Proof.
  intros Hx. split.
  - destruct (Qlt_le_dec ((99 # 100) * 10 ^ Qfloor (log10 x)) x) as [H|H]; [exact H|].
    exfalso.
    replace (Qfloor (log10 x)) with (Qfloor (log10 x) - 1 + 1)%Z in H at 1 by lia.
    apply (log10_floor_le x _ Hx) in H. lia.
  - destruct (Qlt_le_dec x (10 ^ (Qfloor (log10 x) + 1))) as [H|H]; [exact H|].
    exfalso. apply log10_floor_ge in H. lia.
Qed.

(** Doubling a number adds one to the floor of its logarithm at most. *)
Lemma log10_floor_double (d m : Q) :
  0 < d -> d <= 2 * m -> (Qfloor (log10 d) <= Qfloor (log10 m) + 1)%Z.
Proof.
  intros Hd Hdm. assert (Hm : 0 < m) by lra.
  destruct (log10_floor_spec m Hm) as [_ Hhi].
  apply log10_floor_le; [exact Hd|].
  rewrite power_succ.
  assert (0 < 10 ^ (Qfloor (log10 m) + 1)) by (apply Qpower_0_lt; reflexivity).
  lra.
Qed.

(** The uncovered case: a first gap of 1 or more between ends that are
    both at most 0.099 in magnitude and not both zero. *)
Lemma precision_undefined (sc : axis_scale) (t0 t1 tl : Q) (rest : list value) :
  last (VNum t0 :: VNum t1 :: rest) VUndefined = VNum tl ->
  1 <= Qabs (t1 - t0) ->
  Qabs t0 <= 99 # 1000 -> Qabs tl <= 99 # 1000 -> ~ (t0 == 0 /\ tl == 0) ->
  _linear_scale_precision log10 sc (Some (VNum t0 :: VNum t1 :: rest)) = PUndefined.
Proof.
  intros Hlast Hgap H0 Hl Hnz.
  destruct (precision_of_digits sc t0 t1 tl rest Hlast) as (m & Hm0 & Hml & Hm & Hprec).
  assert (Hmpos : 0 < m).
  { destruct (Qlt_le_dec 0 m) as [H|H]; [exact H|]. exfalso. apply Hnz.
    pose proof (Qabs_bounds t0). pose proof (Qabs_bounds tl). split; lra. }
  assert (Hmlt : m <= 99 # 1000) by (destruct Hm as [-> | ->]; assumption).
  set (d := Qabs (t1 - t0)) in *.
  rewrite (Hprec _ _ (get_digits_pos m Hmpos) (get_digits_pos d ltac:(lra))).
  assert (Hd' : Qabs d == d) by (apply Qabs_pos; lra).
  assert (Hm' : Qabs m == m) by (apply Qabs_pos; lra).
  assert (Hkm : (Qfloor (log10 (Qabs m)) <= -2)%Z).
  { apply log10_floor_le; [lra|]. change (10 ^ (-2 + 1)) with (1 # 10). lra. }
  assert (Hkd : (0 <= Qfloor (log10 (Qabs d)))%Z).
  { apply log10_floor_ge. change (10 ^ 0) with 1. lra. }
  destruct (Z.geb_spec (Qfloor (log10 (Qabs m)) + 1) 0) as [Hc|Hc]; [lia|].
  destruct (Z.leb_spec (Qfloor (log10 (Qabs d)) + 1) 0) as [Hc'|Hc']; [lia|].
  reflexivity.
Qed.

(** On increasing ticks the precision is a number from 0 to 7. *)
Lemma precision_sorted (sc : axis_scale) (t0 t1 : Q) (rest : list Q) :
  StronglySorted Qle (t0 :: t1 :: rest) -> t0 < t1 ->
  exists p, _linear_scale_precision log10 sc (Some (map VNum (t0 :: t1 :: rest))) = PNum p /\
            (0 <= p <= 7)%Z.
Proof.
  intros Hs Hlt.
  pose proof (last_map_VNum t0 (t1 :: rest)) as Hlast.
  set (tl := last (t0 :: t1 :: rest) 0) in *.
  assert (Htl : t1 <= tl).
  { inversion Hs as [|? ? Hs' _]; subst. apply (sorted_first_le_last t1 rest Hs'). }
  cbn [map] in *.
  destruct (precision_of_digits sc t0 t1 tl (map VNum rest) Hlast)
    as (m & Hm0 & Hml & _ & Hprec).
  pose proof (Qabs_bounds t0). pose proof (Qabs_bounds tl).
  set (d := Qabs (t1 - t0)) in *.
  assert (Hd : d == t1 - t0) by (apply Qabs_pos; lra).
  assert (Hmpos : 0 < m) by lra.
  rewrite (Hprec _ _ (get_digits_pos m Hmpos) (get_digits_pos d ltac:(lra))).
  assert (Hdm : (Qfloor (log10 (Qabs d)) <= Qfloor (log10 (Qabs m)) + 1)%Z).
  { assert (Hd' : Qabs d == d) by (apply Qabs_pos; lra).
    assert (Hm' : Qabs m == m) by (apply Qabs_pos; lra).
    apply log10_floor_double; lra. }
  set (kd := Qfloor (log10 (Qabs d))) in *. set (km := Qfloor (log10 (Qabs m))) in *.
  destruct (Z.geb_spec (km + 1) 0) as [Hmd|Hmd]; destruct (Z.gtb_spec (kd + 1) 0) as [Hdd|Hdd];
    cbn [andb].
  - destruct (km + 1 <=? 6)%Z; eexists; (split; [reflexivity | lia]).
  - replace (kd + 1 <=? 0)%Z with true by (symmetry; apply Z.leb_le; lia).
    eexists; split; [reflexivity | lia].
  - lia.
  - replace (kd + 1 <=? 0)%Z with true by (symmetry; apply Z.leb_le; lia).
    eexists; split; [reflexivity | lia].
Qed.

End PrecisionFacts.

(** C9.  [_linear_scale_precision] is partial.  For a logarithm that is
    monotone and whose floor is the exact order of magnitude away from the
    powers of ten: when the first gap is 1 or more while the two ends of
    the tick list are at most 0.099 in magnitude (and not both zero), none
    of its two guarded branches is taken and it returns [undefined]; the
    ticks [0.05, -1.5, 0.05] are such a list.  On ticks sorted in
    increasing order with [ticks[0] < ticks[1]] that cannot happen: the
    result is a number from 0 to 7. *)
Theorem linear_scale_precision_partial (log10 : Q -> Q) (sc : TickFormatter.axis_scale) :
  Spec.log10_floors log10 ->
  (forall t0 t1 tl rest,
     last (TickFormatter.VNum t0 :: TickFormatter.VNum t1 :: rest) TickFormatter.VUndefined
     = TickFormatter.VNum tl ->
     (1 <= Qabs (t1 - t0))%Q ->
     (Qabs t0 <= 99 # 1000)%Q -> (Qabs tl <= 99 # 1000)%Q -> ~ (t0 == 0 /\ tl == 0)%Q ->
     TickFormatter._linear_scale_precision log10 sc
       (Some (TickFormatter.VNum t0 :: TickFormatter.VNum t1 :: rest))
     = TickFormatter.PUndefined) /\
  TickFormatter._linear_scale_precision log10 sc
    (Some [TickFormatter.VNum (5 # 100); TickFormatter.VNum (- 3 # 2);
           TickFormatter.VNum (5 # 100)])
  = TickFormatter.PUndefined /\
  (forall t0 t1 rest,
     StronglySorted Qle (t0 :: t1 :: rest) -> (t0 < t1)%Q ->
     exists p,
       TickFormatter._linear_scale_precision log10 sc
         (Some (map TickFormatter.VNum (t0 :: t1 :: rest))) = TickFormatter.PNum p /\
       (0 <= p <= 7)%Z).
Proof.
  intros Hlog. split; [|split].
  - intros t0 t1 tl rest. now apply precision_undefined.
  - apply (precision_undefined log10 Hlog sc (5 # 100) (- 3 # 2) (5 # 100)
             [TickFormatter.VNum (5 # 100)] eq_refl); try discriminate.
    intros [H _]. discriminate H.
  - intros t0 t1 rest. now apply precision_sorted.
Qed.

(** Sorted ticks a fifth apart, for the logarithm that is floored
    exactly. *)
Lemma linear_scale_precision_partial_witness :
  exists p,
    TickFormatter._linear_scale_precision Num.integer_log10
      {| TickFormatter.model_type := "linear"; TickFormatter.domain := [];
         TickFormatter.ticks := [] |}
      (Some (map TickFormatter.VNum [0; 1 # 5; 2 # 5; 3 # 5]%Q)) = TickFormatter.PNum p /\
    (0 <= p <= 7)%Z.
Proof.
  destruct (linear_scale_precision_partial Num.integer_log10
              {| TickFormatter.model_type := "linear"; TickFormatter.domain := [];
                 TickFormatter.ticks := [] |} integer_log10_floors) as (_ & _ & H).
  apply (H 0%Q (1 # 5)%Q [2 # 5; 3 # 5]%Q).
  - repeat constructor; unfold Qle; simpl; lia.
  - reflexivity.
Defined.

(** ** Tick values of a log axis *)

Section LogTicksFacts.
Import Num TickFormatter Spec.

Local Open Scope Q_scope.

Lemma Qmod_nonneg (y s : Q) : 0 <= y -> 0 < s -> 0 <= Qmod y s.
Proof.
  intros Hy Hs. unfold Qmod.
  pose proof (Qfloor_le (y / s)) as Hf.
  assert (Hm : inject_Z (Qfloor (y / s)) * s <= y / s * s).
  { apply Qmult_le_compat_r; [exact Hf | lra]. }
  assert (Hd : y / s * s == y) by (field; lra).
  lra.
Qed.

Lemma Qmod_comp (x y s : Q) : x == y -> Qmod x s == Qmod y s.
Proof.
  intros H. unfold Qmod.
  assert (Hd : x / s == y / s) by (rewrite H; reflexivity).
  rewrite (Qfloor_comp _ _ Hd), H. reflexivity.
Qed.

(** The magnitude of the JavaScript remainder is the remainder of the
    magnitude. *)
Lemma Qabs_Qrem (x s : Q) : 0 < s -> Qabs (Qrem x s) == Qmod (Qabs x) s.
Proof.
  intros Hs. unfold Qrem.
  destruct (Qlt_le_dec x 0) as [Hneg|Hpos].
  - assert (Hq : x / s <= 0).
    { apply Qle_shift_div_r; [exact Hs | lra]. }
    rewrite (trunc_nonpos _ Hq). unfold Qceiling. rewrite inject_Z_opp.
    assert (Hax : Qabs x == - x) by (apply Qabs_neg; lra).
    assert (Hd : - (x / s) == - x / s) by (field; lra).
    rewrite (Qfloor_comp _ _ Hd).
    rewrite (Qmod_comp _ _ s Hax).
    pose proof (Qmod_nonneg (- x) s ltac:(lra) Hs) as Hnn.
    unfold Qmod in *.
    rewrite Qabs_neg by lra. ring.
  - assert (Hq : 0 <= x / s).
    { apply Qle_shift_div_l; [exact Hs | lra]. }
    rewrite (trunc_nonneg _ Hq).
    assert (Hax : Qabs x == x) by (apply Qabs_pos; lra).
    rewrite (Qmod_comp _ _ s Hax).
    pose proof (Qmod_nonneg x s Hpos Hs) as Hnn.
    unfold Qmod in *. apply Qabs_pos. exact Hnn.
Qed.

Lemma frac_Qmod (x : Q) : frac x == Qmod x 1.
Proof.
  unfold frac, Qmod.
  assert (Hd : x / 1 == x) by (field).
  rewrite (Qfloor_comp _ _ Hd). ring.
Qed.

Lemma within_comp (x y c d : Q) : x == y -> c == d -> within x c = within y d.
Proof.
  intros Hx Hc. unfold within. f_equal. apply Qleb_comp; [reflexivity|].
  rewrite Hx, Hc. reflexivity.
Qed.

Lemma ltb_abs_within (r c : Q) :
  Num.ltb (Num.abs (Num.sub (Some r) (Some c))) (Some (1 # 1000)) = within r c.
Proof. reflexivity. Qed.

Lemma ltb_abs_within_0 (r : Q) :
  Num.ltb (Some (Qabs r)) (Some (1 # 1000)) = within r 0.
Proof.
  cbn [Num.ltb]. unfold within. f_equal. apply Qleb_comp; [reflexivity|].
  assert (H : r == r - 0) by ring. rewrite <- H. reflexivity.
Qed.

Variable log10 : Q -> Q.
Variable fl : Q -> Q.

Lemma keep_125_near (t : value) :
  keep_125 log10 t = near_1_2_5 (Math_log10 log10 (to_number t)).
Proof.
  unfold keep_125, near_1_2_5.
  destruct (Math_log10 log10 (to_number t)) as [x|]; [|reflexivity].
  cbn [Num.rem]. change (Qeq_bool 1 0) with false. cbn [Num.abs lift1].
  rewrite ltb_abs_within_0, !ltb_abs_within.
  assert (H : Qabs (Qrem x 1) == frac (Qabs x)).
  { rewrite frac_Qmod. apply Qabs_Qrem. reflexivity. }
  rewrite (within_comp _ _ 0 0 H), (within_comp _ _ 1 1 H),
    (within_comp _ _ (30103 # 100000) (30103 # 100000) H),
    (within_comp _ _ (69897 # 100000) (69897 # 100000) H); reflexivity.
Qed.

Lemma keep_every_near (s : Q) (t : value) :
  0 < s ->
  keep_every log10 (Some s) t = near_multiple s (Math_log10 log10 (to_number t)).
Proof.
  intros Hs. unfold keep_every, near_multiple.
  destruct (Math_log10 log10 (to_number t)) as [x|]; [|reflexivity].
  cbn [Num.rem].
  destruct (Qeq_bool s 0) eqn:E; [apply Qeq_bool_eq in E; lra|].
  cbn [Num.abs lift1].
  rewrite ltb_abs_within_0, ltb_abs_within.
  pose proof (Qabs_Qrem x s Hs) as H.
  rewrite (within_comp _ _ 0 0 H), (within_comp _ _ s s H); reflexivity.
Qed.

Lemma filter_keep_nan (l : list value) : filter (keep_every log10 None) l = [].
Proof.
  induction l as [|t l IH]; [reflexivity|]. simpl.
  unfold keep_every at 1.
  destruct (Math_log10 log10 (to_number t)); simpl; exact IH.
Qed.

(** C1.  On a log axis with no explicit tick values and no [num_ticks],
    whose domain starts with the non-zero numbers [d0] and [d1],
    [set_tick_values] chooses among the scale's ticks by
    [oom = |log10(d1 / d0)|]:
    - [oom < 2]: all the ticks;
    - [2 <= oom < 7]: in order, exactly the ticks [t] for which the
      fractional part of [|log10(t)|] is within 0.001 of 0, 1, 0.30103 or
      0.69897;
    - [7 <= oom]: with [s = round(oom / 10)], which is 1 at least, exactly
      the ticks for which [|log10(t)| mod s] is within 0.001 of 0 or of [s];
    - when [d1 / d0] is negative, [oom] and [s] are NaN and no tick is
      kept.
    A tick that is not a positive number has no logarithm and is not kept
    by the two filters. *)
Theorem set_tick_values_log (a : axis) (d0 d1 : Q) :
  (tick_values a = None \/ tick_values a = Some []) ->
  num_ticks a = None ->
  model_type (scale a) = "log"%string ->
  to_number (index (domain (scale a)) 0) = Some d0 ->
  to_number (index (domain (scale a)) 1) = Some d1 ->
  ~ d0 == 0 -> ~ d1 == 0 ->
  let allticks := ticks (scale a) in
  let lg t := Math_log10 log10 (to_number t) in
  let oom := Qabs (log10 (d1 / d0)) in
  let s := inject_Z (Qfloor (oom / 10 + (1 # 2))) in
  (0 < d1 / d0 ->
     (oom < 2 -> set_tick_values log10 fl a = Some allticks) /\
     (2 <= oom < 7 ->
        set_tick_values log10 fl a = Some (filter (fun t => near_1_2_5 (lg t)) allticks)) /\
     (7 <= oom ->
        1 <= s /\
        set_tick_values log10 fl a = Some (filter (fun t => near_multiple s (lg t)) allticks))) /\
  (d1 / d0 < 0 -> set_tick_values log10 fl a = Some []).
Proof.
  intros Htv Hnt Htype H0 H1 Hd0 Hd1 allticks lg oom s.
  assert (Hset : set_tick_values log10 fl a =
            let oom' := Num.abs (Math_log10 log10 (Some (d1 / d0))) in
            if Num.ltb oom' (Some 2) then Some allticks
            else if Num.ltb oom' (Some 7) then Some (filter (keep_125 log10) allticks)
            else Some (filter (keep_every log10 (Num.round (Num.div oom' (Some 10)))) allticks)).
  { unfold set_tick_values. rewrite Hnt, Htype, H0, H1.
    change (String.eqb "log" "ordinal") with false.
    change (String.eqb "log" "log") with true.
    cbn [Num.div]. destruct (Qeq_bool d0 0) eqn:E; [apply Qeq_bool_eq in E; contradiction|].
    destruct Htv as [-> | ->]; reflexivity. }
  rewrite Hset. clear Hset. cbv zeta.
  split.
  - intros Hpos.
    assert (Hlog : Math_log10 log10 (Some (d1 / d0)) = Some (log10 (d1 / d0))).
    { unfold Math_log10.
      destruct (Qle_bool (d1 / d0) 0) eqn:E; [apply Qle_bool_iff in E; lra | reflexivity]. }
    rewrite Hlog. cbn [Num.abs lift1 Num.ltb]. fold oom.
    split; [|split].
    + intros Hlt. destruct (Qle_bool 2 oom) eqn:E2; [apply Qle_bool_iff in E2; lra|].
      reflexivity.
    + intros [Hge Hlt].
      assert (E2 : Qle_bool 2 oom = true) by (apply Qle_bool_iff; exact Hge).
      rewrite E2. cbn [negb].
      destruct (Qle_bool 7 oom) eqn:E7; [apply Qle_bool_iff in E7; lra|].
      cbn [negb]. f_equal. apply filter_ext. intros t. apply keep_125_near.
    + intros Hge.
      assert (E2 : Qle_bool 2 oom = true) by (apply Qle_bool_iff; lra).
      assert (E7 : Qle_bool 7 oom = true) by (apply Qle_bool_iff; exact Hge).
      rewrite E2, E7. cbn [negb Num.div].
      change (Qeq_bool 10 0) with false. cbn [Num.round lift1]. fold s.
      assert (Hs : 1 <= s).
      { unfold s. change 1 with (inject_Z 1). rewrite <- Zle_Qle.
        assert (Hx : inject_Z 1 <= oom / 10 + (1 # 2)).
        { assert (Hdiv : 7 / 10 <= oom / 10).
          { apply Qmult_le_compat_r; [exact Hge | discriminate]. }
          change (inject_Z 1) with 1.
          assert (H710 : 7 / 10 == 7 # 10) by reflexivity. lra. }
        apply Qfloor_resp_le in Hx. rewrite Qfloor_Z in Hx. exact Hx. }
      split; [exact Hs|]. f_equal. apply filter_ext. intros t.
      apply keep_every_near. lra.
  - intros Hneg.
    assert (Hlog : Math_log10 log10 (Some (d1 / d0)) = None).
    { unfold Math_log10.
      assert (E : Qle_bool (d1 / d0) 0 = true) by (apply Qle_bool_iff; lra).
      now rewrite E. }
    rewrite Hlog. cbn [Num.abs lift1 Num.ltb Num.div Num.round].
    f_equal. apply filter_keep_nan.
Qed.

End LogTicksFacts.

(** A log axis over three decades and one over eight, with the integer
    part of the logarithm standing for [Math.log10]. *)
Lemma set_tick_values_log_witness :
  TickFormatter.set_tick_values (fun x => inject_Z (Num.floor_log10 x))
    TickFormatter.exact_arithmetic
    {| TickFormatter.tick_values := None; TickFormatter.num_ticks := None;
       TickFormatter.scale :=
         {| TickFormatter.model_type := "log";
            TickFormatter.domain := [TickFormatter.VNum 1; TickFormatter.VNum 1000];
            TickFormatter.ticks := map TickFormatter.VNum [1; 2; 3; 10; 20; 100; 1000]%Q |} |}
  = Some (map TickFormatter.VNum [1; 2; 3; 10; 20; 100; 1000]%Q).
Proof.
  destruct (set_tick_values_log (fun x => inject_Z (Num.floor_log10 x))
              TickFormatter.exact_arithmetic
              {| TickFormatter.tick_values := None; TickFormatter.num_ticks := None;
                 TickFormatter.scale :=
                   {| TickFormatter.model_type := "log";
                      TickFormatter.domain := [TickFormatter.VNum 1; TickFormatter.VNum 1000];
                      TickFormatter.ticks :=
                        map TickFormatter.VNum [1; 2; 3; 10; 20; 100; 1000]%Q |} |}
              1%Q 1000%Q (or_introl eq_refl) eq_refl eq_refl eq_refl eq_refl)
    as [H _]; [unfold Qeq; simpl; lia | unfold Qeq; simpl; lia |].
  destruct H as (_ & H & _); [reflexivity|].
  rewrite H; [reflexivity | split; [discriminate | reflexivity]].
Defined.

(** ** Number formats *)

Section StringFacts.
Import TickFormatter Spec.

Local Open Scope string_scope.

Lemma append_assoc' (a b c : string) : (a ++ b) ++ c = a ++ b ++ c.
Proof. induction a as [|x a IH]; simpl; [reflexivity | now rewrite IH]. Qed.

Lemma append_empty_r (a : string) : a ++ "" = a.
Proof. induction a as [|x a IH]; simpl; [reflexivity | now rewrite IH]. Qed.

Lemma is_digit_not_dot_e (c : ascii) : is_digit c = true -> not_dot_e c = true.
Proof.
  unfold is_digit, not_dot_e, not_dot, not_e. intros H.
  destruct (Ascii.eqb_spec c ".") as [->|_]; [discriminate H|].
  destruct (Ascii.eqb_spec c "e") as [->|_]; [discriminate H|]. reflexivity.
Qed.

Lemma string_forall_impl (p q : ascii -> bool) (s : string) :
  (forall c, p c = true -> q c = true) ->
  string_forall p s = true -> string_forall q s = true.
Proof.
  intros Hpq. induction s as [|c s IH]; simpl; [reflexivity|].
  rewrite !andb_true_iff. intros [Hc Hs]. split; [now apply Hpq | now apply IH].
Qed.

Lemma string_forall_app (p : ascii -> bool) (a b : string) :
  string_forall p (a ++ b) = string_forall p a && string_forall p b.
Proof.
  induction a as [|c a IH]; simpl; [reflexivity|]. now rewrite IH, andb_assoc.
Qed.

(** *** Splitting at the exponent *)

Lemma split_e_none (s : string) : string_forall not_e s = true -> split_e s = None.
Proof.
  induction s as [|c s IH]; simpl; [reflexivity|].
  rewrite andb_true_iff. intros [Hc Hs]. unfold not_e in Hc.
  destruct (Ascii.eqb c "e"); [discriminate|]. now rewrite IH.
Qed.

Lemma split_e_app (s r : string) :
  string_forall not_e s = true -> split_e (s ++ String "e" r) = Some (s, String "e" r).
Proof.
  induction s as [|c s IH]; simpl; [reflexivity|].
  rewrite andb_true_iff. intros [Hc Hs]. unfold not_e in Hc.
  destruct (Ascii.eqb c "e"); [discriminate|]. now rewrite IH.
Qed.

(** *** Trailing zeros *)

Lemma strip_zeros_empty (s : string) :
  strip_zeros s = "" <-> s = "" \/ zeros_to_end s = true.
Proof.
  induction s as [|c s IH]; simpl; [tauto|].
  destruct (strip_zeros s) as [|c' s'] eqn:E.
  - assert (Hs : s = "" \/ zeros_to_end s = true) by (now apply IH).
    destruct (Ascii.eqb c "0"); simpl.
    + split; [intros _; right | reflexivity].
      destruct s; [reflexivity | destruct Hs as [Hs|Hs]; [discriminate | exact Hs]].
    + split; [discriminate | intros [H|H]; discriminate].
  - split; [discriminate|]. intros [H|H]; [discriminate|]. exfalso.
    apply andb_true_iff in H. destruct H as [_ H].
    destruct s as [|d s]; [discriminate E|].
    assert (Hz : String c' s' = "") by (apply IH; now right). discriminate.
Qed.

Lemma strip_zeros_cons (c : ascii) (s : string) :
  zeros_to_end (String c s) = false ->
  strip_zeros (String c s) = String c (strip_zeros s).
Proof.
  intros H. simpl. destruct (strip_zeros s) as [|c' s'] eqn:E; [|reflexivity].
  destruct (Ascii.eqb c "0") eqn:Ec; [|reflexivity]. exfalso.
  assert (Hs : s = "" \/ zeros_to_end s = true) by (now apply strip_zeros_empty).
  simpl in H. rewrite Ec in H. simpl in H.
  destruct s; [discriminate | destruct Hs as [Hs|Hs]; [discriminate | congruence]].
Qed.

Lemma strip_zeros_digits (s : string) :
  string_forall is_digit s = true -> string_forall is_digit (strip_zeros s) = true.
Proof.
  induction s as [|c s IH]; simpl; [reflexivity|].
  rewrite andb_true_iff. intros [Hc Hs]. specialize (IH Hs).
  destruct (strip_zeros s) as [|c' s'].
  - destruct (Ascii.eqb c "0"); simpl; [reflexivity | now rewrite Hc].
  - simpl in *. now rewrite Hc, IH.
Qed.

(** The lazy group of the pattern captures the digits before the final
    run of zeros, when there is one. *)
Lemma lazy_digits_strip (fp : string) :
  string_forall is_digit fp = true ->
  match lazy_digits fp with
  | Some g => g = strip_zeros fp
  | None => strip_zeros fp = fp
  end.
Proof.
  induction fp as [|c fp IH]; intros Hd; [reflexivity|].
  cbn [lazy_digits]. destruct (zeros_to_end (String c fp)) eqn:Ez.
  - symmetry. apply strip_zeros_empty. now right.
  - simpl in Hd. apply andb_true_iff in Hd. destruct Hd as [Hc Hd].
    rewrite Hc. specialize (IH Hd). rewrite (strip_zeros_cons _ _ Ez).
    destruct (lazy_digits fp) as [g|]; simpl; congruence.
Qed.

Lemma replace_zeros_no_dot (s : string) :
  string_forall not_dot s = true -> replace_zeros s = s.
Proof.
  induction s as [|c s IH]; simpl; [reflexivity|].
  rewrite andb_true_iff. intros [Hc Hs]. unfold not_dot in Hc.
  destruct (Ascii.eqb c "."); [discriminate|]. now rewrite IH.
Qed.

Lemma replace_zeros_app (ip s : string) :
  string_forall not_dot ip = true -> replace_zeros (ip ++ s) = ip ++ replace_zeros s.
Proof.
  induction ip as [|c ip IH]; simpl; [reflexivity|].
  rewrite andb_true_iff. intros [Hc Hs]. unfold not_dot in Hc.
  destruct (Ascii.eqb c "."); [discriminate|]. now rewrite IH.
Qed.

Lemma replace_zeros_fraction (fp : string) :
  string_forall is_digit fp = true ->
  replace_zeros (String "." fp) = String "." (strip_zeros fp).
Proof.
  intros Hd. cbn [replace_zeros]. change (Ascii.eqb "." ".") with true. cbv iota.
  pose proof (lazy_digits_strip fp Hd) as H.
  destruct (lazy_digits fp) as [g|]; [now rewrite H|].
  rewrite replace_zeros_no_dot, H; [reflexivity|].
  apply string_forall_impl with (p := is_digit); [|exact Hd].
  intros c Hc. apply is_digit_not_dot_e in Hc. unfold not_dot_e in Hc.
  now apply andb_true_iff in Hc.
Qed.

(** *** The final dot *)

Lemma replace_final_dot_no_dot (s : string) :
  string_forall not_dot s = true -> replace_final_dot s = s.
Proof.
  induction s as [|c s IH]; [reflexivity|].
  cbn [string_forall]. rewrite andb_true_iff. intros [Hc Hs].
  cbn [replace_final_dot]. destruct s as [|d s].
  - unfold not_dot in Hc. destruct (Ascii.eqb c "."); [discriminate | reflexivity].
  - now rewrite (IH Hs).
Qed.

Lemma replace_final_dot_app (a b : string) :
  b <> "" -> replace_final_dot (a ++ b) = a ++ replace_final_dot b.
Proof.
  intros Hb. induction a as [|c a IH]; [reflexivity|].
  cbn [append replace_final_dot]. rewrite IH.
  destruct (a ++ b) as [|d r] eqn:E; [|reflexivity].
  destruct a; [simpl in E; contradiction | discriminate].
Qed.

(** *** Numerals *)

Lemma not_dot_e_split (s : string) :
  string_forall not_dot_e s = true ->
  string_forall not_dot s = true /\ string_forall not_e s = true.
Proof.
  intros H. split; (apply string_forall_impl with (p := not_dot_e); [|exact H]);
    intros c Hc; unfold not_dot_e in Hc; apply andb_true_iff in Hc; tauto.
Qed.

Lemma digits_not_dot_e (s : string) :
  string_forall is_digit s = true -> string_forall not_dot_e s = true.
Proof. apply string_forall_impl, is_digit_not_dot_e. Qed.

(** The mantissa [ip.fp] loses the trailing zeros of [fp], and the dot
    with them when nothing else follows it. *)
Lemma mantissa_stripped (ip fp : string) :
  string_forall not_dot_e ip = true ->
  string_forall is_digit fp = true ->
  replace_final_dot (replace_zeros (ip ++ "." ++ fp))
  = match strip_zeros fp with
    | "" => ip
    | fp' => ip ++ "." ++ fp'
    end.
Proof.
  intros Hip Hfp. destruct (not_dot_e_split ip Hip) as [Hdot _].
  rewrite (replace_zeros_app ip _ Hdot).
  change ("." ++ fp) with (String "." fp). rewrite (replace_zeros_fraction fp Hfp).
  rewrite replace_final_dot_app by discriminate.
  pose proof (strip_zeros_digits fp Hfp) as Hg.
  destruct (strip_zeros fp) as [|c g] eqn:E.
  - simpl. apply append_empty_r.
  - change (String "." (String c g)) with ("." ++ String c g).
    rewrite replace_final_dot_app by discriminate.
    rewrite replace_final_dot_no_dot; [reflexivity|].
    apply (proj1 (not_dot_e_split _ (digits_not_dot_e _ Hg))).
Qed.

Lemma replace_trailing_zeros_numeral (ip fp ex : string) :
  string_forall not_dot_e ip = true ->
  string_forall is_digit fp = true ->
  (ex = "" \/ exists r, ex = String "e" r) ->
  _replace_trailing_zeros (numeral ip fp ex) = stripped_numeral ip fp ex.
Proof.
  intros Hip Hfp Hex. unfold numeral, stripped_numeral, _replace_trailing_zeros.
  assert (Hman : string_forall not_e (ip ++ "." ++ fp) = true).
  { rewrite string_forall_app. apply andb_true_iff. split.
    - apply (proj2 (not_dot_e_split ip Hip)).
    - simpl. apply (proj2 (not_dot_e_split _ (digits_not_dot_e _ Hfp))). }
  replace (ip ++ "." ++ fp ++ ex) with ((ip ++ "." ++ fp) ++ ex)
    by (rewrite append_assoc'; reflexivity).
  destruct Hex as [-> | (r & ->)].
  - rewrite append_empty_r, (split_e_none _ Hman), (mantissa_stripped ip fp Hip Hfp).
    destruct (strip_zeros fp); rewrite ?append_empty_r; reflexivity.
  - rewrite (split_e_app _ r Hman), (mantissa_stripped ip fp Hip Hfp).
    destruct (strip_zeros fp); [reflexivity|].
    rewrite append_assoc'. reflexivity.
Qed.

Lemma replace_trailing_zeros_integer (ip ex : string) :
  string_forall not_dot_e ip = true ->
  (ex = "" \/ exists r, ex = String "e" r) ->
  _replace_trailing_zeros (ip ++ ex) = ip ++ ex.
Proof.
  intros Hip Hex. unfold _replace_trailing_zeros.
  destruct (not_dot_e_split ip Hip) as [Hdot He].
  destruct Hex as [-> | (r & ->)].
  - rewrite append_empty_r, (split_e_none _ He).
    now rewrite (replace_zeros_no_dot _ Hdot), (replace_final_dot_no_dot _ Hdot).
  - rewrite (split_e_app _ r He).
    now rewrite (replace_zeros_no_dot _ Hdot), (replace_final_dot_no_dot _ Hdot).
Qed.

(** *** Digit characters *)








End StringFacts.

Section FormatFacts.
Import Num TickFormatter Spec.

Local Open Scope Q_scope.

Variable log10 : Q -> Q.
Variable d3_format : string -> signed -> string.




End FormatFacts.



(** ** Selections under sequences of clicks *)

Section SelectionFacts.
Import JS Spec Events.

Local Open Scope Z_scope.

Lemma selection_set_idx_selected (v : Bars.view) (l : list Z) :
  selection (Bars.idx_selected (Bars.set_idx_selected v l)) = l /\
  selection (Bars.selected_indices (Bars.set_idx_selected v l)) = l.
Proof. destruct l; split; reflexivity. Qed.

Lemma selection_null_if_empty (l : list Z) :
  selection (if Nat.eqb (length l) 0 then None else Some l) = l.
Proof. destruct l; reflexivity. Qed.

Lemma range_NoDup (a b : Z) : NoDup (range a b).
Proof. apply (StronglySorted_NoDup Z.lt); [intros x; lia | apply range_sorted]. Qed.

Lemma NoDup_app_disjoint (l1 l2 : list Z) :
  NoDup l1 -> NoDup l2 -> (forall x, In x l1 -> ~ In x l2) -> NoDup (l1 ++ l2).
Proof.
  intros H1 H2 Hd. induction H1 as [|a l1 Ha H1 IH]; simpl; [exact H2|].
  constructor.
  - rewrite in_app_iff. intros [H|H]; [now apply Ha | now apply (Hd a); [left|]].
  - apply IH. intros x Hx. apply Hd. now right.
Qed.

Lemma NoDup_snoc (l : list Z) (x : Z) : NoDup l -> ~ In x l -> NoDup (l ++ [x]).
Proof.
  intros Hl Hx. apply NoDup_app_disjoint; auto.
  - constructor; [intros [] | constructor].
  - intros y Hy [<-|[]]. now apply Hx.
Qed.

Lemma splice1_NoDup (l : list Z) (x : Z) :
  NoDup l -> In x l -> NoDup (splice1 l (Z.to_nat (indexOf l x))).
Proof.
  intros Hl Hin. destruct (splice1_indexOf l x Hin) as (l1 & l2 & -> & _ & ->).
  now apply NoDup_remove_1 in Hl.
Qed.

(** Taking out again the index that was appended last. *)
Lemma indexOf_from_snoc (l : list Z) (x k : Z) :
  ~ In x l -> indexOf_from (l ++ [x]) x k = k + Z.of_nat (length l).
Proof.
  revert k. induction l as [|a l IH]; intros k Hx; simpl.
  - rewrite Z.eqb_refl. lia.
  - destruct (Z.eqb_spec a x) as [->|Hne]; [exfalso; apply Hx; now left|].
    rewrite IH by (intros H; apply Hx; now right). lia.
Qed.

Lemma splice1_length (l : list Z) (x : Z) : splice1 (l ++ [x]) (length l) = l.
Proof. induction l as [|a l IH]; simpl; [reflexivity | now rewrite IH]. Qed.

Lemma splice1_snoc (l : list Z) (x : Z) :
  ~ In x l -> splice1 (l ++ [x]) (Z.to_nat (indexOf (l ++ [x]) x)) = l.
Proof.
  intros Hx. unfold indexOf. rewrite (indexOf_from_snoc l x 0 Hx). simpl.
  rewrite Nat2Z.id. apply splice1_length.
Qed.

(** A shift-click on an unselected bar appends indices that are new. *)
Lemma shift_click_NoDup (sel : list Z) (n i : Z) :
  NoDup sel -> ~ In i sel ->
  let min_index := match sel with [] => -1 | a :: r => d3_min a r end in
  let max_index := match sel with [] => n | a :: r => d3_max a r end in
  NoDup ((if i >? max_index then sel ++ range (max_index + 1) i
          else if i <? min_index then sel ++ range (i + 1) min_index
          else sel) ++ [i]).
Proof.
  intros Hsel Hnot min_index max_index.
  assert (Hmax : forall y, In y sel -> y <= max_index).
  { destruct sel as [|a r]; [intros y []|]. apply (fold_max_spec r a). }
  assert (Hmin : forall y, In y sel -> min_index <= y).
  { destruct sel as [|a r]; [intros y []|]. apply (fold_min_spec r a). }
  destruct (Z.gtb_spec i max_index) as [Hgt|Hle].
  - apply NoDup_snoc.
    + apply NoDup_app_disjoint; [exact Hsel | apply range_NoDup|].
      intros x Hx Hr. apply range_In in Hr. apply Hmax in Hx. lia.
    + rewrite in_app_iff, range_In. intros [H|H]; [now apply Hnot | lia].
  - destruct (Z.ltb_spec i min_index) as [Hlt|Hge].
    + apply NoDup_snoc.
      * apply NoDup_app_disjoint; [exact Hsel | apply range_NoDup|].
        intros x Hx Hr. apply range_In in Hr. apply Hmin in Hx. lia.
      * rewrite in_app_iff, range_In. intros [H|H]; [now apply Hnot | lia].
    + now apply NoDup_snoc.
Qed.

Lemma bar_click_handler_NoDup (v : Bars.view) (e : event) (i : Z) :
  NoDup (selection (Bars.idx_selected v)) ->
  NoDup (selection (Bars.idx_selected (Bars.bar_click_handler v e i))).
Proof.
  intros Hv. unfold Bars.bar_click_handler.
  destruct (Bars.select_bars v); [|exact Hv].
  change (Bars.jQuery_extend (Bars.idx_selected v)) with (selection (Bars.idx_selected v)).
  cbv zeta.
  destruct (indexOf (selection (Bars.idx_selected v)) i >? -1) eqn:Hfound.
  - apply indexOf_found in Hfound.
    destruct (ctrlKey e); cbn [andb].
    + rewrite (proj1 (selection_set_idx_selected v _)). now apply splice1_NoDup.
    + destruct (shiftKey e); [exact Hv|].
      rewrite (proj1 (selection_set_idx_selected v _)). cbn [negb].
      apply (NoDup_snoc []); [constructor | intros []].
  - apply indexOf_not_found in Hfound. cbn [andb].
    destruct (shiftKey e).
    + rewrite (proj1 (selection_set_idx_selected v _)).
      now apply shift_click_NoDup.
    + rewrite (proj1 (selection_set_idx_selected v _)).
      destruct (ctrlKey e); cbn [negb].
      * now apply NoDup_snoc.
      * apply (NoDup_snoc []); [constructor | intros []].
Qed.

Lemma click_handler_NoDup (v : Graph.view) (e : event) (i : Z) :
  NoDup (selection (Graph.selected v)) ->
  NoDup (selection (Graph.selected (Graph.click_handler v e i))).
Proof.
  intros Hv. unfold Graph.click_handler, Graph.model_set_selected.
  cbn [Graph.selected]. rewrite selection_null_if_empty.
  change (match Graph.selected v with Some l => l | None => [] end)
    with (selection (Graph.selected v)).
  destruct (indexOf (selection (Graph.selected v)) i >? -1) eqn:Hfound.
  - apply indexOf_found in Hfound.
    destruct (ctrlKey e || metaKey e); cbn [andb].
    + now apply splice1_NoDup.
    + apply (NoDup_snoc []); [constructor | intros []].
  - apply indexOf_not_found in Hfound. cbn [andb].
    destruct (ctrlKey e || metaKey e).
    + now apply NoDup_snoc.
    + apply (NoDup_snoc []); [constructor | intros []].
Qed.

Lemma handle_NoDup (p : page) (ev : ui_event) :
  NoDup (selection (Bars.idx_selected (bars p))) ->
  NoDup (selection (Graph.selected (graph p))) ->
  NoDup (selection (Bars.idx_selected (bars (handle p ev)))) /\
  NoDup (selection (Graph.selected (graph (handle p ev)))).
Proof.
  intros Hb Hg. destruct ev as [e i| |e i|]; cbn [handle bars graph]; split; auto.
  - now apply bar_click_handler_NoDup.
  - unfold Bars.reset_selection. destruct (Bars.select_bars (bars p)); [constructor | exact Hb].
  - now apply click_handler_NoDup.
  - constructor.
Qed.

(** X1.  No click ever selects an index twice: from a page whose two
    selections have no repeated index, every sequence of bar clicks, node
    clicks and background clicks leads to a page whose selections have no
    repeated index either, whatever the modifier keys and the clicked
    indices. *)
Theorem selections_never_repeat (p : page) (evs : list ui_event) :
  NoDup (selection (Bars.idx_selected (bars p))) ->
  NoDup (selection (Graph.selected (graph p))) ->
  NoDup (selection (Bars.idx_selected (bars (run p evs)))) /\
  NoDup (selection (Graph.selected (graph (run p evs)))).
Proof.
  unfold run. revert p. induction evs as [|ev evs IH]; intros p Hb Hg; simpl; [now split|].
  destruct (handle_NoDup p ev Hb Hg) as [Hb' Hg']. now apply IH.
Qed.

Lemma selections_never_repeat_witness :
  NoDup (selection (Bars.idx_selected
    (bars (run {| bars := {| Bars.select_bars := true; Bars.idx_selected := Some [2];
                             Bars.mark_data_length := 8;
                             Bars.selected_indices := Some [2] |};
                  graph := {| Graph.selected := None; Graph.selected_indices := None |} |}
               [BarClick {| ctrlKey := false; shiftKey := true; metaKey := false |} 5;
                BarClick {| ctrlKey := true; shiftKey := false; metaKey := false |} 3])))) /\
  NoDup (selection (Graph.selected
    (graph (run {| bars := {| Bars.select_bars := true; Bars.idx_selected := Some [2];
                              Bars.mark_data_length := 8;
                              Bars.selected_indices := Some [2] |};
                   graph := {| Graph.selected := None; Graph.selected_indices := None |} |}
               [BarClick {| ctrlKey := false; shiftKey := true; metaKey := false |} 5;
                BarClick {| ctrlKey := true; shiftKey := false; metaKey := false |} 3])))).
Proof.
  apply selections_never_repeat; simpl.
  - constructor; [intros [] | constructor].
  - constructor.
Defined.

(** X2.  Ctrl-click is its own inverse on an unselected bar: with
    ["select_bars"] on, ctrl held and shift not held, two clicks in a row
    on a bar that is not selected restore the attribute ["idx_selected"]
    (a [null] or non-empty list) to what it was. *)
Theorem bar_ctrl_click_twice (v : Bars.view) (e : event) (i : Z) :
  Bars.select_bars v = true ->
  ctrlKey e = true -> shiftKey e = false ->
  null_or_nonempty (Bars.idx_selected v) ->
  ~ In i (selection (Bars.idx_selected v)) ->
  Bars.idx_selected (Bars.bar_click_handler (Bars.bar_click_handler v e i) e i)
  = Bars.idx_selected v /\
  Bars.idx_selected (Bars.bar_click_handler v e i)
  = Some (selection (Bars.idx_selected v) ++ [i]).
Proof.
  intros Hsel Hctrl Hshift Hattr Hnot.
  assert (H1 : Bars.bar_click_handler v e i
               = Bars.set_idx_selected v (selection (Bars.idx_selected v) ++ [i])).
  { unfold Bars.bar_click_handler. rewrite Hsel, Hctrl, Hshift.
    change (Bars.jQuery_extend (Bars.idx_selected v)) with (selection (Bars.idx_selected v)).
    cbv zeta. rewrite (proj2 (indexOf_not_found _ _) Hnot). reflexivity. }
  assert (Hlen : Nat.eqb (length (selection (Bars.idx_selected v) ++ [i])) 0 = false).
  { rewrite length_app. simpl. apply Nat.eqb_neq. lia. }
  split.
  - rewrite H1. unfold Bars.bar_click_handler.
    cbn [Bars.select_bars Bars.set_idx_selected Bars.idx_selected]. rewrite Hsel, Hlen, Hctrl.
    cbn [Bars.jQuery_extend]. cbv zeta.
    assert (Hin : In i (selection (Bars.idx_selected v) ++ [i]))
      by (rewrite in_app_iff; right; now left).
    rewrite (proj2 (indexOf_found _ _) Hin). cbn [andb].
    rewrite (splice1_snoc _ _ Hnot).
    unfold Bars.set_idx_selected. cbn [Bars.idx_selected].
    destruct Hattr as [->|(a & l & ->)]; reflexivity.
  - rewrite H1. unfold Bars.set_idx_selected. cbn [Bars.idx_selected]. now rewrite Hlen.
Qed.

Lemma bar_ctrl_click_twice_witness :
  Bars.idx_selected
    (Bars.bar_click_handler
       (Bars.bar_click_handler
          {| Bars.select_bars := true; Bars.idx_selected := Some [4; 1];
             Bars.mark_data_length := 6; Bars.selected_indices := Some [4; 1] |}
          {| ctrlKey := true; shiftKey := false; metaKey := false |} 3)
       {| ctrlKey := true; shiftKey := false; metaKey := false |} 3)
  = Some [4; 1].
Proof.
  refine (proj1 (bar_ctrl_click_twice
            {| Bars.select_bars := true; Bars.idx_selected := Some [4; 1];
               Bars.mark_data_length := 6; Bars.selected_indices := Some [4; 1] |}
            {| ctrlKey := true; shiftKey := false; metaKey := false |} 3
            eq_refl eq_refl eq_refl _ _)).
  - right. now exists 4, [1].
  - simpl. lia.
Defined.

(** X3.  On the graph, a click with the accel key (ctrl or meta) is its
    own inverse on an unselected node: two such clicks in a row restore
    the attribute ["selected"] (a [null] or non-empty list) to what it
    was, and the view's [selected_indices] then holds that value too. *)
Theorem node_accel_click_twice (v : Graph.view) (e : event) (i : Z) :
  ctrlKey e || metaKey e = true ->
  null_or_nonempty (Graph.selected v) ->
  ~ In i (selection (Graph.selected v)) ->
  Graph.selected (Graph.click_handler (Graph.click_handler v e i) e i) = Graph.selected v /\
  Graph.selected_indices (Graph.click_handler (Graph.click_handler v e i) e i)
  = Graph.selected v.
Proof.
  intros Haccel Hattr Hnot.
  set (l := selection (Graph.selected v)) in *.
  assert (Hlen : Nat.eqb (length (l ++ [i])) 0 = false).
  { rewrite length_app. simpl. apply Nat.eqb_neq. lia. }
  assert (H1 : Graph.selected (Graph.click_handler v e i) = Some (l ++ [i])).
  { unfold Graph.click_handler, Graph.model_set_selected. cbn [Graph.selected].
    fold (selection (Graph.selected v)). fold l. rewrite Haccel.
    rewrite (proj2 (indexOf_not_found _ _) Hnot). cbn [andb]. now rewrite Hlen. }
  assert (Hin : In i (l ++ [i])) by (rewrite in_app_iff; right; now left).
  assert (Hl : (if Nat.eqb (length l) 0 then None else Some l) = Graph.selected v).
  { subst l. destruct Hattr as [->|(a & r & ->)]; reflexivity. }
  assert (Hne : attr_eqb (Some (l ++ [i])) (Graph.selected v) = false).
  { destruct (Graph.selected v) as [s|] eqn:Es; [|reflexivity]. simpl.
    destruct (list_eq_dec Z.eq_dec (l ++ [i]) s) as [Heq|]; [|reflexivity].
    exfalso. subst l. simpl in *. apply (f_equal (@length Z)) in Heq.
    rewrite length_app in Heq. simpl in Heq. lia. }
  assert (H2 : forall w, Graph.selected w = Some (l ++ [i]) ->
            Graph.click_handler w e i
            = Graph.model_set_selected w (Graph.selected v)).
  { intros w Hw. unfold Graph.click_handler. rewrite Hw, Haccel.
    rewrite (proj2 (indexOf_found _ _) Hin). cbn [andb].
    now rewrite (splice1_snoc _ _ Hnot), Hl. }
  rewrite (H2 _ H1). unfold Graph.model_set_selected at 1 2.
  cbn [Graph.selected Graph.selected_indices]. rewrite H1, Hne. now split.
Qed.

Lemma node_accel_click_twice_witness :
  Graph.selected
    (Graph.click_handler
       (Graph.click_handler {| Graph.selected := None; Graph.selected_indices := None |}
          {| ctrlKey := false; shiftKey := false; metaKey := true |} 2)
       {| ctrlKey := false; shiftKey := false; metaKey := true |} 2)
  = None.
Proof.
  refine (proj1 (node_accel_click_twice
            {| Graph.selected := None; Graph.selected_indices := None |}
            {| ctrlKey := false; shiftKey := false; metaKey := true |} 2 eq_refl _ _)).
  - now left.
  - simpl. tauto.
Defined.

Lemma attr_eqb_eq (a b : option (list Z)) : attr_eqb a b = true -> a = b.
Proof.
  destruct a as [l|], b as [l'|]; simpl; try discriminate; auto.
  destruct (list_eq_dec Z.eq_dec l l'); [congruence | discriminate].
Qed.

Lemma bar_click_handler_result (v : Bars.view) (e : event) (i : Z) :
  Bars.bar_click_handler v e i = v \/
  exists l, Bars.bar_click_handler v e i = Bars.set_idx_selected v l.
Proof.
  unfold Bars.bar_click_handler.
  destruct (Bars.select_bars v); [|now left]. cbv zeta.
  destruct ((indexOf (Bars.jQuery_extend (Bars.idx_selected v)) i >? -1) && ctrlKey e);
    [right; eexists; reflexivity|].
  destruct (shiftKey e); [|right; eexists; reflexivity].
  destruct (indexOf (Bars.jQuery_extend (Bars.idx_selected v)) i >? -1);
    [now left | right; eexists; reflexivity].
Qed.

Lemma model_set_selected_sync (v : Graph.view) (value : option (list Z)) :
  graph_in_sync v -> graph_in_sync (Graph.model_set_selected v value).
Proof.
  unfold graph_in_sync, Graph.model_set_selected. cbn [Graph.selected Graph.selected_indices].
  intros Hv. destruct (attr_eqb (Graph.selected v) value) eqn:E; [|reflexivity].
  apply attr_eqb_eq in E. congruence.
Qed.

Lemma handle_sync (p : page) (ev : ui_event) :
  bars_in_sync (bars p) -> graph_in_sync (graph p) ->
  bars_in_sync (bars (handle p ev)) /\ graph_in_sync (graph (handle p ev)).
Proof.
  intros Hb Hg. destruct ev as [e i| |e i|]; cbn [handle bars graph]; split; auto.
  - destruct (bar_click_handler_result (bars p) e i) as [->|(l & ->)]; [exact Hb|].
    unfold bars_in_sync. destruct (selection_set_idx_selected (bars p) l) as [-> ->].
    reflexivity.
  - unfold Bars.reset_selection. destruct (Bars.select_bars (bars p)); [reflexivity | exact Hb].
  - unfold Graph.click_handler. now apply model_set_selected_sync.
  - reflexivity.
Qed.

(** X4.  The view's copy of a selection never parts from the model
    attribute: when the Bars view's [selected_indices] and
    ["idx_selected"] stand for the same selection and the Graph view's
    [selected_indices] equals ["selected"], as [render] leaves them, they
    still do after every sequence of bar clicks, node clicks and
    background clicks. *)
Theorem views_stay_in_sync (p : page) (evs : list ui_event) :
  bars_in_sync (bars p) -> graph_in_sync (graph p) ->
  bars_in_sync (bars (run p evs)) /\ graph_in_sync (graph (run p evs)).
Proof.
  unfold run. revert p. induction evs as [|ev evs IH]; intros p Hb Hg; simpl; [now split|].
  destruct (handle_sync p ev Hb Hg) as [Hb' Hg']. now apply IH.
Qed.

Lemma views_stay_in_sync_witness :
  bars_in_sync
    (bars (run {| bars := {| Bars.select_bars := true; Bars.idx_selected := Some [1];
                             Bars.mark_data_length := 4;
                             Bars.selected_indices := Some [1] |};
                  graph := {| Graph.selected := Some [0]; Graph.selected_indices := Some [0] |} |}
               [BarClick {| ctrlKey := true; shiftKey := false; metaKey := false |} 1;
                NodeClick {| ctrlKey := true; shiftKey := false; metaKey := false |} 3])) /\
  graph_in_sync
    (graph (run {| bars := {| Bars.select_bars := true; Bars.idx_selected := Some [1];
                              Bars.mark_data_length := 4;
                              Bars.selected_indices := Some [1] |};
                   graph := {| Graph.selected := Some [0]; Graph.selected_indices := Some [0] |} |}
               [BarClick {| ctrlKey := true; shiftKey := false; metaKey := false |} 1;
                NodeClick {| ctrlKey := true; shiftKey := false; metaKey := false |} 3])).
Proof.
  apply views_stay_in_sync; reflexivity.
Defined.

(** X5.  Shift-click grows a block into a block: with ["select_bars"] on
    and shift held, when the selected bars are exactly those from [lo] to
    [hi] and the clicked bar [i] lies outside, the selected bars after the
    click are exactly those from [min lo i] to [max hi i]; the length of
    [mark_data] plays no part. *)
Theorem shift_click_extends_block (v : Bars.view) (e : event) (i lo hi : Z) :
  Bars.select_bars v = true ->
  shiftKey e = true ->
  lo <= hi ->
  (forall k, In k (selection (Bars.idx_selected v)) <-> lo <= k <= hi) ->
  i < lo \/ hi < i ->
  forall k,
    In k (selection (Bars.idx_selected (Bars.bar_click_handler v e i)))
    <-> Z.min lo i <= k <= Z.max hi i.
Proof.
  intros Hon Hshift Hlohi Hblock Hout k.
  assert (Hnot : ~ In i (selection (Bars.idx_selected v))) by (rewrite Hblock; lia).
  unfold Bars.bar_click_handler. rewrite Hon, Hshift.
  change (Bars.jQuery_extend (Bars.idx_selected v)) with (selection (Bars.idx_selected v)).
  cbv zeta. rewrite (proj2 (indexOf_not_found _ _) Hnot). cbn [andb].
  rewrite (proj1 (selection_set_idx_selected v _)).
  destruct (selection (Bars.idx_selected v)) as [|a r] eqn:Esel.
  { exfalso. apply (proj2 (Hblock lo)); lia. }
  destruct (fold_max_spec r a) as [Hmax1 Hmax2].
  destruct (fold_min_spec r a) as [Hmin1 Hmin2].
  assert (Hmax : d3_max a r = hi).
  { unfold d3_max. apply Hblock in Hmax1.
    assert (In hi (a :: r)) as Hhi by (apply Hblock; lia). apply Hmax2 in Hhi. lia. }
  assert (Hmin : d3_min a r = lo).
  { unfold d3_min. apply Hblock in Hmin1.
    assert (In lo (a :: r)) as Hlo by (apply Hblock; lia). apply Hmin2 in Hlo. lia. }
  rewrite Hmax, Hmin.
  destruct (Z.gtb_spec i hi) as [Hgt|Hle].
  - rewrite !in_app_iff, Hblock, range_In. simpl. lia.
  - destruct (Z.ltb_spec i lo) as [Hlt|Hge]; [|lia].
    rewrite !in_app_iff, Hblock, range_In. simpl. lia.
Qed.

Lemma shift_click_extends_block_witness :
  In 6 (selection (Bars.idx_selected
    (Bars.bar_click_handler
       {| Bars.select_bars := true; Bars.idx_selected := Some [3; 2; 4];
          Bars.mark_data_length := 9; Bars.selected_indices := Some [3; 2; 4] |}
       {| ctrlKey := false; shiftKey := true; metaKey := false |} 7)))
  <-> Z.min 2 7 <= 6 <= Z.max 4 7.
Proof.
  apply (shift_click_extends_block
           {| Bars.select_bars := true; Bars.idx_selected := Some [3; 2; 4];
              Bars.mark_data_length := 9; Bars.selected_indices := Some [3; 2; 4] |}
           {| ctrlKey := false; shiftKey := true; metaKey := false |} 7 2 4);
    try reflexivity; try lia.
  intros k. simpl. lia.
Defined.

End SelectionFacts.

(** ** Styles and colours *)

Section StyleFacts.
Import JS Spec.

Local Open Scope Z_scope.

Lemma indexOf_from_absent (l : list Z) (x k : Z) : ~ In x l -> indexOf_from l x k = -1.
Proof.
  revert k. induction l as [|a l IH]; intros k Hx; simpl; [reflexivity|].
  destruct (Z.eqb_spec a x) as [->|Hne]; [exfalso; apply Hx; now left|].
  apply IH. intros H. apply Hx. now right.
Qed.

Lemma indexOf_eq_m1 (l : list Z) (x : Z) : (indexOf l x =? -1) = true <-> ~ In x l.
Proof.
  split.
  - intros H Hin. apply indexOf_found in Hin. apply Z.eqb_eq in H.
    rewrite H in Hin. discriminate.
  - intros H. unfold indexOf. rewrite (indexOf_from_absent l x 0 H). reflexivity.
Qed.

Lemma indexOf_neq_m1 (l : list Z) (x : Z) : negb (indexOf l x =? -1) = true <-> In x l.
Proof.
  rewrite negb_true_iff. split.
  - intros H. destruct (in_dec Z.eq_dec x l) as [Hin|Hn]; [exact Hin|].
    apply indexOf_eq_m1 in Hn. congruence.
  - intros Hin. destruct (indexOf l x =? -1) eqn:E; [|reflexivity].
    apply indexOf_eq_m1 in E. contradiction.
Qed.

Lemma contains_In (l : list Z) (x : Z) : Mark._contains l x = true <-> In x l.
Proof.
  unfold Mark._contains. rewrite <- indexOf_found.
  destruct (Z.geb_spec (indexOf l x) 0); destruct (Z.gtb_spec (indexOf l x) (-1));
    split; intros; try reflexivity; try discriminate; lia.
Qed.

Lemma difference_In (array other : list Z) (k : Z) :
  In k (Mark._difference array other) <-> In k array /\ ~ In k other.
Proof.
  unfold Mark._difference. rewrite filter_In, negb_true_iff.
  split; intros [H1 H2]; split; auto.
  - intros Hin. apply contains_In in Hin. congruence.
  - destruct (Mark._contains other k) eqn:E; [|reflexivity].
    apply contains_In in E. contradiction.
Qed.

(** The two ways in which the Mark computes unselected indices agree. *)
Lemma difference_filter (array other : list Z) :
  Mark._difference array other = filter (fun index => indexOf other index =? -1) array.
Proof.
  unfold Mark._difference. apply filter_ext. intros k.
  destruct (indexOf other k =? -1) eqn:E.
  - apply indexOf_eq_m1 in E. apply negb_true_iff.
    destruct (Mark._contains other k) eqn:E'; [|reflexivity].
    apply contains_In in E'. contradiction.
  - apply negb_false_iff. apply contains_In. apply indexOf_neq_m1. now rewrite E.
Qed.

Lemma length_eqb_0 {A : Type} (l : list A) : Nat.eqb (length l) 0 = true <-> l = [].
Proof. destruct l; simpl; split; intros; congruence. Qed.

(** The elements that the Bars view styles in one call. *)
Lemma bars_set_style_In (elements : Z) (style : Mark.style) (l : list Z) (k : Z) :
  In k (Bars.set_style_on_elements elements style (Some l))
  <-> style <> [] /\ 0 <= k < elements /\ In k l.
Proof.
  unfold Bars.set_style_on_elements.
  destruct l as [|a l]; [simpl; tauto|].
  destruct style as [|s style]; [simpl; split; [intros [] | intros [H _]; now apply H]|].
  cbn [length Nat.eqb]. rewrite filter_In, range_In, indexOf_neq_m1.
  split; [intros [H1 H2] | intros (_ & H1 & H2)]; repeat split; auto; try lia; discriminate.
Qed.

Lemma graph_set_style_In (elements : Z) (style : option Mark.style) (l : list Z) (k : Z) :
  In k (Graph.set_style_on_elements elements style (Some l))
  <-> sets_style style /\ 0 <= k < elements /\ In k l.
Proof.
  unfold Graph.set_style_on_elements, sets_style.
  destruct l as [|a l].
  { simpl. split; [intros [] | intros (_ & _ & [])]. }
  cbn [length Nat.eqb].
  destruct style as [[|s style]|]; cbn [length Nat.eqb].
  - split; [intros [] | intros [(st & [= <-] & H) _]; now apply H].
  - rewrite filter_In, range_In, indexOf_neq_m1.
    split; [intros [H1 H2] | intros (_ & H1 & H2)]; repeat split; auto; try lia.
    eexists. split; [reflexivity | discriminate].
  - split; [intros [] | intros [(st & H & _) _]; discriminate].
Qed.

(** X6.  Every bar is painted as selected or as unselected, never as both:
    when the view's [selected_indices] is [null], [apply_styles] styles no
    bar; when it is an array [l] (empty or not), the call with the
    selected style styles exactly the bar groups whose index is in [l],
    and the call with the unselected style exactly the bar groups with an
    index below the length of [mark_data] that is not in [l], each call
    styling nothing when its style object is blank. *)
Theorem bars_apply_styles_partition (elements : Z)
    (selected_style unselected_style : Mark.style) (v : Bars.view) :
  match Bars.selected_indices v with
  | None => Bars.apply_styles elements selected_style unselected_style v = ([], [])
  | Some l =>
      forall k,
        (In k (fst (Bars.apply_styles elements selected_style unselected_style v))
         <-> selected_style <> [] /\ 0 <= k < elements /\ In k l) /\
        (In k (snd (Bars.apply_styles elements selected_style unselected_style v))
         <-> unselected_style <> [] /\ 0 <= k < elements /\
             0 <= k < Bars.mark_data_length v /\ ~ In k l)
  end.
Proof.
  unfold Bars.apply_styles, Mark.apply_styles, Bars.mark_view.
  cbn [Mark.selected_indices Mark.selected_style Mark.unselected_style Mark.mark_data_length].
  destruct (Bars.selected_indices v) as [l|]; [|reflexivity].
  intros k. cbn [fst snd]. split.
  - apply bars_set_style_In.
  - rewrite bars_set_style_In, difference_In, range_In. tauto.
Qed.

Lemma filter_all {A : Type} (f : A -> bool) (l : list A) :
  (forall a, In a l -> f a = true) -> filter f l = l.
Proof.
  induction l as [|a l IH]; intros H; simpl; [reflexivity|].
  rewrite (H a (or_introl eq_refl)), IH; [reflexivity|].
  intros b Hb. apply H. now right.
Qed.

Lemma range_empty (a b : Z) : b <= a -> range a b = [].
Proof. intros H. unfold range. replace (Z.to_nat (b - a)) with 0%nat by lia. reflexivity. Qed.

(** X7.  Deselecting the last bar is not a reset: with ["select_bars"] on,
    a ctrl-click on the only selected bar sets ["idx_selected"] to [null]
    as a click on the background does, but it leaves the view's
    [selected_indices] an empty array where the background click leaves
    [null]; so [apply_styles], which the click handler runs next, gives
    every bar the unselected style, while after a background click it
    styles no bar. *)
Theorem deselecting_last_bar_is_not_reset (elements : Z)
    (selected_style unselected_style : Mark.style) (v : Bars.view) (e : event) (i : Z) :
  Bars.select_bars v = true ->
  Bars.idx_selected v = Some [i] ->
  ctrlKey e = true ->
  unselected_style <> [] ->
  0 <= elements <= Bars.mark_data_length v ->
  Bars.idx_selected (Bars.bar_click_handler v e i) = None /\
  Bars.idx_selected (Bars.reset_selection v) = None /\
  Bars.apply_styles elements selected_style unselected_style (Bars.bar_click_handler v e i)
  = ([], range 0 elements) /\
  Bars.apply_styles elements selected_style unselected_style (Bars.reset_selection v)
  = ([], []).
Proof.
  intros Hon Hsel Hctrl Hstyle Hel.
  assert (H1 : Bars.bar_click_handler v e i = Bars.set_idx_selected v []).
  { unfold Bars.bar_click_handler. rewrite Hon, Hsel, Hctrl. cbn. now rewrite Z.eqb_refl. }
  assert (H2 : Bars.reset_selection v
               = {| Bars.select_bars := Bars.select_bars v; Bars.idx_selected := None;
                    Bars.mark_data_length := Bars.mark_data_length v;
                    Bars.selected_indices := None |}).
  { unfold Bars.reset_selection. now rewrite Hon. }
  rewrite H1, H2. repeat split.
  unfold Bars.apply_styles, Mark.apply_styles, Bars.mark_view, Bars.set_idx_selected.
  cbn [Mark.selected_indices Mark.selected_style Mark.unselected_style Mark.mark_data_length
       Bars.selected_indices Bars.mark_data_length].
  f_equal.
  assert (Hd : Mark._difference (range 0 (Bars.mark_data_length v)) []
               = range 0 (Bars.mark_data_length v)).
  { apply filter_all. intros a _. reflexivity. }
  rewrite Hd. unfold Bars.set_style_on_elements.
  destruct (Nat.eqb (length (range 0 (Bars.mark_data_length v))) 0) eqn:E.
  - apply length_eqb_0 in E.
    destruct (Z.eq_dec elements 0) as [->|Hne]; [reflexivity|].
    exfalso. assert (Hin : In 0 (range 0 (Bars.mark_data_length v))) by (apply range_In; lia).
    rewrite E in Hin. destruct Hin.
  - destruct unselected_style as [|s st]; [congruence|]. cbn [length Nat.eqb].
    apply filter_all. intros a Ha. apply indexOf_neq_m1, range_In.
    apply range_In in Ha. lia.
Qed.

Lemma deselecting_last_bar_is_not_reset_witness :
  Bars.apply_styles 3 [] [("opacity", "0.3")]%string
    (Bars.bar_click_handler
       {| Bars.select_bars := true; Bars.idx_selected := Some [1];
          Bars.mark_data_length := 3; Bars.selected_indices := Some [1] |}
       {| ctrlKey := true; shiftKey := false; metaKey := false |} 1)
  = ([], range 0 3).
Proof.
  refine (proj1 (proj2 (proj2 (deselecting_last_bar_is_not_reset 3 [] [("opacity", "0.3")]%string
            {| Bars.select_bars := true; Bars.idx_selected := Some [1];
               Bars.mark_data_length := 3; Bars.selected_indices := Some [1] |}
            {| ctrlKey := true; shiftKey := false; metaKey := false |} 1
            eq_refl eq_refl eq_refl _ _)))).
  - discriminate.
  - simpl. lia.
Defined.

(** X8.  A changed style repaints what a full restyling would paint: for
    whatever [set_style_on_elements] the mark has, the elements that
    [selected_style_updated] and [unselected_style_updated] style with the
    new style are those that [apply_styles] styles with it in the updated
    view, although the unselected indices are computed in two different
    ways. *)
Theorem style_updated_agrees_with_apply_styles
    (set_style_on_elements : Mark.style -> option (list Z) -> list Z)
    (v : Mark.view) (new_style : Mark.style) :
  snd (Mark.selected_style_updated set_style_on_elements v new_style)
  = fst (Mark.apply_styles set_style_on_elements
           (fst (Mark.selected_style_updated set_style_on_elements v new_style))) /\
  snd (Mark.unselected_style_updated set_style_on_elements v new_style)
  = snd (Mark.apply_styles set_style_on_elements
           (fst (Mark.unselected_style_updated set_style_on_elements v new_style))).
Proof.
  unfold Mark.selected_style_updated, Mark.unselected_style_updated, Mark.apply_styles,
    Mark.style_updated.
  cbn [fst snd Mark.selected_indices Mark.selected_style Mark.unselected_style
       Mark.mark_data_length].
  split; [reflexivity|].
  destruct (Mark.selected_indices v) as [l|]; [|reflexivity].
  now rewrite difference_filter.
Qed.

Lemma point_eqb_eq (a b : option Z) : Graph.point_eqb a b = true <-> a = b.
Proof.
  destruct a as [p|], b as [q|]; simpl; split; intros H; try congruence; try discriminate.
  - apply Z.eqb_eq in H. congruence.
  - injection H as ->. apply Z.eqb_refl.
Qed.

(** X9.  Hovering styles one node: when the hovered point changes to node
    [i], [hover_handler] leaves [hovered_index] the one-element array
    [[i]], and the [apply_styles] that the listener runs gives the hovered
    style to node [i] alone and the unhovered style to every other node
    below the length of [mark_data], each when that style is an object
    that is not blank (a blank or undefined style sets nothing);
    [reset_hover] leaves [hovered_index] null, and the [apply_styles] that
    runs when the hovered point was not null before gives neither style to
    any node. *)
Theorem hover_styles_one_node (elements mark_data_length : Z)
    (hovered_style unhovered_style : option Mark.style) (h : Graph.hover_view) (i : Z) :
  Graph.hovered_point h <> Some i ->
  Graph.hovered_point (Graph.hover_handler h i) = Some i /\
  Graph.hovered_index (Graph.hover_handler h i) = Some [i] /\
  (exists hovered unhovered,
     Graph.hover_handler_styles elements hovered_style unhovered_style
       mark_data_length h i = Some (hovered, unhovered) /\
     forall k,
       (In k hovered <-> sets_style hovered_style /\ 0 <= k < elements /\ k = i) /\
       (In k unhovered
        <-> sets_style unhovered_style /\ 0 <= k < elements /\
            0 <= k < mark_data_length /\ k <> i)) /\
  Graph.hovered_index (Graph.reset_hover h) = None /\
  Graph.reset_hover_styles elements hovered_style unhovered_style mark_data_length h
  = match Graph.hovered_point h with
    | Some _ => Some ([], [])
    | None => None
    end.
Proof.
  intros Hchange.
  assert (Hne : Graph.point_eqb (Graph.hovered_point h) (Some i) = false).
  { destruct (Graph.point_eqb (Graph.hovered_point h) (Some i)) eqn:E; [|reflexivity].
    apply point_eqb_eq in E. contradiction. }
  assert (Hh : Graph.hover_handler h i
               = {| Graph.hovered_point := Some i; Graph.hovered_index := Some [i] |}).
  { unfold Graph.hover_handler, Graph.model_set_hovered_point. now rewrite Hne. }
  unfold Graph.hover_handler_styles, Graph.set_hovered_point_styles.
  fold (Graph.hover_handler h i). rewrite Hne, Hh.
  split; [reflexivity|]. split; [reflexivity|]. split; [|split; [reflexivity|]].
  - eexists. eexists. split; [reflexivity|].
    intros k. cbn [Graph.hovered_index]. split.
    + rewrite graph_set_style_In. simpl. intuition congruence.
    + rewrite graph_set_style_In, difference_In, range_In. simpl. intuition congruence.
  - unfold Graph.reset_hover_styles, Graph.set_hovered_point_styles.
    clear. destruct h as [[p|] hi]; reflexivity.
Qed.

Lemma hover_styles_one_node_witness :
  Graph.hovered_index
    (Graph.hover_handler {| Graph.hovered_point := Some 0; Graph.hovered_index := None |} 2)
  = Some [2] /\
  Graph.hover_handler_styles 4 (Some [("fill", "red")]%string)
    (Some [("opacity", "0.5")]%string) 4
    {| Graph.hovered_point := Some 0; Graph.hovered_index := None |} 2
  = Some ([2], [0; 1; 3]).
Proof.
  split.
  - refine (proj1 (proj2 (hover_styles_one_node 4 4 (Some [("fill", "red")]%string)
              (Some [("opacity", "0.5")]%string)
              {| Graph.hovered_point := Some 0; Graph.hovered_index := None |} 2 _))).
    discriminate.
  - reflexivity.
Defined.

(** X10.  A hover on the node that the hovered point names restyles
    nothing, and node 0 is lost at render: when the view is rendered with
    ["hovered_point"] equal to [p] and node [p] is hovered next, no
    listener runs, so nothing is styled and [hovered_index] stays what
    [render] made it, which is [[p]] exactly when [p] is not 0, [render]
    reading the index 0 as no hovered point. *)
Theorem hovered_node_zero_after_render (elements mark_data_length : Z)
    (hovered_style unhovered_style : option Mark.style) (p : Z) :
  let h := {| Graph.hovered_point := Some p;
              Graph.hovered_index := Graph.render_hovered_index (Some p) |} in
  Graph.hover_handler_styles elements hovered_style unhovered_style
    mark_data_length h p = None /\
  Graph.hovered_index (Graph.hover_handler h p) = Graph.render_hovered_index (Some p) /\
  (Graph.hovered_index (Graph.hover_handler h p) = Some [p] <-> p <> 0) /\
  (p = 0 -> Graph.hovered_index (Graph.hover_handler h p) = None).
Proof.
  intros h. subst h.
  unfold Graph.hover_handler_styles, Graph.set_hovered_point_styles,
    Graph.hover_handler, Graph.model_set_hovered_point.
  cbn [Graph.hovered_point Graph.hovered_index Graph.point_eqb]. rewrite Z.eqb_refl.
  split; [reflexivity|]. split; [reflexivity|].
  unfold Graph.render_hovered_index.
  destruct (Z.eqb_spec p 0) as [->|Hp].
  - split; [|reflexivity]. split; [discriminate | intros H; now contradiction H].
  - split; [|intros H; contradiction]. split; [intros _; exact Hp | reflexivity].
Qed.

Lemma get_colors_nonempty {C : Type} (colors : list C) (index : Z) :
  colors <> [] -> 0 <= index ->
  (exists c, Mark.get_colors colors index = Some c /\ In c colors) /\
  Mark.get_colors colors (index + Z.of_nat (length colors))
  = Mark.get_colors colors index /\
  (index < Z.of_nat (length colors) ->
     Mark.get_colors colors index = nth_error colors (Z.to_nat index)).
Proof.
  intros Hne Hidx. unfold Mark.get_colors. cbv zeta.
  set (len := Z.of_nat (length colors)).
  assert (Hlen : 0 < len) by (subst len; destruct colors; [congruence | simpl; lia]).
  replace (len =? 0) with false by (symmetry; apply Z.eqb_neq; lia).
  assert (Hrem : forall j, 0 <= j -> 0 <= Z.rem j len < len)
    by (intros j Hj; apply Z.rem_bound_pos; lia).
  assert (Hcycle : Z.rem (index + len) len = Z.rem index len).
  { rewrite !Z.rem_mod_nonneg by lia.
    replace (index + len) with (index + 1 * len) by lia. apply Z.mod_add. lia. }
  rewrite Hcycle.
  replace (Z.rem index len <? 0) with false
    by (symmetry; apply Z.ltb_ge; apply (Hrem index Hidx)).
  split; [|split; [reflexivity|]].
  - destruct (nth_error colors (Z.to_nat (Z.rem index len))) as [c|] eqn:E.
    + exists c. split; [reflexivity | now apply nth_error_In in E].
    + apply nth_error_None in E. specialize (Hrem index Hidx). subst len. lia.
  - intros Hlt. rewrite Z.rem_small by lia. reflexivity.
Qed.

(** X11.  The palette is cycled: for a palette that is not empty and an
    index that is not negative, [get_colors] returns a colour of the
    palette, the one at the index itself when that is below the length of
    the palette, and the same colour again one palette length further;
    for an empty palette it returns [undefined]. *)
Theorem get_colors_cycles {C : Type} (colors : list C) (index : Z) :
  (colors = [] -> Mark.get_colors colors index = None) /\
  (colors <> [] -> 0 <= index ->
     (exists c, Mark.get_colors colors index = Some c /\ In c colors) /\
     Mark.get_colors colors (index + Z.of_nat (length colors))
     = Mark.get_colors colors index /\
     (index < Z.of_nat (length colors) ->
        Mark.get_colors colors index = nth_error colors (Z.to_nat index))).
Proof.
  split; [intros ->; reflexivity | apply get_colors_nonempty].
Qed.

Lemma get_colors_cycles_witness :
  Mark.get_colors ["red"; "green"; "blue"]%string (1 + 3)
  = Mark.get_colors ["red"; "green"; "blue"]%string 1.
Proof.
  refine (proj1 (proj2 (proj2 (get_colors_cycles ["red"; "green"; "blue"]%string 1) _ _))).
  - discriminate.
  - lia.
Defined.

(** X12.  Fills fall back on the palette, and a null colour tells the
    graph from the bars: the colour of a graph node and the fill of a bar
    are the colour scale applied to the datum's colour value when there is
    a scale and a value, whatever the palette; for a colour that is [null]
    the graph still applies the scale (its test is [!== undefined]) while
    the bars take the palette (their test is [!= undefined]); without a
    scale, or for a colour that is [undefined], both take the palette
    colour [get_colors] gives for the index, so that, with a palette that
    is not empty, the elements at a non-negative index [i] and one palette
    length further are filled alike. *)
Theorem fills_fall_back_on_palette {D C : Type} (color_scale : option (option D -> C))
    (colors : list C) (d_color : maybe D) (i : Z) :
  (forall scale c, color_scale = Some scale -> d_color = Defined c ->
     Graph.get_node_color color_scale colors d_color i = Some (scale (Some c)) /\
     Bars.fill color_scale colors d_color i = Some (scale (Some c))) /\
  (forall scale, color_scale = Some scale -> d_color = Null ->
     Graph.get_node_color color_scale colors d_color i = Some (scale None) /\
     Bars.fill color_scale colors d_color i = Mark.get_colors colors i) /\
  (color_scale = None \/ d_color = Undefined ->
     Graph.get_node_color color_scale colors d_color i = Mark.get_colors colors i /\
     Bars.fill color_scale colors d_color i = Mark.get_colors colors i /\
     (colors <> [] -> 0 <= i ->
        Graph.get_node_color color_scale colors d_color (i + Z.of_nat (length colors))
        = Graph.get_node_color color_scale colors d_color i /\
        Graph.get_node_color color_scale colors d_color i <> None)).
Proof.
  split; [intros scale c -> ->; split; reflexivity|].
  split; [intros scale -> ->; split; reflexivity|].
  intros Hno.
  assert (Hfall : forall j, Graph.get_node_color color_scale colors d_color j
                            = Mark.get_colors colors j).
  { intros j. destruct Hno as [-> | ->]; [reflexivity | destruct color_scale; reflexivity]. }
  split; [apply Hfall|].
  split; [destruct Hno as [-> | ->]; [destruct d_color; reflexivity | reflexivity]|].
  intros Hne Hi. rewrite !Hfall.
  destruct (get_colors_nonempty colors i Hne Hi) as ((c & Hc & _) & Hcyc & _).
  split; [exact Hcyc | congruence].
Qed.

Lemma fills_fall_back_on_palette_witness :
  (Graph.get_node_color (Some (fun c : option Z => "grey"%string))
     ["red"; "blue"]%string Null 1 = Some "grey"%string /\
   Bars.fill (Some (fun c : option Z => "grey"%string))
     ["red"; "blue"]%string Null 1 = Mark.get_colors ["red"; "blue"]%string 1) /\
  Graph.get_node_color (@None (option Z -> string)) ["red"; "blue"]%string (Defined 5) (1 + 2)
  = Graph.get_node_color (@None (option Z -> string)) ["red"; "blue"]%string (Defined 5) 1.
Proof.
  split.
  - apply (proj1 (proj2 (fills_fall_back_on_palette
              (Some (fun c : option Z => "grey"%string)) ["red"; "blue"]%string Null 1))
             _ eq_refl eq_refl).
  - refine (proj1 (proj2 (proj2 (proj2 (proj2 (fills_fall_back_on_palette
              (@None (option Z -> string)) ["red"; "blue"]%string (Defined 5) 1)) _)) _ _)).
    + now left.
    + discriminate.
    + lia.
Defined.

End StyleFacts.

(** ** Node and link data of the graph model *)

Section GraphDataFacts.
Import GraphModel Spec.

Local Open Scope nat_scope.

Lemma map_from_length {A B : Type} (f : A -> nat -> B) (l : list A) (i : nat) :
  length (map_from f l i) = length l.
Proof. revert i; induction l as [|a l IH]; intros i; simpl; auto. Qed.

Lemma map_from_nth_error {A B : Type} (f : A -> nat -> B) (l : list A) (i k : nat) :
  nth_error (map_from f l i) k = option_map (fun a => f a (i + k)) (nth_error l k).
Proof.
  revert i k; induction l as [|a l IH]; intros i [|k]; simpl; try reflexivity.
  - now rewrite Nat.add_0_r.
  - rewrite IH. now replace (S i + k) with (i + S k) by lia.
Qed.

(** X13.  One node per label, numbered by position: the [mark_data] that
    [update_node_data] builds has as many nodes as there are labels,
    whatever the lengths of the x, y and colour data; the node at
    position [i] has [index] [i] and the [i]-th label as its [name]; when
    the x data and the y data are both non-empty its [x], [y] and [color]
    are the [i]-th entries of the data ([undefined] past their end), and as
    soon as one of the two is empty no node has a coordinate, a colour or a
    [node_label]. *)
Theorem update_node_data_nodes {L X C : Type} (node_labels : list L)
    (x_data y_data : list X) (color_data : list C) :
  length (update_node_data node_labels x_data y_data color_data) = length node_labels /\
  forall i d,
    nth_error (update_node_data node_labels x_data y_data color_data) i = Some d ->
    index d = i /\
    nth_error node_labels i = Some (name d) /\
    (x_data <> [] /\ y_data <> [] ->
       x d = nth_error x_data i /\ y d = nth_error y_data i /\
       color d = nth_error color_data i /\ node_label d = Some (name d)) /\
    (x_data = [] \/ y_data = [] ->
       x d = None /\ y d = None /\ color d = None /\ node_label d = None).
Proof.
  unfold update_node_data. split.
  - destruct (negb (Nat.eqb (length x_data) 0) && negb (Nat.eqb (length y_data) 0));
      apply map_from_length.
  - intros i d.
    destruct (negb (Nat.eqb (length x_data) 0) && negb (Nat.eqb (length y_data) 0)) eqn:E;
      rewrite map_from_nth_error; destruct (nth_error node_labels i) as [a|] eqn:Ea;
      cbn [option_map]; try discriminate; intros [= <-];
      cbn [index name x y color node_label].
    + apply andb_true_iff in E. destruct E as [Ex Ey].
      split; [reflexivity|]. split; [reflexivity|]. split; [now repeat split|].
      intros [-> | ->]; discriminate.
    + split; [reflexivity|]. split; [reflexivity|]. split; [|now repeat split].
      intros [Hx Hy]. exfalso.
      destruct x_data; [congruence|]. destruct y_data; [congruence|]. discriminate.
Qed.

Lemma update_node_data_nodes_witness :
  exists d,
    nth_error (update_node_data ["a"; "b"]%string [10; 20]%Z [30]%Z ([] : list Z)) 1 = Some d /\
    index d = 1 /\ x d = Some 20%Z /\ y d = None /\ node_label d = Some (name d).
Proof.
  eexists. split; [reflexivity|].
  destruct (proj2 (update_node_data_nodes ["a"; "b"]%string [10; 20]%Z [30]%Z ([] : list Z))
              1 _ eq_refl) as (Hi & _ & Hxy & _).
  destruct Hxy as (Hx & Hy & _ & Hl); [split; discriminate|].
  repeat split; assumption.
Defined.

Lemma row_links_length {V : Type} (i j : nat) (row : list (option V)) :
  length (row_links i j row) = non_null row.
Proof.
  unfold non_null. revert j; induction row as [|[e|] row IH]; intros j; simpl; auto.
Qed.

Lemma matrix_links_length {V : Type} (i : nat) (m : list (list (option V))) :
  length (matrix_links i m) = non_null_entries m.
Proof.
  revert i; induction m as [|row m IH]; intros i; simpl; [reflexivity|].
  now rewrite length_app, row_links_length, IH.
Qed.

Lemma entry_in_matrix {V : Type} (m : list (list (option V))) (i j : nat) (e : V) :
  entry m i j = Some e ->
  i < length m /\ exists row, nth_error m i = Some row /\ j < length row.
Proof.
  unfold entry. intros H.
  destruct (nth_error m i) as [row|] eqn:Er; [|discriminate].
  split; [apply nth_error_Some; congruence|].
  exists row. split; [reflexivity|].
  apply nth_error_Some. destruct (nth_error row j); [discriminate | discriminate].
Qed.

(** X14.  As many links as non-null entries: the [link_data] that
    [update_link_data] builds has one record for each entry of the link
    matrix that is not [null], so none for a matrix that is empty or holds
    [null] only; and every record points inside the matrix, its source
    being the index of a row and its target a column of that row. *)
Theorem update_link_data_count {V : Type} (m : model V) :
  length (link_data (update_link_data m)) = non_null_entries (link_matrix m) /\
  forall l, In l (link_data (update_link_data m)) ->
    source l < length (link_matrix m) /\
    exists row, nth_error (link_matrix m) (source l) = Some row /\ target l < length row.
Proof.
  rewrite update_link_data_links. split; [apply matrix_links_length|].
  intros l Hl. apply matrix_links_In in Hl. destruct Hl as (k & Hk & He).
  simpl in Hk. rewrite Hk. now apply entry_in_matrix in He.
Qed.

Lemma update_link_data_count_witness :
  source {| source := 0; target := 1; value := 7%Z |}
  < length (link_matrix {| link_matrix := [[None; Some 7%Z]; [None; None]];
                           link_data := [] |}).
Proof.
  refine (proj1 (proj2 (update_link_data_count
            {| link_matrix := [[None; Some 7%Z]; [None; None]]; link_data := [] |})
            {| source := 0; target := 1; value := 7%Z |} _)).
  simpl. now left.
Defined.

(** X15.  Links join nodes that exist: after [update_data], when the link
    matrix has no more rows than there are node labels and no row longer
    than that, the source and the target of every link are positions of
    nodes of [mark_data], and the nodes found there carry these positions
    as their [index]. *)
Theorem update_data_links_join_nodes {L X C V : Type} (node_labels : list L)
    (x_data y_data : list X) (color_data : list C) (m : model V) :
  length (link_matrix m) <= length node_labels ->
  (forall row, In row (link_matrix m) -> length row <= length node_labels) ->
  forall l,
    In l (link_data (snd (update_data node_labels x_data y_data color_data m))) ->
    exists s t,
      nth_error (fst (update_data node_labels x_data y_data color_data m)) (source l) = Some s /\
      nth_error (fst (update_data node_labels x_data y_data color_data m)) (target l) = Some t /\
      index s = source l /\ index t = target l.
Proof.
  intros Hrows Hcols l Hl. unfold update_data in *. cbn [fst snd] in *.
  rewrite update_link_data_links in Hl. apply matrix_links_In in Hl.
  destruct Hl as (k & Hk & He). simpl in Hk. apply entry_in_matrix in He.
  destruct He as (Hlt & row & Hrow & Hj). rewrite <- Hk in *.
  assert (Hin : In row (link_matrix m)) by (eapply nth_error_In; eassumption).
  specialize (Hcols row Hin).
  set (md := update_node_data node_labels x_data y_data color_data).
  assert (Hlen : length md = length node_labels).
  { unfold md, update_node_data.
    destruct (negb (Nat.eqb (length x_data) 0) && negb (Nat.eqb (length y_data) 0));
      apply map_from_length. }
  assert (Hidx : forall i d, nth_error md i = Some d -> index d = i).
  { intros i d. unfold md, update_node_data.
    destruct (negb (Nat.eqb (length x_data) 0) && negb (Nat.eqb (length y_data) 0));
      rewrite map_from_nth_error; destruct (nth_error node_labels i); cbn [option_map];
      try discriminate; intros [= <-]; reflexivity. }
  destruct (nth_error md (source l)) as [s|] eqn:Es;
    [|apply nth_error_None in Es; lia].
  destruct (nth_error md (target l)) as [t|] eqn:Et;
    [|apply nth_error_None in Et; lia].
  exists s, t. repeat split; auto.
Qed.

Lemma update_data_links_join_nodes_witness :
  exists s t,
    nth_error (fst (update_data ["a"; "b"]%string [1%Z; 2%Z] [3%Z; 4%Z] ([] : list Z)
                      {| link_matrix := [[None; Some 7%Z]; [None; None]]; link_data := [] |}))
              0 = Some s /\
    nth_error (fst (update_data ["a"; "b"]%string [1%Z; 2%Z] [3%Z; 4%Z] ([] : list Z)
                      {| link_matrix := [[None; Some 7%Z]; [None; None]]; link_data := [] |}))
              1 = Some t /\
    index s = 0 /\ index t = 1.
Proof.
  apply (update_data_links_join_nodes ["a"; "b"]%string [1%Z; 2%Z] [3%Z; 4%Z] ([] : list Z)
           {| link_matrix := [[None; Some 7%Z]; [None; None]]; link_data := [] |}
           ltac:(simpl; lia)
           ltac:(intros row [<-|[<-|[]]]; simpl; lia)
           {| source := 0; target := 1; value := 7%Z |}).
  simpl. now left.
Defined.

End GraphDataFacts.

(** ** Repeated placement of the nodes *)

Section PlacementFacts.

Variable coord : Type.
Variable num : Type.
Variable plus : num -> num -> num.

Lemma update_position_keeps_pins (sc : Graph.scales coord num)
    (mark_data : list (Graph.node coord num)) :
  Forall (fun d => Graph.fixed d = Some true) mark_data ->
  Forall (fun d => Graph.fixed d = Some true) (Graph.update_position plus sc mark_data).
Proof.
  intros H. unfold Graph.update_position.
  destruct (Graph.scales_x sc) as [xs|], (Graph.scales_y sc) as [ys|];
    rewrite ?Forall_map; try exact H;
    (eapply Forall_impl; [|exact H]); intros d Hd; simpl; auto.
Qed.

Lemma update_position_pins (sc : Graph.scales coord num)
    (mark_data : list (Graph.node coord num)) :
  Graph.scales_x sc <> None ->
  Forall (fun d => Graph.fixed d = Some true) (Graph.update_position plus sc mark_data).
Proof.
  intros Hx. unfold Graph.update_position.
  destruct (Graph.scales_x sc) as [xs|]; [|congruence].
  destruct (Graph.scales_y sc) as [ys|]; rewrite ?Forall_map;
    apply Forall_forall; intros d _; reflexivity.
Qed.

(** X16.  Placing the nodes again changes nothing, and a pin is never
    taken off: [update_position] applied to its own result returns it
    unchanged, and once it has run with an x scale view every node is
    still [fixed] after any later run of [update_position] or [draw], with
    whatever scales, an x scale view or none. *)
Theorem update_position_idempotent (sc sc' : Graph.scales coord num)
    (mark_data : list (Graph.node coord num)) :
  Graph.update_position plus sc (Graph.update_position plus sc mark_data)
  = Graph.update_position plus sc mark_data /\
  (Graph.scales_x sc <> None ->
     Forall (fun d => Graph.fixed d = Some true)
       (Graph.update_position plus sc' (Graph.update_position plus sc mark_data)) /\
     Forall (fun d => Graph.fixed d = Some true)
       (Graph.draw plus sc' (Graph.update_position plus sc mark_data))).
Proof.
  change (Graph.draw plus sc') with (Graph.update_position plus sc').
  split.
  - unfold Graph.update_position.
    destruct (Graph.scales_x sc) as [xs|], (Graph.scales_y sc) as [ys|];
      rewrite ?map_map; try reflexivity; apply map_ext; intros d; reflexivity.
  - intros Hx. split; apply update_position_keeps_pins, update_position_pins, Hx.
Qed.

End PlacementFacts.

Lemma update_position_idempotent_witness :
  Forall (fun d => Graph.fixed d = Some true)
    (Graph.update_position Z.add {| Graph.scales_x := None; Graph.scales_y := None |}
       (Graph.update_position Z.add
          {| Graph.scales_x := Some {| Graph.scale := fun c : Z => c; Graph.offset := 0%Z |};
             Graph.scales_y := None |}
          [{| Graph.x := 1%Z; Graph.y := 2%Z; Graph.x_px := None; Graph.y_px := None;
              Graph.fixed := None |}])).
Proof.
  refine (proj1 (proj2 (update_position_idempotent Z Z Z.add
            {| Graph.scales_x := Some {| Graph.scale := fun c : Z => c; Graph.offset := 0%Z |};
               Graph.scales_y := None |}
            {| Graph.scales_x := None; Graph.scales_y := None |}
            [{| Graph.x := 1%Z; Graph.y := 2%Z; Graph.x_px := None; Graph.y_px := None;
                Graph.fixed := None |}]) _)).
  discriminate.
Defined.

(** ** Precision and the sign of the ticks *)

Section SymmetryFacts.
Import Num TickFormatter.

Local Open Scope Q_scope.

Lemma Qabs_opp_eq (x : Q) : Qabs (- x) = Qabs x.
Proof. destruct x as [a b]. unfold Qabs, Qopp. simpl. now rewrite Z.abs_opp. Qed.

Lemma Qabs_sub_opp_eq (x y : Q) : Qabs (- x - - y) = Qabs (x - y).
Proof.
  destruct x as [a b], y as [c d]. unfold Qabs, Qminus, Qplus, Qopp. simpl.
  f_equal. rewrite <- Z.abs_opp. f_equal. ring.
Qed.

Lemma index_map_VNum (qs : list Q) (i : Z) :
  to_number (index (map VNum qs) i)
  = if (i <? 0)%Z then None else nth_error qs (Z.to_nat i).
Proof.
  unfold index. destruct (i <? 0)%Z; [reflexivity|].
  generalize (Z.to_nat i). induction qs as [|q qs IH]; intros [|n]; simpl; auto.
Qed.

Lemma index_map_opp (qs : list Q) (i : Z) :
  to_number (index (map VNum (map Qopp qs)) i)
  = option_map Qopp (to_number (index (map VNum qs) i)).
Proof.
  rewrite !index_map_VNum. destruct (i <? 0)%Z; [reflexivity | apply nth_error_map].
Qed.

(** X17.  The precision depends on magnitudes only: negating every tick
    of a numeric tick list leaves the result of [_linear_scale_precision]
    unchanged. *)
Theorem linear_scale_precision_sign (log10 : Q -> Q) (sc : axis_scale) (qs : list Q) :
  _linear_scale_precision log10 sc (Some (map VNum (map Qopp qs)))
  = _linear_scale_precision log10 sc (Some (map VNum qs)).
Proof.
  unfold _linear_scale_precision. cbv zeta.
  rewrite !length_map, !index_map_opp.
  assert (Hdiff : forall a b : option Q,
            Num.abs (Num.sub (option_map Qopp a) (option_map Qopp b))
            = Num.abs (Num.sub a b)).
  { intros [a|] [b|]; try reflexivity.
    unfold Num.abs, Num.sub, lift1, lift2. cbn [option_map]. f_equal.
    apply Qabs_sub_opp_eq. }
  assert (Habs : forall a : option Q, Num.abs (option_map Qopp a) = Num.abs a).
  { intros [a|]; [|reflexivity].
    unfold Num.abs, lift1. cbn [option_map]. f_equal. apply Qabs_opp_eq. }
  now rewrite Hdiff, !Habs.
Qed.

End SymmetryFacts.

(** ** Further properties of the tick helpers *)

Section TickHelperFacts.
Import Num TickFormatter Spec.

Local Open Scope Q_scope.

(** X18.  [_get_digits] counts the digits of the integer part as far as
    [Math.log10] tells them: for a logarithm that is monotone and whose
    floor is exact from a power of ten up to 1% below the next, and a
    number [x] other than zero, it returns a [d] with
    [0.99 * 10 ^ (d - 1) < |x| < 10 ^ d] (so [d <= 0] for magnitudes
    below 0.99), which is the [k + 1] of [10 ^ k <= |x|] whenever [|x|] is
    not within 1% below [10 ^ (k + 1)]; for zero it returns 1 and for NaN
    it returns NaN. *)
Theorem get_digits_counts_integer_digits (log10 : Q -> Q) (x : Q) :
  log10_floors log10 ->
  (x == 0 -> _get_digits log10 (Some x) = Some 1%Z) /\
  (~ x == 0 ->
     exists d, _get_digits log10 (Some x) = Some d /\
               (99 # 100) * 10 ^ (d - 1) < Qabs x /\ Qabs x < 10 ^ d) /\
  (forall k, 10 ^ k <= Qabs x -> Qabs x <= (99 # 100) * 10 ^ (k + 1) ->
     _get_digits log10 (Some x) = Some (k + 1)%Z) /\
  _get_digits log10 None = None.
Proof.
  intros Hlog.
  assert (Hpos : ~ x == 0 -> 0 < Qabs x).
  { intros Hx. destruct (Qabs_bounds x) as (H1 & H2 & H3).
    destruct (Qlt_le_dec 0 (Qabs x)) as [H|H]; [exact H|].
    exfalso. apply Hx. lra. }
  split; [|split; [|split; [|reflexivity]]].
  - intros Hx. unfold _get_digits. now rewrite (proj2 (Qeq_bool_iff x 0) Hx).
  - intros Hx. rewrite (get_digits_nonzero log10 x Hx).
    exists (Qfloor (log10 (Qabs x)) + 1)%Z. split; [reflexivity|].
    destruct (log10_floor_spec log10 Hlog (Qabs x) (Hpos Hx)) as [Hlo Hhi].
    replace (Qfloor (log10 (Qabs x)) + 1 - 1)%Z with (Qfloor (log10 (Qabs x))) by lia.
    now split.
  - intros k Hlo Hhi.
    assert (Hk : 0 < 10 ^ k) by (apply Qpower_0_lt; reflexivity).
    assert (Hx : ~ x == 0).
    { intros Hx. rewrite Hx in Hlo. change (Qabs 0) with 0 in Hlo. lra. }
    rewrite (get_digits_nonzero log10 x Hx).
    now rewrite (proj2 Hlog k (Qabs x) Hlo Hhi).
Qed.

Lemma get_digits_counts_integer_digits_witness :
  _get_digits integer_log10 (Some (12345 # 10)) = Some (3 + 1)%Z.
Proof.
  apply (proj1 (proj2 (proj2 (get_digits_counts_integer_digits integer_log10 (12345 # 10)
                                integer_log10_floors))) 3%Z).
  - unfold Qle. simpl. lia.
  - unfold Qle. simpl. lia.
Defined.

Lemma index_short (tks : list value) : (length tks < 2)%nat -> index tks 1 = VUndefined.
Proof.
  destruct tks as [|a [|b tks]]; simpl; intros H; try reflexivity. lia.
Qed.

(** X19.  Without a numeric gap the date format is the coarsest: when the
    tick list has fewer than two entries, or one of its first two entries
    is not a date or a number, [date_sc_format] returns the three-level
    format of days, months and years. *)
Theorem date_sc_format_without_gap (sc : axis_scale) (tks : option (list value)) :
  let tks' := match tks with Some t => t | None => ticks sc end in
  (length tks' < 2)%nat \/
  to_number (index tks' 1) = None \/ to_number (index tks' 0) = None ->
  date_sc_format sc tks
  = [("%b %d", getDate_is_not_1); ("%b %Y", getMonth); ("%Y", always_true)]%string.
Proof.
  intros tks' H.
  assert (Hdiff : Num.abs (Num.sub (to_number (index tks' 1)) (to_number (index tks' 0)))
                  = None).
  { destruct H as [H|[H|H]].
    - now rewrite (index_short tks' H).
    - now rewrite H.
    - rewrite H. now destruct (to_number (index tks' 1)). }
  unfold date_sc_format. fold tks'. cbv zeta. rewrite Hdiff. reflexivity.
Qed.

Lemma date_sc_format_without_gap_witness :
  date_sc_format {| model_type := "date"%string; domain := []; ticks := [VDate 86400000] |} None
  = [("%b %d", getDate_is_not_1); ("%b %Y", getMonth); ("%Y", always_true)]%string.
Proof.
  apply date_sc_format_without_gap. left. simpl. lia.
Defined.

Lemma precision_short_ticks (log10 : Q -> Q) (sc : axis_scale) (tks : option (list value)) :
  (length (match tks with Some t => t | None => ticks sc end) < 2)%nat ->
  _linear_scale_precision log10 sc tks = PUndefined.
Proof.
  intros H. unfold _linear_scale_precision. cbv zeta.
  rewrite (index_short _ H). cbn [to_number Num.sub lift2 Num.abs lift1].
  replace (Num.sub None (to_number (index match tks with Some t => t | None => ticks sc end 0)))
    with (@None Q) by (unfold Num.sub, lift2; reflexivity).
  cbn [Num.abs lift1 _get_digits zcmp]. rewrite andb_false_r. reflexivity.
Qed.

Section ShortTicks.

Variable log10 : Q -> Q.
Variable d3_format : string -> signed -> string.

(** X20.  Fewer than two ticks give no precision: for a tick list with
    fewer than two entries [_linear_scale_precision] returns [undefined],
    and the formatter of [linear_sc_format] then asks d3 for the format
    [".undefinedg"], and for [".undefinede"] when that string has 6 or
    more characters besides sign, dot and [e]. *)
Theorem linear_sc_format_short_ticks (sc : axis_scale) (tks : option (list value))
    (number : Q) :
  (length (match tks with Some t => t | None => ticks sc end) < 2)%nat ->
  _linear_scale_precision log10 sc tks = PUndefined /\
  linear_sc_format log10 d3_format sc tks number
  = let str := d3_format ".undefinedg"%string (Finite number) in
    if (String.length (strip_sign_dot_e str) <? 6)%nat then _replace_trailing_zeros str
    else _replace_trailing_zeros (d3_format ".undefinede"%string (Finite number)).
Proof.
  intros H. split; [now apply precision_short_ticks|].
  unfold linear_sc_format. rewrite (precision_short_ticks log10 sc tks H). reflexivity.
Qed.

End ShortTicks.

Lemma linear_sc_format_short_ticks_witness :
  _linear_scale_precision integer_log10
    {| model_type := "linear"%string; domain := []; ticks := [] |}
    (Some [VNum 5]) = PUndefined.
Proof.
  refine (proj1 (linear_sc_format_short_ticks integer_log10 D3.integer_format
            {| model_type := "linear"%string; domain := []; ticks := [] |} (Some [VNum 5]) 0 _)).
  simpl. lia.
Defined.

(** The number [n] of indices [0, step, 2 * step, ...] below [len]. *)
Lemma subsample_count (len N step : Z) (n : nat) :
  (2 <= N)%Z -> (N < len)%Z -> step = (len / (N - 1))%Z ->
  (forall k, (k < n)%nat <-> (k * Z.to_nat step < Z.to_nat len)%nat) ->
  (N - 1 <= Z.of_nat n <= 2 * N - 3)%Z.
Proof.
  intros HN Hlen Hstep Hn.
  assert (Hd : (N - 1 <> 0)%Z) by lia.
  pose proof (Z.div_mod len (N - 1) Hd) as Hdm.
  pose proof (Z.mod_pos_bound len (N - 1) ltac:(lia)) as Hmod.
  rewrite <- Hstep in Hdm.
  assert (Hs1 : (1 <= step)%Z).
  { rewrite Hstep. apply Z.div_le_lower_bound; lia. }
  assert (Hge : ~ (n * Z.to_nat step < Z.to_nat len)%nat).
  { intros H. apply Hn in H. lia. }
  assert (Hn0 : (0 < n)%nat).
  { apply Hn. simpl. lia. }
  assert (Hlt : ((n - 1) * Z.to_nat step < Z.to_nat len)%nat).
  { apply Hn. lia. }
  assert (Hge' : (len <= Z.of_nat n * step)%Z) by nia.
  assert (Hlt' : ((Z.of_nat n - 1) * step < len)%Z) by nia.
  split; nia.
Qed.

(** X21.  How many ticks a sub-sampled array gives: for [num_ticks >= 2]
    and a data array (the domain, on an ordinal scale) with more than
    [num_ticks] entries, [get_ticks] returns at least [num_ticks - 1] and
    at most [2 * num_ticks - 3] ticks, and each of them is an entry of the
    array. *)
Theorem get_ticks_subsample_size (fl : Q -> Q) (sc : axis_scale) (num_ticks : Z)
    (data_array : option (list value)) (arr : list value) :
  (2 <= num_ticks)%Z ->
  (if String.eqb (model_type sc) "ordinal"%string then Some (domain sc) else data_array)
  = Some arr ->
  (num_ticks < Z.of_nat (length arr))%Z ->
  exists tks,
    get_ticks fl sc num_ticks data_array = Some tks /\
    (num_ticks - 1 <= Z.of_nat (length tks) <= 2 * num_ticks - 3)%Z /\
    forall t, In t tks -> In t arr.
Proof.
  intros HN Harr Hlen. unfold get_ticks. rewrite Harr.
  replace (num_ticks <? 2)%Z with false by (symmetry; apply Z.ltb_ge; lia).
  replace (Z.of_nat (length arr) <=? num_ticks)%Z with false
    by (symmetry; apply Z.leb_gt; lia).
  destruct (range_indices arr num_ticks HN Hlen) as (Hstep & n & Hmap & Hn).
  eexists. split; [reflexivity|]. cbv zeta. rewrite Hmap. split.
  - rewrite length_map, length_seq.
    apply (subsample_count (Z.of_nat (length arr)) num_ticks
             (Z.of_nat (length arr) / (num_ticks - 1))); auto.
    intros k. rewrite Nat2Z.id. apply Hn.
  - intros t Ht. apply in_map_iff in Ht. destruct Ht as (k & <- & Hk).
    apply in_seq in Hk. apply nth_In. apply Hn. lia.
Qed.

Lemma get_ticks_subsample_size_witness :
  exists tks,
    get_ticks exact_arithmetic
      {| model_type := "linear"%string; domain := []; ticks := [] |} 3
      (Some [VNum 1; VNum 2; VNum 3; VNum 4; VNum 5]) = Some tks /\
    (3 - 1 <= Z.of_nat (length tks) <= 2 * 3 - 3)%Z /\
    forall t, In t tks -> In t [VNum 1; VNum 2; VNum 3; VNum 4; VNum 5].
Proof.
  apply get_ticks_subsample_size; [lia | reflexivity | simpl; lia].
Defined.

Section LogPrecision.

Variable log10 : Q -> Q.


End LogPrecision.


End TickHelperFacts.

(** ** Stripping zeros twice *)

Section StrippingFacts.
Import TickFormatter Spec.

Local Open Scope string_scope.

Lemma strip_zeros_idempotent (s : string) : strip_zeros (strip_zeros s) = strip_zeros s.
Proof.
  induction s as [|c s IH]; [reflexivity|].
  cbn [strip_zeros]. destruct (strip_zeros s) as [|c' s'] eqn:E.
  - destruct (Ascii.eqb c "0") eqn:Ec; [reflexivity|]. simpl. now rewrite Ec.
  - cbn [strip_zeros]. cbn [strip_zeros] in IH. rewrite IH. reflexivity.
Qed.

(** X23.  Stripping trailing zeros twice strips no more: on a numeral
    [ip.fp] with digits [fp] after the dot, followed by nothing or by an
    exponent, a second [_replace_trailing_zeros] leaves the result of the
    first unchanged. *)
Theorem replace_trailing_zeros_idempotent (ip fp ex : string) :
  string_forall not_dot_e ip = true ->
  string_forall is_digit fp = true ->
  (ex = "" \/ exists r, ex = String "e" r) ->
  _replace_trailing_zeros (_replace_trailing_zeros (numeral ip fp ex))
  = _replace_trailing_zeros (numeral ip fp ex).
Proof.
  intros Hip Hfp Hex.
  rewrite (replace_trailing_zeros_numeral ip fp ex Hip Hfp Hex).
  unfold stripped_numeral.
  destruct (strip_zeros fp) as [|c fp'] eqn:E.
  - now apply replace_trailing_zeros_integer.
  - fold (numeral ip (String c fp') ex).
    assert (Hd : string_forall is_digit (String c fp') = true)
      by (rewrite <- E; now apply strip_zeros_digits).
    rewrite (replace_trailing_zeros_numeral ip _ ex Hip Hd Hex).
    unfold stripped_numeral. rewrite <- E, strip_zeros_idempotent, E. reflexivity.
Qed.

Lemma replace_trailing_zeros_idempotent_witness :
  _replace_trailing_zeros (_replace_trailing_zeros (numeral "1" "2500" "e+7"))
  = _replace_trailing_zeros (numeral "1" "2500" "e+7").
Proof.
  apply replace_trailing_zeros_idempotent; [reflexivity | reflexivity |].
  right. now exists "+7".
Defined.

End StrippingFacts.

(** ** Runs on concrete inputs *)

Section Examples.
Import JS Num TickFormatter.

Example shift_click_below :
  Bars.idx_selected
    (Bars.bar_click_handler
       {| Bars.select_bars := true; Bars.idx_selected := Some [5; 3]%Z;
          Bars.mark_data_length := 10; Bars.selected_indices := None |}
       {| ctrlKey := false; shiftKey := true; metaKey := false |} 0%Z)
  = Some [5; 3; 1; 2; 0]%Z.
Proof. reflexivity. Qed.

Example ctrl_click_last_bar :
  Bars.idx_selected
    (Bars.bar_click_handler
       {| Bars.select_bars := true; Bars.idx_selected := Some [5]%Z;
          Bars.mark_data_length := 10; Bars.selected_indices := None |}
       {| ctrlKey := true; shiftKey := true; metaKey := false |} 5%Z)
  = None.
Proof. reflexivity. Qed.

Example meta_click_toggles :
  Graph.selected
    (Graph.click_handler
       (Graph.click_handler {| Graph.selected := Some [4]%Z; Graph.selected_indices := None |}
          {| ctrlKey := false; shiftKey := false; metaKey := true |} 7%Z)
       {| ctrlKey := false; shiftKey := false; metaKey := true |} 4%Z)
  = Some [7]%Z.
Proof. reflexivity. Qed.

Example link_data_of_matrix :
  GraphModel.link_data
    (GraphModel.update_link_data
       {| GraphModel.link_matrix := [[Some 1; None]; [None; Some 4]]%Z;
          GraphModel.link_data :=
            [{| GraphModel.source := 9; GraphModel.target := 9; GraphModel.value := 9%Z |}] |})
  = [{| GraphModel.source := 0; GraphModel.target := 0; GraphModel.value := 1%Z |};
     {| GraphModel.source := 1; GraphModel.target := 1; GraphModel.value := 4%Z |}].
Proof. reflexivity. Qed.

Example floor_log10_values :
  map floor_log10 [1; 9; 10; 999999; 1000000; 1 # 2; 1 # 10; 9 # 100; 5 # 100]%Q
  = [0; 0; 1; 5; 6; -1; -1; -2; -2]%Z.
Proof. reflexivity. Qed.

Example subsample_ten :
  get_ticks exact_arithmetic {| model_type := "ordinal";
               domain := map VNum [0; 1; 2; 3; 4; 5; 6; 7; 8; 9]%Q; ticks := [] |} 4 None
  = Some (map VNum [0; 3; 6; 9]%Q).
Proof. reflexivity. Qed.

Example date_ramp :
  get_ticks exact_arithmetic
    {| model_type := "date"; domain := [VDate 0; VDate 3000]; ticks := [] |} 4 None
  = Some [VDate 0; VDate 1000; VDate 2000; VDate 3000].
Proof. reflexivity. Qed.

Example date_single_entry_throws :
  get_ticks exact_arithmetic {| model_type := "date"; domain := [VDate 0]; ticks := [] |} 4 None = None.
Proof. reflexivity. Qed.

Example stripped_strings :
  map _replace_trailing_zeros ["1.500"; "1.000e+5"; "100"; "0.0"; "1.50e-10"; "1.05"]%string
  = ["1.5"; "1e+5"; "100"; "0"; "1.5e-10"; "1.05"]%string.
Proof. reflexivity. Qed.

Example precision_of_fifths :
  _linear_scale_precision integer_log10 {| model_type := "linear"; domain := []; ticks := [] |}
    (Some (map VNum [0; 1 # 5; 1]%Q)) = PNum 2.
Proof. reflexivity. Qed.

Example precision_seven :
  _linear_scale_precision integer_log10 {| model_type := "linear"; domain := []; ticks := [] |}
    (Some (map VNum [10000000; 10000001; 10000002]%Q)) = PNum 7.
Proof. reflexivity. Qed.

Example integer_format_of_minus_quarter :
  get_format_func D3.integer_format (PNum 0) (- (1 # 4)) = "-0"%string.
Proof. reflexivity. Qed.

Example single_tick_date_format :
  date_sc_format {| model_type := "date"; domain := []; ticks := [] |} (Some [VDate 0])
  = [("%b %d", getDate_is_not_1); ("%b %Y", getMonth); ("%Y", always_true)]%string.
Proof. reflexivity. Qed.

End Examples.
